(** * Squeaknode store: a shallow embedding of [squeaknode/db/squeak_db.py]

    The relational tables of [squeaknode/db/models.py] are lists of
    records, one record per row, in insertion order.  Every method of
    [SqueakDb] that writes takes the store and returns the new store
    together with its Python result; the wall clock read by
    [timestamp_now_ms] is an explicit argument [now_ms]. *)

From Stdlib Require Import List ZArith QArith Bool Lia.
From Stdlib Require Import Strings.String Strings.Ascii Strings.Byte.
From Stdlib Require Import Sorting.Sorted Permutation.
Import ListNotations.

Local Open Scope Z_scope.

(** ** Byte strings and their ordering *)

Definition bytes := list byte.

Definition bytes_eq_dec : forall a b : bytes, {a = b} + {a <> b} :=
  list_eq_dec Byte.byte_eq_dec.

Definition bytes_eqb (a b : bytes) : bool :=
  if bytes_eq_dec a b then true else false.

Definition byte_compare (a b : byte) : comparison :=
  N.compare (Byte.to_N a) (Byte.to_N b).

(** BLOB / bytea comparison of the backends: byte-wise, a proper prefix
    sorts first. *)
Fixpoint bytes_compare (a b : bytes) : comparison :=
  match a, b with
  | [], [] => Eq
  | [], _ :: _ => Lt
  | _ :: _, [] => Gt
  | x :: a', y :: b' =>
      match byte_compare x y with
      | Eq => bytes_compare a' b'
      | c => c
      end
  end.

(** Python truthiness of an optional [bytes] value: [None] and [b''] are
    falsy. *)
Definition truthy_bytes (b : option bytes) : bool :=
  match b with
  | None => false
  | Some [] => false
  | Some (_ :: _) => true
  end.

(** [MAX_INT] and [MAX_HASH] of squeak_db.py. *)
Definition MAX_INT : Z := 999999999999.
Definition MAX_HASH : bytes := repeat xff 32.

(** ** Tables of models.py

    One module per table, named as the table is; a nullable column is an
    [option]. *)

Module squeak.
Record row := mk {
  hash : bytes;
  created_time_ms : Z;
  squeak : bytes;
  hash_reply_sqk : option bytes;
  hash_block : bytes;
  n_block_height : Z;
  n_time : Z;
  author_address : string;
  secret_key : option bytes;
  block_time : Z;
  liked_time_ms : option Z;
  content : option string
}.
End squeak.

Module profile.
Record row := mk {
  profile_id : Z;
  created_time_ms : Z;
  profile_name : string;
  private_key : option bytes;
  address : string;
  following : bool;
  use_custom_price : bool;
  custom_price_msat : Z;
  profile_image : option bytes
}.
End profile.

Module peer.
Record row := mk {
  peer_id : Z;
  created_time_ms : Z;
  peer_name : string;
  host : string;
  port : Z;
  use_tor : bool;
  autoconnect : bool
}.
End peer.

Module received_offer.
Record row := mk {
  received_offer_id : Z;
  created_time_ms : Z;
  squeak_hash : bytes;
  payment_hash : bytes;
  nonce : bytes;
  payment_point : bytes;
  invoice_timestamp : Z;
  invoice_expiry : Z;
  price_msat : Z;
  payment_request : string;
  destination : string;
  lightning_host : string;
  lightning_port : Z;
  peer_host : string;
  peer_port : Z;
  peer_use_tor : bool;
  paid : bool
}.
End received_offer.

Module sent_offer.
Record row := mk {
  sent_offer_id : Z;
  created_time_ms : Z;
  squeak_hash : bytes;
  payment_hash : bytes;
  secret_key : bytes;
  nonce : bytes;
  price_msat : Z;
  payment_request : string;
  invoice_timestamp : Z;
  invoice_expiry : Z;
  peer_host : string;
  peer_port : Z;
  peer_use_tor : bool;
  paid : bool
}.
End sent_offer.

(** The store.  [profile_seq] and [peer_seq] are the AUTOINCREMENT
    counters of the two tables whose inserts are modelled: the largest
    id handed out so far. *)
Record Db := mkDb {
  squeaks : list squeak.row;
  profiles : list profile.row;
  profile_seq : Z;
  peers : list peer.row;
  peer_seq : Z;
  received_offers : list received_offer.row;
  sent_offers : list sent_offer.row
}.

Definition empty_db : Db := mkDb [] [] 0 [] 0 [] [].

Definition with_squeaks (db : Db) (l : list squeak.row) : Db :=
  mkDb l (profiles db) (profile_seq db) (peers db) (peer_seq db)
       (received_offers db) (sent_offers db).

Definition with_received_offers (db : Db) (l : list received_offer.row) : Db :=
  mkDb (squeaks db) (profiles db) (profile_seq db) (peers db) (peer_seq db)
       l (sent_offers db).

Definition with_sent_offers (db : Db) (l : list sent_offer.row) : Db :=
  mkDb (squeaks db) (profiles db) (profile_seq db) (peers db) (peer_seq db)
       (received_offers db) l.

(** ** Values handed in and out of the store *)

(** What [insert_squeak] reads off a [squeak.core.CSqueak] (an external
    library object): its methods and attributes as fields. *)
Record CSqueak := mkCSqueak {
  serialize : bytes;
  is_reply : bool;
  hashReplySqk : bytes;
  hashBlock : bytes;
  nBlockHeight : Z;
  nTime : Z;
  GetAddress : string
}.

(** The [nTime] of a [bitcoin.core.CBlockHeader]. *)
Record CBlockHeader := mkCBlockHeader { header_nTime : Z }.

Record PeerAddress := mkPeerAddress {
  pa_host : string;
  pa_port : Z;
  pa_use_tor : bool
}.

Record LightningAddressHostPort := mkLightningAddressHostPort {
  la_host : string;
  la_port : Z
}.

Record SqueakPeer := mkSqueakPeer {
  sp_peer_id : option Z;
  sp_peer_name : string;
  sp_address : PeerAddress;
  sp_autoconnect : bool
}.

Record SqueakProfile := mkSqueakProfile {
  prof_profile_id : option Z;
  prof_profile_name : string;
  prof_private_key : option bytes;
  prof_address : string;
  prof_following : bool;
  prof_use_custom_price : bool;
  prof_custom_price_msat : Z;
  prof_profile_image : option bytes
}.

Record SqueakEntry := mkSqueakEntry {
  squeak_hash : bytes;
  address : string;
  block_height : Z;
  block_hash : bytes;
  entry_block_time : Z;
  squeak_time : Z;
  reply_to : option bytes;
  is_unlocked : bool;
  entry_liked_time_ms : option Z;
  entry_content : option string;
  squeak_profile : option SqueakProfile
}.

Record ReceivedOffer := mkReceivedOffer {
  ro_received_offer_id : Z;
  ro_squeak_hash : bytes;
  ro_payment_hash : bytes;
  ro_nonce : bytes;
  ro_payment_point : bytes;
  ro_invoice_timestamp : Z;
  ro_invoice_expiry : Z;
  ro_price_msat : Z;
  ro_payment_request : string;
  ro_destination : string;
  ro_lightning_address : LightningAddressHostPort;
  ro_peer_address : PeerAddress
}.

(** The exception a violated constraint raises out of
    [connection.execute]. *)
Inductive db_error := IntegrityError.

(** ** Row updates used by the UPDATE statements *)

Definition set_secret_key_content (k : option bytes) (c : option string)
    (s : squeak.row) : squeak.row :=
  squeak.mk (squeak.hash s) (squeak.created_time_ms s) (squeak.squeak s)
    (squeak.hash_reply_sqk s) (squeak.hash_block s) (squeak.n_block_height s)
    (squeak.n_time s) (squeak.author_address s) k (squeak.block_time s)
    (squeak.liked_time_ms s) c.

Definition set_liked_time_ms (t : option Z) (s : squeak.row) : squeak.row :=
  squeak.mk (squeak.hash s) (squeak.created_time_ms s) (squeak.squeak s)
    (squeak.hash_reply_sqk s) (squeak.hash_block s) (squeak.n_block_height s)
    (squeak.n_time s) (squeak.author_address s) (squeak.secret_key s)
    (squeak.block_time s) t (squeak.content s).

(** [UPDATE squeak SET ... WHERE hash = squeak_hash]. *)
Definition update_squeak_where_hash (squeak_hash : bytes)
    (f : squeak.row -> squeak.row) (db : Db) : Db :=
  with_squeaks db
    (map (fun s => if bytes_eqb (squeak.hash s) squeak_hash then f s else s)
         (squeaks db)).

(** ** Writes to the squeak table *)

Section Store.

(** [squeaknode.core.squeaks.get_hash]: the content-derived identifier
    of a squeak. *)
Variable get_hash : CSqueak -> bytes.

(** [SqueakDb.insert_squeak].  The INSERT names every column but
    [liked_time_ms] and [content], which take their NULL defaults.  A
    row with the same primary key makes the statement fail with
    [IntegrityError], which the method catches and turns into [None]. *)
Definition insert_squeak (now_ms : Z) (sq : CSqueak)
    (block_header : CBlockHeader) (db : Db) : Db * option bytes :=
  let ins :=
    squeak.mk (get_hash sq) now_ms (serialize sq)
      (if is_reply sq then Some (hashReplySqk sq) else None)
      (hashBlock sq) (nBlockHeight sq) (nTime sq) (GetAddress sq)
      None (header_nTime block_header) None None in
  if existsb (fun s => bytes_eqb (squeak.hash s) (squeak.hash ins))
             (squeaks db)
  then (db, None)
  else (with_squeaks db (squeaks db ++ [ins]), Some (squeak.hash ins)).

End Store.

(** [SqueakDb.set_squeak_decryption_key]: one UPDATE writing both
    columns. *)
Definition set_squeak_decryption_key (squeak_hash secret_key : bytes)
    (content : string) (db : Db) : Db :=
  update_squeak_where_hash squeak_hash
    (set_secret_key_content (Some secret_key) (Some content)) db.

(** [SqueakDb.set_squeak_liked]. *)
Definition set_squeak_liked (now_ms : Z) (squeak_hash : bytes) (db : Db) : Db :=
  update_squeak_where_hash squeak_hash (set_liked_time_ms (Some now_ms)) db.

(** [SqueakDb.set_squeak_unliked]. *)
Definition set_squeak_unliked (squeak_hash : bytes) (db : Db) : Db :=
  update_squeak_where_hash squeak_hash (set_liked_time_ms None) db.

(** [SqueakDb.delete_squeak]. *)
Definition delete_squeak (squeak_hash : bytes) (db : Db) : Db :=
  with_squeaks db
    (filter (fun s => negb (bytes_eqb (squeak.hash s) squeak_hash))
            (squeaks db)).

(** ** Writes to the profile and peer tables *)

(** [SqueakDb.insert_profile].  [profile_name] and [address] are both
    UNIQUE; the method has no handler, so the [IntegrityError] reaches
    the caller.  The three columns the INSERT leaves out take their
    defaults. *)
Definition insert_profile (now_ms : Z) (squeak_profile : SqueakProfile)
    (db : Db) : Db * (db_error + Z) :=
  if existsb (fun p =>
        String.eqb (profile.profile_name p) (prof_profile_name squeak_profile)
        || String.eqb (profile.address p) (prof_address squeak_profile))
       (profiles db)
  then (db, inl IntegrityError)
  else
    let id := profile_seq db + 1 in
    let ins :=
      profile.mk id now_ms (prof_profile_name squeak_profile)
        (prof_private_key squeak_profile) (prof_address squeak_profile)
        (prof_following squeak_profile) false 0 None in
    (mkDb (squeaks db) (profiles db ++ [ins]) id (peers db) (peer_seq db)
          (received_offers db) (sent_offers db),
     inr id).

(** [SqueakDb.delete_profile]. *)
Definition delete_profile (profile_id : Z) (db : Db) : Db :=
  mkDb (squeaks db)
       (filter (fun p => negb (profile.profile_id p =? profile_id))
               (profiles db))
       (profile_seq db) (peers db) (peer_seq db)
       (received_offers db) (sent_offers db).

(** [SqueakDb.set_profile_following]. *)
Definition set_profile_following (profile_id : Z) (following : bool)
    (db : Db) : Db :=
  mkDb (squeaks db)
       (map (fun p =>
               if profile.profile_id p =? profile_id
               then profile.mk (profile.profile_id p)
                      (profile.created_time_ms p) (profile.profile_name p)
                      (profile.private_key p) (profile.address p) following
                      (profile.use_custom_price p)
                      (profile.custom_price_msat p) (profile.profile_image p)
               else p)
            (profiles db))
       (profile_seq db) (peers db) (peer_seq db)
       (received_offers db) (sent_offers db).

(** UNIQUE (host, port) of the peer table, [uq_peer_host_port]. *)
Definition peer_host_port_taken (host : string) (port : Z) (db : Db) : bool :=
  existsb (fun p => String.eqb (peer.host p) host && (peer.port p =? port))
          (peers db).

(** [SqueakDb.insert_peer].  There is no [try] around the INSERT: a
    second row with the same (host, port) raises [IntegrityError] to the
    caller and writes nothing. *)
Definition insert_peer (now_ms : Z) (squeak_peer : SqueakPeer) (db : Db)
    : Db * (db_error + Z) :=
  let a := sp_address squeak_peer in
  if peer_host_port_taken (pa_host a) (pa_port a) db
  then (db, inl IntegrityError)
  else
    let id := peer_seq db + 1 in
    let ins :=
      peer.mk id now_ms (sp_peer_name squeak_peer) (pa_host a) (pa_port a)
        (pa_use_tor a) (sp_autoconnect squeak_peer) in
    (mkDb (squeaks db) (profiles db) (profile_seq db) (peers db ++ [ins]) id
          (received_offers db) (sent_offers db),
     inr id).

(** [SqueakDb.delete_peer]. *)
Definition delete_peer (peer_id : Z) (db : Db) : Db :=
  mkDb (squeaks db) (profiles db) (profile_seq db)
       (filter (fun p => negb (peer.peer_id p =? peer_id)) (peers db))
       (peer_seq db) (received_offers db) (sent_offers db).

(** ** Offer expiry *)

(** [self.timestamp_now_ms / 1000]: Python's true division of the
    millisecond clock, the current time in seconds.  The quotient is
    kept exact, as a rational. *)
Definition now_seconds (now_ms : Z) : Q := Qmake now_ms 1000.

Definition Qlt_bool (x y : Q) : bool := negb (Qle_bool y x).

(** [SqueakDb.received_offer_should_be_deleted]. *)
Definition received_offer_should_be_deleted (now_ms : Z)
    (o : received_offer.row) : bool :=
  let expire_time :=
    received_offer.invoice_timestamp o + received_offer.invoice_expiry o in
  Qle_bool (inject_Z expire_time) (now_seconds now_ms).

(** [SqueakDb.received_offer_is_not_paid]. *)
Definition received_offer_is_not_paid (o : received_offer.row) : bool :=
  Bool.eqb (received_offer.paid o) false.

(** [SqueakDb.received_offer_is_not_expired]. *)
Definition received_offer_is_not_expired (now_ms : Z)
    (o : received_offer.row) : bool :=
  let expire_time :=
    received_offer.invoice_timestamp o + received_offer.invoice_expiry o in
  Qlt_bool (now_seconds now_ms) (inject_Z expire_time).

(** [SqueakDb.sent_offer_should_be_deleted]. *)
Definition sent_offer_should_be_deleted (now_ms interval_s : Z)
    (o : sent_offer.row) : bool :=
  let expire_time :=
    sent_offer.invoice_timestamp o + sent_offer.invoice_expiry o
    + interval_s in
  Qle_bool (inject_Z expire_time) (now_seconds now_ms).

(** [SqueakDb._parse_received_offer]. *)
Definition _parse_received_offer (row : received_offer.row) : ReceivedOffer :=
  mkReceivedOffer
    (received_offer.received_offer_id row)
    (received_offer.squeak_hash row)
    (received_offer.payment_hash row)
    (received_offer.nonce row)
    (received_offer.payment_point row)
    (received_offer.invoice_timestamp row)
    (received_offer.invoice_expiry row)
    (received_offer.price_msat row)
    (received_offer.payment_request row)
    (received_offer.destination row)
    (mkLightningAddressHostPort (received_offer.lightning_host row)
                                (received_offer.lightning_port row))
    (mkPeerAddress (received_offer.peer_host row)
                   (received_offer.peer_port row)
                   (received_offer.peer_use_tor row)).

(** The rows [SqueakDb.get_received_offers] selects. *)
Definition get_received_offers_rows (now_ms : Z) (squeak_hash : bytes)
    (db : Db) : list received_offer.row :=
  filter (fun o =>
            bytes_eqb (received_offer.squeak_hash o) squeak_hash
            && received_offer_is_not_paid o
            && received_offer_is_not_expired now_ms o)
         (received_offers db).

(** [SqueakDb.get_received_offers]. *)
Definition get_received_offers (now_ms : Z) (squeak_hash : bytes) (db : Db)
    : list ReceivedOffer :=
  map _parse_received_offer (get_received_offers_rows now_ms squeak_hash db).

(** [SqueakDb.delete_expired_received_offers]: the DELETE and its
    [rowcount]. *)
Definition delete_expired_received_offers (now_ms : Z) (db : Db) : Db * Z :=
  let doomed := filter (received_offer_should_be_deleted now_ms)
                       (received_offers db) in
  (with_received_offers db
     (filter (fun o => negb (received_offer_should_be_deleted now_ms o))
             (received_offers db)),
   Z.of_nat (List.length doomed)).

(** [SqueakDb.delete_expired_sent_offers]. *)
Definition delete_expired_sent_offers (now_ms interval_s : Z) (db : Db)
    : Db * Z :=
  let doomed := filter (sent_offer_should_be_deleted now_ms interval_s)
                       (sent_offers db) in
  (with_sent_offers db
     (filter (fun o => negb (sent_offer_should_be_deleted now_ms interval_s o))
             (sent_offers db)),
   Z.of_nat (List.length doomed)).

(** ** Reading squeaks: the join with profiles *)

Abbreviation joined := (squeak.row * option profile.row)%type.

(** [squeaks.outerjoin(profiles, profiles.address == squeaks.author_address)],
    for one squeak row: every profile row with the author's address, or
    the row padded with NULLs when there is none. *)
Definition outerjoin_profiles (db : Db) (s : squeak.row) : list joined :=
  match filter (fun p => String.eqb (profile.address p)
                                    (squeak.author_address s))
               (profiles db) with
  | [] => [(s, None)]
  | ps => map (fun p => (s, Some p)) ps
  end.

Definition squeaks_outerjoin_profiles (db : Db) : list joined :=
  flat_map (outerjoin_profiles db) (squeaks db).

(** [SqueakDb._parse_squeak_profile]. *)
Definition _parse_squeak_profile (p : profile.row) : SqueakProfile :=
  mkSqueakProfile
    (Some (profile.profile_id p))
    (profile.profile_name p)
    (if truthy_bytes (profile.private_key p) then profile.private_key p
     else None)
    (profile.address p)
    (profile.following p)
    (profile.use_custom_price p)
    (profile.custom_price_msat p)
    (profile.profile_image p).

(** [SqueakDb._try_parse_squeak_profile]. *)
Definition _try_parse_squeak_profile (row : joined) : option SqueakProfile :=
  match snd row with
  | None => None
  | Some p => Some (_parse_squeak_profile p)
  end.

(** [SqueakDb._parse_squeak_entry]. *)
Definition _parse_squeak_entry (row : joined) : SqueakEntry :=
  let s := fst row in
  mkSqueakEntry
    (squeak.hash s)
    (squeak.author_address s)
    (squeak.n_block_height s)
    (squeak.hash_block s)
    (squeak.block_time s)
    (squeak.n_time s)
    (if truthy_bytes (squeak.hash_reply_sqk s) then squeak.hash_reply_sqk s
     else None)
    (truthy_bytes (squeak.secret_key s))
    (squeak.liked_time_ms s)
    (squeak.content s)
    (_try_parse_squeak_profile row).

(** ** Keyset pagination *)

(** The row value [(n_block_height, n_time, hash)]. *)
Definition sort_key := (Z * Z * bytes)%type.

(** Row-value comparison, lexicographic from the left. *)
Definition key_compare (a b : sort_key) : comparison :=
  let '(a1, a2, a3) := a in
  let '(b1, b2, b3) := b in
  match Z.compare a1 b1 with
  | Eq => match Z.compare a2 b2 with
          | Eq => bytes_compare a3 b3
          | c => c
          end
  | c => c
  end.

Definition key_ltb (a b : sort_key) : bool :=
  match key_compare a b with Lt => true | _ => false end.

Definition key_lt (a b : sort_key) : Prop := key_compare a b = Lt.

Definition row_key (s : squeak.row) : sort_key :=
  (squeak.n_block_height s, squeak.n_time s, squeak.hash s).

Definition entry_key (e : SqueakEntry) : sort_key :=
  (block_height e, squeak_time e, squeak_hash e).

(** [last_block_height], [last_squeak_time], [last_squeak_hash]: the
    last entry's, or the [MAX_*] constants when there is none. *)
Definition last_key (last_entry : option SqueakEntry) : sort_key :=
  match last_entry with
  | Some e => (block_height e, squeak_time e, squeak_hash e)
  | None => (MAX_INT, MAX_INT, MAX_HASH)
  end.

(** [ORDER BY ... DESC] on a key with a strict order [ltb], as an
    insertion sort. *)
Section OrderBy.
Context {A K : Type}.
Variable ltb : K -> K -> bool.
Variable key : A -> K.

Fixpoint insert_desc (x : A) (l : list A) : list A :=
  match l with
  | [] => [x]
  | y :: l' =>
      if ltb (key x) (key y) then y :: insert_desc x l'
      else x :: y :: l'
  end.

Fixpoint order_by_desc (l : list A) : list A :=
  match l with
  | [] => []
  | x :: l' => insert_desc x (order_by_desc l')
  end.
End OrderBy.

(** The SELECT shared by the timeline, address, text-search and reply
    listings: the join, the listing's own WHERE clause, the row-value
    bound, the ordering and the LIMIT (a row count, so a natural
    number). *)
Definition select_page (where_ : joined -> bool) (limit : nat)
    (last_entry : option SqueakEntry) (db : Db) : list joined :=
  firstn limit
    (order_by_desc key_ltb (fun r => row_key (fst r))
       (filter (fun r => where_ r
                         && key_ltb (row_key (fst r)) (last_key last_entry))
               (squeaks_outerjoin_profiles db))).

(** [SqueakDb.profile_is_following]: [profiles.following == True],
    NULL (hence not true) on a row without a profile. *)
Definition profile_is_following (r : joined) : bool :=
  match snd r with
  | Some p => Bool.eqb (profile.following p) true
  | None => false
  end.

(** [SqueakDb.get_timeline_squeak_entries]. *)
Definition get_timeline_squeak_entries (limit : nat)
    (last_entry : option SqueakEntry) (db : Db) : list SqueakEntry :=
  map _parse_squeak_entry
      (select_page profile_is_following limit last_entry db).

(** ** Text search *)

(** ASCII case folding, as [lower()] and ILIKE fold it. *)
Definition ascii_lower (c : ascii) : ascii :=
  let n := nat_of_ascii c in
  if ((65 <=? n) && (n <=? 90))%nat then ascii_of_nat (n + 32) else c.

(** The LIKE operator on a pattern [p]: [%] stands for any run of
    characters, [_] for any one character, every other character for
    itself. *)
Fixpoint like_match (p : list ascii) : list ascii -> bool :=
  match p with
  | [] => fun t => match t with [] => true | _ :: _ => false end
  | c :: p' =>
      if Ascii.eqb c "%" then
        fix any_run (t : list ascii) : bool :=
          like_match p' t
          || match t with [] => false | _ :: t' => any_run t' end
      else if Ascii.eqb c "_" then
        fun t => match t with [] => false | _ :: t' => like_match p' t' end
      else
        fun t => match t with
                 | [] => false
                 | d :: t' => Ascii.eqb c d && like_match p' t'
                 end
  end.

(** [column.ilike(pattern)]: LIKE on the case-folded operands. *)
Definition ilike (text pattern : string) : bool :=
  like_match (map ascii_lower (list_ascii_of_string pattern))
             (map ascii_lower (list_ascii_of_string text)).

(** The WHERE clause [squeaks.content.ilike(f'%{search_text}%')]; NULL
    content never matches. *)
Definition content_ilike (search_text : string) (r : joined) : bool :=
  match squeak.content (fst r) with
  | Some c => ilike c ("%" ++ search_text ++ "%")
  | None => false
  end.

(** [SqueakDb.get_squeak_entries_for_text_search]. *)
Definition get_squeak_entries_for_text_search (search_text : string)
    (limit : nat) (last_entry : option SqueakEntry) (db : Db)
    : list SqueakEntry :=
  map _parse_squeak_entry
      (select_page (content_ilike search_text) limit last_entry db).

(** Substring under ASCII case folding, the comparison the listing is
    meant to make. *)
Definition is_substring_ci (needle hay : string) : Prop :=
  exists pre post : list ascii,
    map ascii_lower (list_ascii_of_string hay)
    = pre ++ map ascii_lower (list_ascii_of_string needle) ++ post.

(** ** Thread ancestors *)

(** A row of the recursive CTE [ancestors]: [(hash, depth)]. *)
Definition ancestor := (option bytes * Z)%type.

(** SQL equality between the nullable [ancestors.hash] and the key
    [squeaks.hash]. *)
Definition hash_matches (a : option bytes) (h : bytes) : bool :=
  match a with
  | Some x => bytes_eqb x h
  | None => false
  end.

(** The non-recursive term: the squeak itself at depth 0. *)
Definition ancestors_base (squeak_hash : bytes) (db : Db) : list ancestor :=
  map (fun s => (Some (squeak.hash s), 0))
      (filter (fun s => bytes_eqb (squeak.hash s) squeak_hash) (squeaks db)).

(** The recursive term applied to the rows [w] of the previous round:
    for each of them the [hash_reply_sqk] of the squeak it names, one
    level deeper. *)
Definition ancestors_step (db : Db) (w : list ancestor) : list ancestor :=
  flat_map (fun a =>
              map (fun s => (squeak.hash_reply_sqk s, snd a + 1))
                  (filter (fun s => hash_matches (fst a) (squeak.hash s))
                          (squeaks db)))
           w.

(** Evaluation of [WITH RECURSIVE ... UNION ALL]: rounds are run until
    one produces no row.  The query sets no bound of its own; [fuel]
    counts the rounds an evaluation is granted, and [None] means that
    they did not suffice. *)
Fixpoint ancestors_cte (fuel : nat) (db : Db) (w : list ancestor)
    : option (list ancestor) :=
  match w with
  | [] => Some []
  | _ :: _ =>
      match fuel with
      | O => None
      | S fuel' =>
          match ancestors_cte fuel' db (ancestors_step db w) with
          | Some rest => Some (w ++ rest)
          | None => None
          end
      end
  end.

(** [squeaks JOIN ancestors ON ancestors.hash = squeaks.hash LEFT JOIN
    profiles ...], each row with its depth. *)
Definition join_ancestors (db : Db) (anc : list ancestor)
    : list (joined * Z) :=
  flat_map (fun s =>
              flat_map (fun a =>
                          if hash_matches (fst a) (squeak.hash s)
                          then map (fun j => (j, snd a))
                                   (outerjoin_profiles db s)
                          else [])
                       anc)
           (squeaks db).

(** [SqueakDb.get_thread_ancestor_squeak_entries]. *)
Definition get_thread_ancestor_squeak_entries (fuel : nat)
    (squeak_hash : bytes) (db : Db) : option (list SqueakEntry) :=
  match ancestors_cte fuel db (ancestors_base squeak_hash db) with
  | Some anc =>
      Some (map (fun r => _parse_squeak_entry (fst r))
                (order_by_desc Z.ltb snd (join_ancestors db anc)))
  | None => None
  end.

(** ** Lookup and retention *)

(** [SqueakDb.squeak_has_secret_key]. *)
Definition squeak_has_secret_key (s : squeak.row) : bool :=
  match squeak.secret_key s with Some _ => true | None => false end.

(** [SqueakDb.lookup_squeaks].  Each [if x:] adds its WHERE clause only
    when [x] is truthy: a non-empty list, a non-zero integer, a
    non-empty byte string. *)
Definition lookup_squeaks (addresses : list string)
    (min_block max_block : Z) (reply_to_hash : option bytes)
    (include_locked : bool) (db : Db) : list bytes :=
  let s := squeaks db in
  let s := match addresses with
           | [] => s
           | _ :: _ =>
               filter (fun r => existsb (String.eqb (squeak.author_address r))
                                        addresses) s
           end in
  let s := if min_block =? 0 then s
           else filter (fun r => min_block <=? squeak.n_block_height r) s in
  let s := if max_block =? 0 then s
           else filter (fun r => squeak.n_block_height r <=? max_block) s in
  let s := if truthy_bytes reply_to_hash
           then filter (fun r =>
                          match squeak.hash_reply_sqk r, reply_to_hash with
                          | Some x, Some y => bytes_eqb x y
                          | _, _ => false
                          end) s
           else s in
  let s := if negb include_locked then filter squeak_has_secret_key s
           else s in
  map squeak.hash (order_by_desc key_ltb row_key s).

(** [SqueakDb.squeak_is_older_than_retention]. *)
Definition squeak_is_older_than_retention (now_ms interval_s : Z)
    (s : squeak.row) : bool :=
  now_ms >? squeak.created_time_ms s + interval_s * 1000.

(** [SqueakDb.profile_has_no_private_key]: [profiles.private_key IS
    NULL], which also holds on a row without a profile. *)
Definition profile_has_no_private_key (r : joined) : bool :=
  match snd r with
  | Some p => match profile.private_key p with
              | None => true
              | Some _ => false
              end
  | None => true
  end.

(** [SqueakDb.squeak_is_not_liked]. *)
Definition squeak_is_not_liked (s : squeak.row) : bool :=
  match squeak.liked_time_ms s with None => true | Some _ => false end.

(** [SqueakDb.get_old_squeaks_to_delete]. *)
Definition get_old_squeaks_to_delete (now_ms interval_s : Z) (db : Db)
    : list bytes :=
  map (fun r => squeak.hash (fst r))
      (filter (fun r =>
                 squeak_is_older_than_retention now_ms interval_s (fst r)
                 && profile_has_no_private_key r
                 && squeak_is_not_liked (fst r))
              (squeaks_outerjoin_profiles db)).

(** ** The store as a transition system *)

(** The writes of [SqueakDb] modelled above, as commands. *)
Inductive store_op :=
| InsertSqueak (now_ms : Z) (sq : CSqueak) (block_header : CBlockHeader)
| SetSqueakDecryptionKey (squeak_hash secret_key : bytes) (content : string)
| SetSqueakLiked (now_ms : Z) (squeak_hash : bytes)
| SetSqueakUnliked (squeak_hash : bytes)
| DeleteSqueak (squeak_hash : bytes)
| InsertProfile (now_ms : Z) (squeak_profile : SqueakProfile)
| DeleteProfile (profile_id : Z)
| SetProfileFollowing (profile_id : Z) (following : bool)
| InsertPeer (now_ms : Z) (squeak_peer : SqueakPeer)
| DeletePeer (peer_id : Z)
| DeleteExpiredReceivedOffers (now_ms : Z)
| DeleteExpiredSentOffers (now_ms interval_s : Z).

Definition run_op (get_hash : CSqueak -> bytes) (op : store_op) (db : Db)
    : Db :=
  match op with
  | InsertSqueak now_ms sq hdr => fst (insert_squeak get_hash now_ms sq hdr db)
  | SetSqueakDecryptionKey h k c => set_squeak_decryption_key h k c db
  | SetSqueakLiked now_ms h => set_squeak_liked now_ms h db
  | SetSqueakUnliked h => set_squeak_unliked h db
  | DeleteSqueak h => delete_squeak h db
  | InsertProfile now_ms p => fst (insert_profile now_ms p db)
  | DeleteProfile id => delete_profile id db
  | SetProfileFollowing id b => set_profile_following id b db
  | InsertPeer now_ms p => fst (insert_peer now_ms p db)
  | DeletePeer id => delete_peer id db
  | DeleteExpiredReceivedOffers now_ms =>
      fst (delete_expired_received_offers now_ms db)
  | DeleteExpiredSentOffers now_ms g =>
      fst (delete_expired_sent_offers now_ms g db)
  end.

(** The store after a history of writes, oldest first. *)
Definition run_ops (get_hash : CSqueak -> bytes) (ops : list store_op)
    (db : Db) : Db :=
  fold_left (fun d op => run_op get_hash op d) ops db.

(** A squeak row is unlocked consistently when its key and its plaintext
    are both there or both missing. *)
Definition unlock_consistent (s : squeak.row) : Prop :=
  squeak.secret_key s <> None <-> squeak.content s <> None.

Definition squeaks_consistent (db : Db) : Prop :=
  Forall unlock_consistent (squeaks db).

(** The uniqueness constraints of models.py that the listings rely on:
    the primary key of [squeak], UNIQUE [address] of [profile]. *)
Definition wf_db (db : Db) : Prop :=
  NoDup (map squeak.hash (squeaks db))
  /\ NoDup (map profile.address (profiles db)).

(** A profile for which the node holds the private key. *)
Definition locally_owned (db : Db) (s : squeak.row) : Prop :=
  exists p, In p (profiles db)
            /\ profile.address p = squeak.author_address s
            /\ profile.private_key p <> None.

(** ** Notions the properties are stated with *)

(** [a] comes before [b] in a listing: its key is strictly above. *)
Definition before {A : Type} (key : A -> sort_key) (a b : A) : Prop :=
  key_lt (key b) (key a).

(** An offer is expired once the clock has reached its invoice
    timestamp plus its invoice expiry. *)
Definition expired_at (now_ms invoice_timestamp invoice_expiry : Z) : Prop :=
  (inject_Z (invoice_timestamp + invoice_expiry) <= now_seconds now_ms)%Q.

(** The WHERE clauses of [lookup_squeaks] other than the two block
    bounds. *)
Definition address_filter (addresses : list string) (s : squeak.row) : Prop :=
  addresses = [] \/ In (squeak.author_address s) addresses.

Definition reply_filter (reply_to_hash : option bytes) (s : squeak.row)
    : Prop :=
  truthy_bytes reply_to_hash = false
  \/ squeak.hash_reply_sqk s = reply_to_hash.

Definition locked_filter (include_locked : bool) (s : squeak.row) : Prop :=
  include_locked = true \/ squeak.secret_key s <> None.

(** The reply links of the store go down in some rank: there is no
    cycle among them. *)
Definition reply_ranked (rank : bytes -> nat) (db : Db) : Prop :=
  forall s r, In s (squeaks db) ->
              squeak.hash_reply_sqk s = Some r ->
              (rank r < rank (squeak.hash s))%nat.

(** A chain of [n] reply links that starts at the hash [h]: [n + 1]
    stored squeaks, the first stored under [h], each but the last with
    the hash of the next as its [hash_reply_sqk]. *)
Inductive reply_chain (db : Db) : nat -> bytes -> Prop :=
| chain_end (s : squeak.row) :
    In s (squeaks db) -> reply_chain db 0 (squeak.hash s)
| chain_link (s : squeak.row) (r : bytes) (n : nat) :
    In s (squeaks db) ->
    squeak.hash_reply_sqk s = Some r ->
    reply_chain db n r ->
    reply_chain db (S n) (squeak.hash s).

(** [n] reply links of stored squeaks lead from the hash [h] to the
    hash [c]. *)
Inductive reply_path (db : Db) : bytes -> nat -> bytes -> Prop :=
| path_here (h : bytes) : reply_path db h 0 h
| path_link (s : squeak.row) (r : bytes) (n : nat) (c : bytes) :
    In s (squeaks db) ->
    squeak.hash_reply_sqk s = Some r ->
    reply_path db r n c ->
    reply_path db (squeak.hash s) (S n) c.

(** Some row of the working table names a hash from which a chain of
    [n] links starts. *)
Definition chain_from (db : Db) (n : nat) (w : list ancestor) : Prop :=
  exists a x, In a w /\ fst a = Some x /\ reply_chain db n x.

(** The rows of the working table after [k] more rounds. *)
Fixpoint ancestors_round (db : Db) (k : nat) (w : list ancestor)
    : list ancestor :=
  match k with
  | O => w
  | S k' => ancestors_round db k' (ancestors_step db w)
  end.

(** A search text without the LIKE wildcards. *)
Definition wildcard_free (s : string) : Prop :=
  ~ In "%"%char (list_ascii_of_string s)
  /\ ~ In "_"%char (list_ascii_of_string s).

(** ** Stores the properties are tried on *)

(** A squeak created at 0 ms, not liked, of an author without
    profile. *)
Definition cutoff_squeak : squeak.row :=
  squeak.mk [x01] 0 [] None [] 0 0 "author" None 0 None None.

Definition cutoff_db : Db := mkDb [cutoff_squeak] [] 0 [] 0 [] [].

(** A stored squeak whose [hash_reply_sqk] is its own hash. *)
Definition cyclic_db : Db :=
  mkDb [squeak.mk [x01] 0 [] (Some [x01]) [] 0 0 "author" None 0 None None]
       [] 0 [] 0 [] [].

(** The hash of the [i]-th squeak of a reply chain: [i] on two bytes,
    big-endian. *)
Definition chain_hash (i : nat) : bytes :=
  match Byte.of_N (N.of_nat (i / 256)), Byte.of_N (N.of_nat (i mod 256)) with
  | Some hi, Some lo => [hi; lo]
  | _, _ => []
  end.

(** Squeak 0 is a root; squeak [i + 1] replies to squeak [i]. *)
Definition chain_squeak (i : nat) : squeak.row :=
  squeak.mk (chain_hash i) 0 []
    (match i with O => None | S j => Some (chain_hash j) end)
    [] (Z.of_nat i) 0 "author" None 0 None None.

(** A thread 1030 squeaks deep. *)
Definition long_chain_db : Db :=
  mkDb (map chain_squeak (seq 0 1030)) [] 0 [] 0 [] [].

(** A store with one unlocked squeak whose plaintext is "50 sats". *)
Definition percent_db : Db :=
  mkDb [squeak.mk [x01] 0 [] None [] 7 9 "author" (Some [x02]) 0 None
                  (Some "50 sats"%string)]
       [] 0 [] 0 [] [].

(** A stand-in for [get_hash]: the serialization itself. *)
Definition sample_get_hash (sq : CSqueak) : bytes := serialize sq.

Definition alice_squeak : CSqueak :=
  mkCSqueak [x0a] false [] [xb0] 5 100 "alice".

Definition bob_reply : CSqueak :=
  mkCSqueak [x0b] true [x0a] [xb1] 6 200 "bob".

Definition carol_squeak : CSqueak :=
  mkCSqueak [x0c] false [] [xb1] 6 150 "carol".

Definition alice_profile : SqueakProfile :=
  mkSqueakProfile None "alice" (Some [x11]) "alice" true false 0 None.

Definition bob_profile : SqueakProfile :=
  mkSqueakProfile None "bob" None "bob" true false 0 None.

Definition sample_peer : SqueakPeer :=
  mkSqueakPeer None "peer" (mkPeerAddress "fake_host" 5678 false) false.

(** Alice is a signing profile, Bob a followed contact, Carol has no
    profile; Bob's squeak replies to Alice's, which is unlocked. *)
Definition sample_db : Db :=
  run_ops sample_get_hash
    [InsertProfile 1 alice_profile;
     InsertProfile 2 bob_profile;
     InsertSqueak 10 alice_squeak (mkCBlockHeader 90);
     InsertSqueak 20 bob_reply (mkCBlockHeader 190);
     InsertSqueak 30 carol_squeak (mkCBlockHeader 190);
     SetSqueakDecryptionKey [x0a] [x22] "hello";
     InsertPeer 40 sample_peer]
    empty_db.

Definition sample_sent_offer : sent_offer.row :=
  sent_offer.mk 1 0 [x0a] [x32] [x22] [x33] 1000 "lnbc" 1000 60
                "fake_host" 5678 false false.

Definition sample_received_offer : received_offer.row :=
  received_offer.mk 1 0 [x0a] [x31] [x33] [x34] 1000 60 1000 "lnbc"
                    "dest" "lnd_host" 9735 "fake_host" 5678 false false.

(** One received and one sent offer, both issued at second 1000 and
    expiring 60 seconds later. *)
Definition offers_db : Db :=
  mkDb [] [] 0 [] 0 [sample_received_offer] [sample_sent_offer].

(** A squeak that [sample_db] does not hold, and the row [sample_db]
    holds for Bob's reply. *)
Definition dave_squeak : CSqueak :=
  mkCSqueak [x0d] false [] [xb2] 7 300 "dave".

Definition bob_row : squeak.row := nth 1 (squeaks sample_db) cutoff_squeak.

(** A squeak that replies to itself, and beside it a thread of two
    squeaks that has nothing to do with it: [x03] replies to [x02]. *)
Definition mixed_db : Db :=
  mkDb [squeak.mk [x01] 0 [] (Some [x01]) [] 0 0 "author" None 0 None None;
        squeak.mk [x02] 0 [] None [] 1 0 "author" None 0 None None;
        squeak.mk [x03] 0 [] (Some [x02]) [] 2 0 "author" None 0 None None]
       [] 0 [] 0 [] [].

(** A rank for [sample_db]: Bob's reply is above everything else. *)
Definition sample_rank (h : bytes) : nat :=
  if bytes_eqb h [x0b] then 1%nat else 0%nat.

(** * More of [SqueakDb]: reads of the squeak table *)

(** [SqueakDb.get_squeak_secret_key]: the [secret_key] column of the
    first row [fetchone] returns, [None] when there is no row. *)
Definition get_squeak_secret_key (squeak_hash : bytes) (db : Db)
    : option bytes :=
  match filter (fun s => bytes_eqb (squeak.hash s) squeak_hash)
               (squeaks db) with
  | [] => None
  | row :: _ => squeak.secret_key row
  end.

(** [SqueakDb.get_squeak], with [CSqueak.deserialize] of the squeak
    library as a parameter. *)
Definition get_squeak (deserialize : bytes -> CSqueak) (squeak_hash : bytes)
    (db : Db) : option CSqueak :=
  match filter (fun s => bytes_eqb (squeak.hash s) squeak_hash)
               (squeaks db) with
  | [] => None
  | row :: _ => Some (deserialize (squeak.squeak row))
  end.

(** [SqueakDb.get_squeak_entry]. *)
Definition get_squeak_entry (squeak_hash : bytes) (db : Db)
    : option SqueakEntry :=
  match filter (fun r : joined => bytes_eqb (squeak.hash (fst r)) squeak_hash)
               (squeaks_outerjoin_profiles db) with
  | [] => None
  | row :: _ => Some (_parse_squeak_entry row)
  end.

(** [SqueakDb.get_squeak_entries_for_address]. *)
Definition get_squeak_entries_for_address (address : string) (limit : nat)
    (last_entry : option SqueakEntry) (db : Db) : list SqueakEntry :=
  map _parse_squeak_entry
      (select_page
         (fun r => String.eqb (squeak.author_address (fst r)) address)
         limit last_entry db).

(** The WHERE clause [squeaks.hash_reply_sqk == squeak_hash]. *)
Definition replies_to (squeak_hash : bytes) (r : joined) : bool :=
  match squeak.hash_reply_sqk (fst r) with
  | Some x => bytes_eqb x squeak_hash
  | None => false
  end.

(** [SqueakDb.get_thread_reply_squeak_entries]. *)
Definition get_thread_reply_squeak_entries (squeak_hash : bytes)
    (limit : nat) (last_entry : option SqueakEntry) (db : Db)
    : list SqueakEntry :=
  map _parse_squeak_entry
      (select_page (replies_to squeak_hash) limit last_entry db).

(** The row value [(liked_time_ms, hash)] and its comparison. *)
Definition liked_key := (Z * bytes)%type.

Definition pair_compare (a b : liked_key) : comparison :=
  match Z.compare (fst a) (fst b) with
  | Eq => bytes_compare (snd a) (snd b)
  | c => c
  end.

Definition pair_ltb (a b : liked_key) : bool :=
  match pair_compare a b with Lt => true | _ => false end.

(** The rows passing [squeak_is_liked], each with its (non NULL)
    [liked_time_ms]. *)
Definition liked_rows (db : Db) : list (Z * joined) :=
  flat_map (fun r : joined =>
              match squeak.liked_time_ms (fst r) with
              | Some t => [(t, r)]
              | None => []
              end)
           (squeaks_outerjoin_profiles db).

(** [SqueakDb.get_liked_squeak_entries].  Without a last entry the bound
    is the current time and [MAX_HASH].  The last entry's
    [liked_time_ms] may be [None]; it is then bound as NULL, and a row
    value compared with one holding NULL in its first place is not
    true of any row. *)
Definition get_liked_squeak_entries (now_ms : Z) (limit : nat)
    (last_entry : option SqueakEntry) (db : Db) : list SqueakEntry :=
  let last_liked_time_ms :=
    match last_entry with
    | Some e => entry_liked_time_ms e
    | None => Some now_ms
    end in
  let last_squeak_hash :=
    match last_entry with
    | Some e => squeak_hash e
    | None => MAX_HASH
    end in
  map (fun tr => _parse_squeak_entry (snd tr))
      (firstn limit
         (order_by_desc pair_ltb
            (fun tr : Z * joined => (fst tr, squeak.hash (fst (snd tr))))
            (filter (fun tr : Z * joined =>
                       match last_liked_time_ms with
                       | Some bound =>
                           pair_ltb (fst tr, squeak.hash (fst (snd tr)))
                                    (bound, last_squeak_hash)
                       | None => false
                       end)
                    (liked_rows db)))).

(** [SqueakDb.get_number_of_squeaks]. *)
Definition get_number_of_squeaks (db : Db) : Z :=
  Z.of_nat (List.length (squeaks db)).

(** [SqueakDb.number_of_squeaks_with_address_with_block]. *)
Definition number_of_squeaks_with_address_with_block (address : string)
    (block_height : Z) (db : Db) : Z :=
  Z.of_nat (List.length
    (filter (fun s => String.eqb (squeak.author_address s) address
                      && (squeak.n_block_height s =? block_height))
            (squeaks db))).

(** [SqueakDb.number_of_squeaks_with_address_in_block_range]. *)
Definition number_of_squeaks_with_address_in_block_range (address : string)
    (min_block max_block : Z) (db : Db) : Z :=
  Z.of_nat (List.length
    (filter (fun s => String.eqb (squeak.author_address s) address
                      && (min_block <=? squeak.n_block_height s)
                      && (squeak.n_block_height s <=? max_block))
            (squeaks db))).

(** [h'] is reached from [h] along the reply links of the store. *)
Inductive reply_ancestor (db : Db) (h : bytes) : bytes -> Prop :=
| ancestor_self : reply_ancestor db h h
| ancestor_parent (s : squeak.row) (r : bytes) :
    reply_ancestor db h (squeak.hash s) ->
    In s (squeaks db) ->
    squeak.hash_reply_sqk s = Some r ->
    reply_ancestor db h r.

(** [a] comes before [b] in the liked listing: strictly above in
    [(liked_time_ms, hash)]. *)
Definition liked_before (a b : SqueakEntry) : Prop :=
  exists ta tb,
    entry_liked_time_ms a = Some ta
    /\ entry_liked_time_ms b = Some tb
    /\ pair_compare (tb, squeak_hash b) (ta, squeak_hash a) = Lt.

(** * More of [SqueakDb]: profiles and peers *)

(** [SqueakDb.profile_has_private_key]. *)
Definition profile_has_private_key (p : profile.row) : bool :=
  match profile.private_key p with Some _ => true | None => false end.

(** [SqueakDb.get_profiles]. *)
Definition get_profiles (db : Db) : list SqueakProfile :=
  map _parse_squeak_profile (profiles db).

(** [SqueakDb.get_signing_profiles]. *)
Definition get_signing_profiles (db : Db) : list SqueakProfile :=
  map _parse_squeak_profile (filter profile_has_private_key (profiles db)).

(** [SqueakDb.get_contact_profiles]. *)
Definition get_contact_profiles (db : Db) : list SqueakProfile :=
  map _parse_squeak_profile
      (filter (fun p => negb (profile_has_private_key p)) (profiles db)).

(** [SqueakDb.get_following_profiles]. *)
Definition get_following_profiles (db : Db) : list SqueakProfile :=
  map _parse_squeak_profile (filter profile.following (profiles db)).

(** [SqueakDb.get_following_profiles_from_addreses]. *)
Definition get_following_profiles_from_addreses (addresses : list string)
    (db : Db) : list SqueakProfile :=
  map _parse_squeak_profile
      (filter (fun p => existsb (String.eqb (profile.address p)) addresses)
              (filter profile.following (profiles db))).

(** [SqueakDb.get_profile]. *)
Definition get_profile (profile_id : Z) (db : Db) : option SqueakProfile :=
  match filter (fun p => profile.profile_id p =? profile_id)
               (profiles db) with
  | [] => None
  | row :: _ => Some (_parse_squeak_profile row)
  end.

(** [SqueakDb.get_profile_by_address]. *)
Definition get_profile_by_address (address : string) (db : Db)
    : option SqueakProfile :=
  match filter (fun p => String.eqb (profile.address p) address)
               (profiles db) with
  | [] => None
  | row :: _ => Some (_parse_squeak_profile row)
  end.

(** [SqueakDb.get_profile_by_name]. *)
Definition get_profile_by_name (name : string) (db : Db)
    : option SqueakProfile :=
  match filter (fun p => String.eqb (profile.profile_name p) name)
               (profiles db) with
  | [] => None
  | row :: _ => Some (_parse_squeak_profile row)
  end.

Definition with_profiles (db : Db) (l : list profile.row) : Db :=
  mkDb (squeaks db) l (profile_seq db) (peers db) (peer_seq db)
       (received_offers db) (sent_offers db).

(** [UPDATE profile SET ... WHERE profile_id = profile_id]. *)
Definition update_profile_where_id (profile_id : Z)
    (f : profile.row -> profile.row) (db : Db) : Db :=
  with_profiles db
    (map (fun p => if profile.profile_id p =? profile_id then f p else p)
         (profiles db)).

(** [SqueakDb.set_profile_use_custom_price]. *)
Definition set_profile_use_custom_price (profile_id : Z)
    (use_custom_price : bool) (db : Db) : Db :=
  update_profile_where_id profile_id
    (fun p => profile.mk (profile.profile_id p) (profile.created_time_ms p)
                (profile.profile_name p) (profile.private_key p)
                (profile.address p) (profile.following p) use_custom_price
                (profile.custom_price_msat p) (profile.profile_image p))
    db.

(** [SqueakDb.set_profile_custom_price_msat]. *)
Definition set_profile_custom_price_msat (profile_id : Z)
    (custom_price_msat : Z) (db : Db) : Db :=
  update_profile_where_id profile_id
    (fun p => profile.mk (profile.profile_id p) (profile.created_time_ms p)
                (profile.profile_name p) (profile.private_key p)
                (profile.address p) (profile.following p)
                (profile.use_custom_price p) custom_price_msat
                (profile.profile_image p))
    db.

(** [SqueakDb.set_profile_image]. *)
Definition set_profile_image (profile_id : Z) (profile_image : bytes)
    (db : Db) : Db :=
  update_profile_where_id profile_id
    (fun p => profile.mk (profile.profile_id p) (profile.created_time_ms p)
                (profile.profile_name p) (profile.private_key p)
                (profile.address p) (profile.following p)
                (profile.use_custom_price p) (profile.custom_price_msat p)
                (Some profile_image))
    db.

(** [SqueakDb.set_profile_name].  [profile_name] is UNIQUE: the UPDATE
    fails, and the [IntegrityError] reaches the caller, when it touches
    a row while another row holds the name, or touches several rows. *)
Definition set_profile_name (profile_id : Z) (profile_name : string)
    (db : Db) : Db * (db_error + unit) :=
  let touched := filter (fun p => profile.profile_id p =? profile_id)
                        (profiles db) in
  let others := filter (fun p => negb (profile.profile_id p =? profile_id))
                       (profiles db) in
  if match touched with [] => false | _ :: _ => true end
     && (existsb (fun p => String.eqb (profile.profile_name p) profile_name)
                 others
         || (1 <? List.length touched)%nat)
  then (db, inl IntegrityError)
  else
    (update_profile_where_id profile_id
       (fun p => profile.mk (profile.profile_id p) (profile.created_time_ms p)
                   profile_name (profile.private_key p) (profile.address p)
                   (profile.following p) (profile.use_custom_price p)
                   (profile.custom_price_msat p) (profile.profile_image p))
       db,
     inr tt).

(** [SqueakDb._parse_squeak_peer]. *)
Definition _parse_squeak_peer (row : peer.row) : SqueakPeer :=
  mkSqueakPeer (Some (peer.peer_id row)) (peer.peer_name row)
    (mkPeerAddress (peer.host row) (peer.port row) (peer.use_tor row))
    (peer.autoconnect row).

(** [SqueakDb.get_peer]. *)
Definition get_peer (peer_id : Z) (db : Db) : option SqueakPeer :=
  match filter (fun p => peer.peer_id p =? peer_id) (peers db) with
  | [] => None
  | row :: _ => Some (_parse_squeak_peer row)
  end.

(** [SqueakDb.get_peer_by_address]: the WHERE clauses compare host and
    port. *)
Definition get_peer_by_address (peer_address : PeerAddress) (db : Db)
    : option SqueakPeer :=
  match filter (fun p => String.eqb (peer.host p) (pa_host peer_address)
                         && (peer.port p =? pa_port peer_address))
               (peers db) with
  | [] => None
  | row :: _ => Some (_parse_squeak_peer row)
  end.

(** [SqueakDb.get_peers]. *)
Definition get_peers (db : Db) : list SqueakPeer :=
  map _parse_squeak_peer (peers db).

(** [SqueakDb.get_autoconnect_peers]. *)
Definition get_autoconnect_peers (db : Db) : list SqueakPeer :=
  map _parse_squeak_peer (filter peer.autoconnect (peers db)).

Definition with_peers (db : Db) (l : list peer.row) : Db :=
  mkDb (squeaks db) (profiles db) (profile_seq db) l (peer_seq db)
       (received_offers db) (sent_offers db).

(** [SqueakDb.set_peer_autoconnect]. *)
Definition set_peer_autoconnect (peer_id : Z) (autoconnect : bool) (db : Db)
    : Db :=
  with_peers db
    (map (fun p => if peer.peer_id p =? peer_id
                   then peer.mk (peer.peer_id p) (peer.created_time_ms p)
                          (peer.peer_name p) (peer.host p) (peer.port p)
                          (peer.use_tor p) autoconnect
                   else p)
         (peers db)).

(** [SqueakDb.set_peer_name]. *)
Definition set_peer_name (peer_id : Z) (peer_name : string) (db : Db) : Db :=
  with_peers db
    (map (fun p => if peer.peer_id p =? peer_id
                   then peer.mk (peer.peer_id p) (peer.created_time_ms p)
                          peer_name (peer.host p) (peer.port p)
                          (peer.use_tor p) (peer.autoconnect p)
                   else p)
         (peers db)).

(** The writes to the profile and peer tables beside those of
    [store_op]. *)
Inductive table_op :=
| StoreOp (op : store_op)
| SetProfileUseCustomPrice (profile_id : Z) (use_custom_price : bool)
| SetProfileCustomPriceMsat (profile_id : Z) (custom_price_msat : Z)
| SetProfileImage (profile_id : Z) (profile_image : bytes)
| SetProfileName (profile_id : Z) (profile_name : string)
| SetPeerAutoconnect (peer_id : Z) (autoconnect : bool)
| SetPeerName (peer_id : Z) (peer_name : string).

Definition run_table_op (get_hash : CSqueak -> bytes) (op : table_op)
    (db : Db) : Db :=
  match op with
  | StoreOp o => run_op get_hash o db
  | SetProfileUseCustomPrice id b => set_profile_use_custom_price id b db
  | SetProfileCustomPriceMsat id v => set_profile_custom_price_msat id v db
  | SetProfileImage id img => set_profile_image id img db
  | SetProfileName id name => fst (set_profile_name id name db)
  | SetPeerAutoconnect id b => set_peer_autoconnect id b db
  | SetPeerName id name => set_peer_name id name db
  end.

(** What the constraints and the AUTOINCREMENT counters of the profile
    and peer tables guarantee: ids, names and addresses of profiles are
    unique, ids and (host, port) of peers are, and no id is above its
    counter. *)
Definition tables_ok (db : Db) : Prop :=
  NoDup (map profile.profile_id (profiles db))
  /\ NoDup (map profile.profile_name (profiles db))
  /\ NoDup (map profile.address (profiles db))
  /\ (forall p, In p (profiles db) -> profile.profile_id p <= profile_seq db)
  /\ NoDup (map peer.peer_id (peers db))
  /\ NoDup (map (fun p => (peer.host p, peer.port p)) (peers db))
  /\ (forall p, In p (peers db) -> peer.peer_id p <= peer_seq db).

(** How a profile row reads back. *)
Definition stored_profile (id : Z) (squeak_profile : SqueakProfile)
    : SqueakProfile :=
  mkSqueakProfile (Some id) (prof_profile_name squeak_profile)
    (if truthy_bytes (prof_private_key squeak_profile)
     then prof_private_key squeak_profile else None)
    (prof_address squeak_profile) (prof_following squeak_profile)
    false 0 None.

(** The store after a history of table writes, oldest first. *)
Definition run_table_ops (get_hash : CSqueak -> bytes) (ops : list table_op)
    (db : Db) : Db :=
  fold_left (fun d op => run_table_op get_hash op d) ops db.

(** The row [set_profile_name] writes. *)
Definition renamed (profile_name : string) (p : profile.row) : profile.row :=
  profile.mk (profile.profile_id p) (profile.created_time_ms p)
    profile_name (profile.private_key p) (profile.address p)
    (profile.following p) (profile.use_custom_price p)
    (profile.custom_price_msat p) (profile.profile_image p).

(** * More of [SqueakDb]: received and sent offers *)

(** [SqueakDb.get_received_offer]. *)
Definition get_received_offer (received_offer_id : Z) (db : Db)
    : option ReceivedOffer :=
  match filter (fun o => received_offer.received_offer_id o
                         =? received_offer_id)
               (received_offers db) with
  | [] => None
  | row :: _ => Some (_parse_received_offer row)
  end.

(** The rows [SqueakDb.get_received_offer_for_squeak_and_peer] selects. *)
Definition received_offer_for_squeak_and_peer_rows (now_ms : Z)
    (squeak_hash : bytes) (peer_address : PeerAddress) (db : Db)
    : list received_offer.row :=
  filter (fun o =>
            bytes_eqb (received_offer.squeak_hash o) squeak_hash
            && String.eqb (received_offer.peer_host o) (pa_host peer_address)
            && (received_offer.peer_port o =? pa_port peer_address)
            && Bool.eqb (received_offer.peer_use_tor o)
                        (pa_use_tor peer_address)
            && received_offer_is_not_paid o
            && received_offer_is_not_expired now_ms o)
         (received_offers db).

(** [SqueakDb.get_received_offer_for_squeak_and_peer]. *)
Definition get_received_offer_for_squeak_and_peer (now_ms : Z)
    (squeak_hash : bytes) (peer_address : PeerAddress) (db : Db)
    : option ReceivedOffer :=
  match received_offer_for_squeak_and_peer_rows now_ms squeak_hash
          peer_address db with
  | [] => None
  | row :: _ => Some (_parse_received_offer row)
  end.

(** [SqueakDb.delete_offers_for_squeak]: the DELETE and its
    [rowcount]. *)
Definition delete_offers_for_squeak (squeak_hash : bytes) (db : Db)
    : Db * Z :=
  let doomed := filter (fun o => bytes_eqb (received_offer.squeak_hash o)
                                           squeak_hash)
                       (received_offers db) in
  (with_received_offers db
     (filter (fun o => negb (bytes_eqb (received_offer.squeak_hash o)
                                       squeak_hash))
             (received_offers db)),
   Z.of_nat (List.length doomed)).

(** [SqueakDb.delete_offer]. *)
Definition delete_offer (payment_hash : bytes) (db : Db) : Db :=
  with_received_offers db
    (filter (fun o => negb (bytes_eqb (received_offer.payment_hash o)
                                      payment_hash))
            (received_offers db)).

Definition with_paid (paid : bool) (o : received_offer.row)
    : received_offer.row :=
  received_offer.mk
    (received_offer.received_offer_id o) (received_offer.created_time_ms o)
    (received_offer.squeak_hash o) (received_offer.payment_hash o)
    (received_offer.nonce o) (received_offer.payment_point o)
    (received_offer.invoice_timestamp o) (received_offer.invoice_expiry o)
    (received_offer.price_msat o) (received_offer.payment_request o)
    (received_offer.destination o) (received_offer.lightning_host o)
    (received_offer.lightning_port o) (received_offer.peer_host o)
    (received_offer.peer_port o) (received_offer.peer_use_tor o) paid.

(** [SqueakDb.set_received_offer_paid]. *)
Definition set_received_offer_paid (payment_hash : bytes) (paid : bool)
    (db : Db) : Db :=
  with_received_offers db
    (map (fun o => if bytes_eqb (received_offer.payment_hash o) payment_hash
                   then with_paid paid o else o)
         (received_offers db)).

(** The store with the AUTOINCREMENT counters of the two offer tables:
    the largest id each has handed out. *)
Record OfferStore := mkOfferStore {
  store : Db;
  received_offer_seq : Z;
  sent_offer_seq : Z
}.

(** [SqueakDb.insert_received_offer].  [payment_hash] is UNIQUE; the
    [IntegrityError] is caught and the method returns [None].  [paid]
    takes its default. *)
Definition insert_received_offer (now_ms : Z) (received_offer_ : ReceivedOffer)
    (st : OfferStore) : OfferStore * option Z :=
  let db := store st in
  if existsb (fun o => bytes_eqb (received_offer.payment_hash o)
                                 (ro_payment_hash received_offer_))
             (received_offers db)
  then (st, None)
  else
    let id := received_offer_seq st + 1 in
    let ins :=
      received_offer.mk id now_ms
        (ro_squeak_hash received_offer_) (ro_payment_hash received_offer_)
        (ro_nonce received_offer_) (ro_payment_point received_offer_)
        (ro_invoice_timestamp received_offer_)
        (ro_invoice_expiry received_offer_) (ro_price_msat received_offer_)
        (ro_payment_request received_offer_) (ro_destination received_offer_)
        (la_host (ro_lightning_address received_offer_))
        (la_port (ro_lightning_address received_offer_))
        (pa_host (ro_peer_address received_offer_))
        (pa_port (ro_peer_address received_offer_))
        (pa_use_tor (ro_peer_address received_offer_)) false in
    (mkOfferStore (with_received_offers db (received_offers db ++ [ins]))
                  id (sent_offer_seq st),
     Some id).

(** The offer [_parse_sent_offer] builds. *)
Record SentOffer := mkSentOffer {
  so_sent_offer_id : Z;
  so_squeak_hash : bytes;
  so_payment_hash : bytes;
  so_secret_key : bytes;
  so_nonce : bytes;
  so_price_msat : Z;
  so_payment_request : string;
  so_invoice_time : Z;
  so_invoice_expiry : Z;
  so_peer_address : PeerAddress
}.

(** [SqueakDb._parse_sent_offer]. *)
Definition _parse_sent_offer (row : sent_offer.row) : SentOffer :=
  mkSentOffer
    (sent_offer.sent_offer_id row) (sent_offer.squeak_hash row)
    (sent_offer.payment_hash row) (sent_offer.secret_key row)
    (sent_offer.nonce row) (sent_offer.price_msat row)
    (sent_offer.payment_request row) (sent_offer.invoice_timestamp row)
    (sent_offer.invoice_expiry row)
    (mkPeerAddress (sent_offer.peer_host row) (sent_offer.peer_port row)
                   (sent_offer.peer_use_tor row)).

(** [SqueakDb.sent_offer_is_not_paid]. *)
Definition sent_offer_is_not_paid (o : sent_offer.row) : bool :=
  Bool.eqb (sent_offer.paid o) false.

(** [SqueakDb.sent_offer_is_not_expired]. *)
Definition sent_offer_is_not_expired (now_ms : Z) (o : sent_offer.row)
    : bool :=
  let expire_time :=
    sent_offer.invoice_timestamp o + sent_offer.invoice_expiry o in
  Qlt_bool (now_seconds now_ms) (inject_Z expire_time).

(** [SqueakDb.get_sent_offer_by_payment_hash]. *)
Definition get_sent_offer_by_payment_hash (payment_hash : bytes) (db : Db)
    : option SentOffer :=
  match filter (fun o => bytes_eqb (sent_offer.payment_hash o) payment_hash)
               (sent_offers db) with
  | [] => None
  | row :: _ => Some (_parse_sent_offer row)
  end.

(** The rows [SqueakDb.get_sent_offer_by_squeak_hash_and_peer] selects:
    the WHERE clauses compare the squeak hash, the peer's host and its
    [use_tor] flag. *)
Definition sent_offer_by_squeak_hash_and_peer_rows (now_ms : Z)
    (squeak_hash : bytes) (peer_address : PeerAddress) (db : Db)
    : list sent_offer.row :=
  filter (fun o =>
            bytes_eqb (sent_offer.squeak_hash o) squeak_hash
            && String.eqb (sent_offer.peer_host o) (pa_host peer_address)
            && Bool.eqb (sent_offer.peer_use_tor o) (pa_use_tor peer_address)
            && sent_offer_is_not_paid o
            && sent_offer_is_not_expired now_ms o)
         (sent_offers db).

(** [SqueakDb.get_sent_offer_by_squeak_hash_and_peer]. *)
Definition get_sent_offer_by_squeak_hash_and_peer (now_ms : Z)
    (squeak_hash : bytes) (peer_address : PeerAddress) (db : Db)
    : option SentOffer :=
  match sent_offer_by_squeak_hash_and_peer_rows now_ms squeak_hash
          peer_address db with
  | [] => None
  | row :: _ => Some (_parse_sent_offer row)
  end.

(** [SqueakDb.delete_sent_offer]. *)
Definition delete_sent_offer (payment_hash : bytes) (db : Db) : Db :=
  with_sent_offers db
    (filter (fun o => negb (bytes_eqb (sent_offer.payment_hash o)
                                      payment_hash))
            (sent_offers db)).

Definition with_sent_paid (paid : bool) (o : sent_offer.row)
    : sent_offer.row :=
  sent_offer.mk
    (sent_offer.sent_offer_id o) (sent_offer.created_time_ms o)
    (sent_offer.squeak_hash o) (sent_offer.payment_hash o)
    (sent_offer.secret_key o) (sent_offer.nonce o) (sent_offer.price_msat o)
    (sent_offer.payment_request o) (sent_offer.invoice_timestamp o)
    (sent_offer.invoice_expiry o) (sent_offer.peer_host o)
    (sent_offer.peer_port o) (sent_offer.peer_use_tor o) paid.

(** [SqueakDb.set_sent_offer_paid]. *)
Definition set_sent_offer_paid (payment_hash : bytes) (paid : bool)
    (db : Db) : Db :=
  with_sent_offers db
    (map (fun o => if bytes_eqb (sent_offer.payment_hash o) payment_hash
                   then with_sent_paid paid o else o)
         (sent_offers db)).

(** [SqueakDb.insert_sent_offer].  [payment_hash] is UNIQUE and nothing
    catches the [IntegrityError]. *)
Definition insert_sent_offer (now_ms : Z) (sent_offer_ : SentOffer)
    (st : OfferStore) : OfferStore * (db_error + Z) :=
  let db := store st in
  if existsb (fun o => bytes_eqb (sent_offer.payment_hash o)
                                 (so_payment_hash sent_offer_))
             (sent_offers db)
  then (st, inl IntegrityError)
  else
    let id := sent_offer_seq st + 1 in
    let ins :=
      sent_offer.mk id now_ms
        (so_squeak_hash sent_offer_) (so_payment_hash sent_offer_)
        (so_secret_key sent_offer_) (so_nonce sent_offer_)
        (so_price_msat sent_offer_) (so_payment_request sent_offer_)
        (so_invoice_time sent_offer_) (so_invoice_expiry sent_offer_)
        (pa_host (so_peer_address sent_offer_))
        (pa_port (so_peer_address sent_offer_))
        (pa_use_tor (so_peer_address sent_offer_)) false in
    (mkOfferStore (with_sent_offers db (sent_offers db ++ [ins]))
                  (received_offer_seq st) id,
     inr id).

(** How an inserted received offer reads back: under the id it was
    given. *)
Definition stored_received_offer (id : Z) (o : ReceivedOffer)
    : ReceivedOffer :=
  mkReceivedOffer id (ro_squeak_hash o) (ro_payment_hash o) (ro_nonce o)
    (ro_payment_point o) (ro_invoice_timestamp o) (ro_invoice_expiry o)
    (ro_price_msat o) (ro_payment_request o) (ro_destination o)
    (ro_lightning_address o) (ro_peer_address o).

(** How an inserted sent offer reads back. *)
Definition stored_sent_offer (id : Z) (o : SentOffer) : SentOffer :=
  mkSentOffer id (so_squeak_hash o) (so_payment_hash o) (so_secret_key o)
    (so_nonce o) (so_price_msat o) (so_payment_request o)
    (so_invoice_time o) (so_invoice_expiry o) (so_peer_address o).

(** * More of [SqueakDb]: received payments *)

Module received_payment.
Record row := mk {
  received_payment_id : Z;
  created_time_ms : Z;
  squeak_hash : bytes;
  payment_hash : bytes;
  price_msat : Z;
  settle_index : Z;
  peer_host : string;
  peer_port : Z;
  peer_use_tor : bool
}.
End received_payment.

(** The [received_payment] table with its AUTOINCREMENT counter. *)
Record PaymentTable := mkPaymentTable {
  received_payments : list received_payment.row;
  received_payment_seq : Z
}.

(** The payment [_parse_received_payment] builds; the id and the
    creation time are not there before the insert. *)
Record ReceivedPayment := mkReceivedPayment {
  rp_received_payment_id : option Z;
  rp_created_time_ms : option Z;
  rp_squeak_hash : bytes;
  rp_payment_hash : bytes;
  rp_price_msat : Z;
  rp_settle_index : Z;
  rp_peer_address : PeerAddress
}.

(** [SqueakDb._parse_received_payment]. *)
Definition _parse_received_payment (row : received_payment.row)
    : ReceivedPayment :=
  mkReceivedPayment
    (Some (received_payment.received_payment_id row))
    (Some (received_payment.created_time_ms row))
    (received_payment.squeak_hash row) (received_payment.payment_hash row)
    (received_payment.price_msat row) (received_payment.settle_index row)
    (mkPeerAddress (received_payment.peer_host row)
                   (received_payment.peer_port row)
                   (received_payment.peer_use_tor row)).

(** [SqueakDb.insert_received_payment].  [payment_hash] is UNIQUE; the
    [IntegrityError] is caught and the method returns [None]. *)
Definition insert_received_payment (now_ms : Z)
    (received_payment_ : ReceivedPayment) (t : PaymentTable)
    : PaymentTable * option Z :=
  if existsb (fun r => bytes_eqb (received_payment.payment_hash r)
                                 (rp_payment_hash received_payment_))
             (received_payments t)
  then (t, None)
  else
    let id := received_payment_seq t + 1 in
    let ins :=
      received_payment.mk id now_ms
        (rp_squeak_hash received_payment_)
        (rp_payment_hash received_payment_)
        (rp_price_msat received_payment_)
        (rp_settle_index received_payment_)
        (pa_host (rp_peer_address received_payment_))
        (pa_port (rp_peer_address received_payment_))
        (pa_use_tor (rp_peer_address received_payment_)) in
    (mkPaymentTable (received_payments t ++ [ins]) id, Some id).

(** SQL [max] over a column: NULL over no rows. *)
Fixpoint sql_max (l : list Z) : option Z :=
  match l with
  | [] => None
  | x :: l' =>
      match sql_max l' with
      | None => Some x
      | Some m => Some (Z.max x m)
      end
  end.

(** [SqueakDb.get_latest_settle_index]. *)
Definition get_latest_settle_index (t : PaymentTable) : option Z :=
  sql_max (map received_payment.settle_index (received_payments t)).

(** [SqueakDb.clear_received_payment_settle_indices]. *)
Definition clear_received_payment_settle_indices (t : PaymentTable)
    : PaymentTable :=
  mkPaymentTable
    (map (fun r =>
            received_payment.mk
              (received_payment.received_payment_id r)
              (received_payment.created_time_ms r)
              (received_payment.squeak_hash r)
              (received_payment.payment_hash r)
              (received_payment.price_msat r) 0
              (received_payment.peer_host r) (received_payment.peer_port r)
              (received_payment.peer_use_tor r))
         (received_payments t))
    (received_payment_seq t).

(** [ORDER BY received_payment_id ASC]. *)
Definition order_by_id_asc (l : list received_payment.row)
    : list received_payment.row :=
  order_by_desc (fun a b => b <? a) received_payment.received_payment_id l.

(** [SqueakDb.yield_received_payments_from_index]: the payments the
    generator yields, in order. *)
Definition yield_received_payments_from_index (start_index : Z)
    (t : PaymentTable) : list ReceivedPayment :=
  map _parse_received_payment
      (order_by_id_asc
         (filter (fun r => start_index <? received_payment.received_payment_id r)
                 (received_payments t))).

(** The id of a payment read back from the table. *)
Definition payment_id (p : ReceivedPayment) : Z :=
  match rp_received_payment_id p with Some i => i | None => 0 end.

(** ** More stores the properties are tried on *)

(** [sample_db] after Alice's squeak and Bob's reply were liked, at
    50 ms and at 60 ms. *)
Definition liked_db : Db :=
  set_squeak_liked 60 [x0b] (set_squeak_liked 50 [x0a] sample_db).

(** Alice's squeak row and Alice's and Bob's profile rows, as
    [sample_db] holds them. *)
Definition alice_row : squeak.row := nth 0 (squeaks sample_db) cutoff_squeak.

Definition alice_profile_row : profile.row :=
  nth 0 (profiles sample_db) (profile.mk 0 0 "" None "" false false 0 None).

Definition bob_profile_row : profile.row :=
  nth 1 (profiles sample_db) (profile.mk 0 0 "" None "" false false 0 None).

Definition carol_profile : SqueakProfile :=
  mkSqueakProfile None "carol" None "carol" false false 0 None.

Definition other_peer : SqueakPeer :=
  mkSqueakPeer None "other" (mkPeerAddress "other_host" 8555 true) true.

(** A received offer for Alice's squeak that expires at second 1600,
    and a store with it beside the one that expires at second 1060. *)
Definition lasting_received_offer : received_offer.row :=
  received_offer.mk 2 0 [x0a] [x35] [x33] [x34] 1000 600 1000 "lnbc"
                    "dest" "lnd_host" 9735 "fake_host" 5678 false false.

Definition two_offers_db : Db :=
  mkDb [] [] 0 [] 0 [sample_received_offer; lasting_received_offer] [].

(** * Properties *)

(** ** Equality tests *)

Lemma bytes_eqb_eq (a b : bytes) : bytes_eqb a b = true <-> a = b.
Proof.
  unfold bytes_eqb. destruct (bytes_eq_dec a b); split; congruence.
Qed.

Lemma bytes_eqb_neq (a b : bytes) : bytes_eqb a b = false <-> a <> b.
Proof.
  unfold bytes_eqb. destruct (bytes_eq_dec a b); split; congruence.
Qed.

Lemma bytes_eqb_refl (a : bytes) : bytes_eqb a a = true.
Proof. now apply bytes_eqb_eq. Qed.

(** ** Unlocking: key and plaintext travel together *)

Lemma consistent_update (h : bytes) (f : squeak.row -> squeak.row) (db : Db) :
  (forall s, unlock_consistent s -> unlock_consistent (f s)) ->
  squeaks_consistent db ->
  squeaks_consistent (update_squeak_where_hash h f db).
Proof.
  intros Hf Hdb. unfold squeaks_consistent in *. simpl.
  induction Hdb as [|s l Hs Hl IH]; simpl; constructor; auto.
  destruct (bytes_eqb (squeak.hash s) h); auto.
Qed.

Lemma consistent_filter (keep : squeak.row -> bool) (db : Db) :
  squeaks_consistent db ->
  squeaks_consistent (with_squeaks db (filter keep (squeaks db))).
Proof.
  unfold squeaks_consistent. simpl. rewrite !Forall_forall.
  intros H s Hs. apply filter_In in Hs. now apply H.
Qed.

Lemma consistent_insert_squeak get_hash now_ms sq hdr db :
  squeaks_consistent db ->
  squeaks_consistent (fst (insert_squeak get_hash now_ms sq hdr db)).
Proof.
  intros Hdb. unfold insert_squeak. simpl.
  destruct (existsb _ _); simpl; auto.
  unfold squeaks_consistent. simpl. apply Forall_app. split; auto.
  constructor; [|constructor].
  unfold unlock_consistent. simpl. split; congruence.
Qed.

Lemma run_op_consistent get_hash op db :
  squeaks_consistent db -> squeaks_consistent (run_op get_hash op db).
Proof.
  intros Hdb. destruct op; simpl.
  - now apply consistent_insert_squeak.
  - apply consistent_update; auto.
    intros s _. unfold unlock_consistent. simpl. split; congruence.
  - apply consistent_update; auto.
  - apply consistent_update; auto.
  - now apply consistent_filter.
  - unfold insert_profile. destruct (existsb _ _); simpl; auto.
  - exact Hdb.
  - exact Hdb.
  - unfold insert_peer. destruct (peer_host_port_taken _ _ _); simpl; auto.
  - exact Hdb.
  - exact Hdb.
  - exact Hdb.
Qed.

Lemma run_ops_consistent get_hash ops db :
  squeaks_consistent db -> squeaks_consistent (run_ops get_hash ops db).
Proof.
  unfold run_ops. revert db.
  induction ops as [|op ops IH]; simpl; intros db Hdb; auto.
  apply IH. now apply run_op_consistent.
Qed.

(** C1.  In a store where every squeak row has its secret key exactly
    when it has its plaintext, every write keeps it so, and so does any
    history of writes from the empty store.  [insert_squeak] keeps the
    rows there are and, for a hash not yet stored, adds one row under
    that hash with the columns of the squeak and with neither key nor
    plaintext; it adds no other row.
    [set_squeak_decryption_key] turns every row stored under the hash
    into one with the key and the plaintext given, both written by its
    one UPDATE and nothing else of the row changed, and leaves the rows
    under other hashes as they are. *)
Theorem secret_key_iff_content (get_hash : CSqueak -> bytes) (db : Db) :
  squeaks_consistent db ->
  (forall op, squeaks_consistent (run_op get_hash op db))
  /\ (forall ops, squeaks_consistent (run_ops get_hash ops empty_db))
  /\ (forall now_ms sq hdr s,
         In s (squeaks (fst (insert_squeak get_hash now_ms sq hdr db))) ->
         In s (squeaks db)
         \/ (squeak.hash s = get_hash sq
             /\ squeak.secret_key s = None /\ squeak.content s = None))
  /\ (forall h k c s,
         In s (squeaks (set_squeak_decryption_key h k c db)) ->
         (squeak.hash s = h
          /\ squeak.secret_key s = Some k /\ squeak.content s = Some c)
         \/ (squeak.hash s <> h /\ In s (squeaks db)))
  /\ (forall now_ms sq hdr,
         (forall s, In s (squeaks db) -> squeak.hash s <> get_hash sq) ->
         (exists s,
             In s (squeaks (fst (insert_squeak get_hash now_ms sq hdr db)))
             /\ squeak.hash s = get_hash sq
             /\ squeak.squeak s = serialize sq
             /\ squeak.secret_key s = None
             /\ squeak.content s = None
             /\ squeak.created_time_ms s = now_ms
             /\ squeak.hash_reply_sqk s
                = (if is_reply sq then Some (hashReplySqk sq) else None)
             /\ squeak.hash_block s = hashBlock sq
             /\ squeak.n_block_height s = nBlockHeight sq
             /\ squeak.n_time s = nTime sq
             /\ squeak.author_address s = GetAddress sq
             /\ squeak.block_time s = header_nTime hdr
             /\ squeak.liked_time_ms s = None)
         /\ List.length
              (squeaks (fst (insert_squeak get_hash now_ms sq hdr db)))
            = S (List.length (squeaks db)))
  /\ (forall now_ms sq hdr s,
         In s (squeaks db) ->
         In s (squeaks (fst (insert_squeak get_hash now_ms sq hdr db))))
  /\ (forall h k c s,
         In s (squeaks db) -> squeak.hash s = h ->
         exists s',
           In s' (squeaks (set_squeak_decryption_key h k c db))
           /\ squeak.hash s' = h
           /\ squeak.secret_key s' = Some k
           /\ squeak.content s' = Some c
           /\ squeak.squeak s' = squeak.squeak s
           /\ squeak.author_address s' = squeak.author_address s
           /\ squeak.liked_time_ms s' = squeak.liked_time_ms s
           /\ squeak.created_time_ms s' = squeak.created_time_ms s
           /\ squeak.hash_reply_sqk s' = squeak.hash_reply_sqk s
           /\ squeak.hash_block s' = squeak.hash_block s
           /\ squeak.n_block_height s' = squeak.n_block_height s
           /\ squeak.n_time s' = squeak.n_time s
           /\ squeak.block_time s' = squeak.block_time s)
  /\ (forall h k c s,
         In s (squeaks db) -> squeak.hash s <> h ->
         In s (squeaks (set_squeak_decryption_key h k c db)))
  /\ (forall h k c,
         List.length (squeaks (set_squeak_decryption_key h k c db))
         = List.length (squeaks db)).
Proof.
  intros Hdb.
  split; [|split; [|split; [|split; [|split; [|split; [|split; [|split]]]]]]].
  - intros op. now apply run_op_consistent.
  - intros ops. apply run_ops_consistent. constructor.
  - intros now_ms sq hdr s. unfold insert_squeak. simpl.
    destruct (existsb _ _); simpl; auto.
    rewrite in_app_iff. simpl. intros [H|[H|[]]]; auto.
    right. subst s. simpl. auto.
  - intros h k c s. simpl. rewrite in_map_iff.
    intros [s0 [Hs Hin]].
    destruct (bytes_eqb (squeak.hash s0) h) eqn:E.
    + left. subst s. simpl. apply bytes_eqb_eq in E. auto.
    + right. subst s. apply bytes_eqb_neq in E. auto.
  - intros now_ms sq hdr Hfresh. unfold insert_squeak.
    cbn [squeak.hash].
    destruct (existsb (fun s => bytes_eqb (squeak.hash s) (get_hash sq))
                      (squeaks db)) eqn:E.
    + exfalso. apply existsb_exists in E. destruct E as [s [Hs Hh]].
      apply bytes_eqb_eq in Hh. now apply (Hfresh s).
    + cbn [fst with_squeaks squeaks]. split.
      * eexists. split.
        -- apply in_or_app. right. left. reflexivity.
        -- cbn. repeat split.
      * rewrite length_app. simpl. lia.
  - intros now_ms sq hdr s Hs. unfold insert_squeak.
    destruct (existsb _ (squeaks db)); cbn [fst with_squeaks squeaks]; auto.
    apply in_or_app. now left.
  - intros h k c s Hs Hh.
    exists (set_secret_key_content (Some k) (Some c) s). split.
    + unfold set_squeak_decryption_key, update_squeak_where_hash.
      cbn [with_squeaks squeaks]. apply in_map_iff. exists s. split; auto.
      apply bytes_eqb_eq in Hh. now rewrite Hh.
    + cbn. repeat split. exact Hh.
  - intros h k c s Hs Hh.
    unfold set_squeak_decryption_key, update_squeak_where_hash.
    cbn [with_squeaks squeaks]. apply in_map_iff. exists s. split; auto.
    apply bytes_eqb_neq in Hh. now rewrite Hh.
  - intros h k c.
    unfold set_squeak_decryption_key, update_squeak_where_hash.
    cbn [with_squeaks squeaks]. apply length_map.
Qed.

(** ** Duplicate inserts *)

Lemma existsb_hash_iff (h : bytes) (l : list squeak.row) :
  existsb (fun s => bytes_eqb (squeak.hash s) h) l = true
  <-> exists s, In s l /\ squeak.hash s = h.
Proof.
  rewrite existsb_exists. split; intros [s [H1 H2]]; exists s; split; auto.
  - now apply bytes_eqb_eq.
  - now apply bytes_eqb_eq.
Qed.

Lemma insert_squeak_stored get_hash now_ms sq hdr db :
  (exists s, In s (squeaks db) /\ squeak.hash s = get_hash sq) ->
  insert_squeak get_hash now_ms sq hdr db = (db, None).
Proof.
  intros H. apply existsb_hash_iff in H. unfold insert_squeak. simpl.
  now rewrite H.
Qed.

(** C2.  The first [insert_squeak] of a squeak whose hash is not stored
    returns that hash and stores a row under it; from then on
    [insert_squeak] of it, at whatever time and with whatever header,
    returns [None] and leaves the store as the first insert left it.
    More generally an insert onto a stored hash returns [None] and
    changes nothing. *)
Theorem insert_squeak_idempotent (get_hash : CSqueak -> bytes)
    (now1 now2 : Z) (sq : CSqueak) (hdr1 hdr2 : CBlockHeader) (db : Db) :
  (forall s, In s (squeaks db) -> squeak.hash s <> get_hash sq) ->
  let db1 := fst (insert_squeak get_hash now1 sq hdr1 db) in
  snd (insert_squeak get_hash now1 sq hdr1 db) = Some (get_hash sq)
  /\ (exists s, In s (squeaks db1) /\ squeak.hash s = get_hash sq)
  /\ insert_squeak get_hash now2 sq hdr2 db1 = (db1, None)
  /\ (forall now sq' hdr d,
         (exists s, In s (squeaks d) /\ squeak.hash s = get_hash sq') ->
         insert_squeak get_hash now sq' hdr d = (d, None)).
Proof.
  intros Hfresh db1.
  assert (E : existsb (fun s => bytes_eqb (squeak.hash s) (get_hash sq))
                      (squeaks db) = false).
  { apply not_true_is_false. intros H. apply existsb_hash_iff in H.
    destruct H as [s [H1 H2]]. now apply (Hfresh s). }
  assert (Hin : exists s, In s (squeaks db1) /\ squeak.hash s = get_hash sq).
  { subst db1. unfold insert_squeak. simpl. rewrite E. simpl.
    eexists. split; [apply in_or_app; right; left; reflexivity|reflexivity]. }
  repeat split.
  - unfold insert_squeak. simpl. now rewrite E.
  - exact Hin.
  - now apply insert_squeak_stored.
  - intros. now apply insert_squeak_stored.
Qed.

(** ** Duplicate peers *)

(** C9.  [insert_peer] of a peer whose (host, port) is that of a stored
    peer raises [IntegrityError] to its caller and leaves the store, the
    peer table in particular, as it was. *)
Theorem insert_peer_duplicate (now_ms : Z) (squeak_peer : SqueakPeer)
    (db : Db) (p : peer.row) :
  In p (peers db) ->
  peer.host p = pa_host (sp_address squeak_peer) ->
  peer.port p = pa_port (sp_address squeak_peer) ->
  snd (insert_peer now_ms squeak_peer db) = inl IntegrityError
  /\ fst (insert_peer now_ms squeak_peer db) = db
  /\ peers (fst (insert_peer now_ms squeak_peer db)) = peers db.
Proof.
  intros Hin Hh Hp.
  assert (E : peer_host_port_taken (pa_host (sp_address squeak_peer))
                (pa_port (sp_address squeak_peer)) db = true).
  { unfold peer_host_port_taken. apply existsb_exists. exists p.
    split; auto. rewrite Hh, Hp, String.eqb_refl, Z.eqb_refl. reflexivity. }
  unfold insert_peer. rewrite E. simpl. auto.
Qed.

(** ** Offer expiry *)

Lemma Qlt_bool_iff (x y : Q) : Qlt_bool x y = true <-> (x < y)%Q.
Proof.
  unfold Qlt_bool. rewrite negb_true_iff. split.
  - intros H. apply Qnot_le_lt. intros Hle.
    apply Qle_bool_iff in Hle. congruence.
  - intros H. apply not_true_is_false. intros Hle.
    apply Qle_bool_iff in Hle. exact (Qlt_not_le _ _ H Hle).
Qed.

(** The clock in seconds has reached the second [t]: in milliseconds,
    [1000 * t <= now_ms]. *)
Lemma reached_iff_ms (now_ms t : Z) :
  (inject_Z t <= now_seconds now_ms)%Q <-> 1000 * t <= now_ms.
Proof.
  unfold Qle, now_seconds, inject_Z.
  change (t * 1000 <= now_ms * 1 <-> 1000 * t <= now_ms). lia.
Qed.

Lemma received_should_be_deleted_iff now_ms o :
  received_offer_should_be_deleted now_ms o = true
  <-> expired_at now_ms (received_offer.invoice_timestamp o)
                 (received_offer.invoice_expiry o).
Proof. unfold received_offer_should_be_deleted. apply Qle_bool_iff. Qed.

Lemma received_is_not_expired_iff now_ms o :
  received_offer_is_not_expired now_ms o = true
  <-> ~ expired_at now_ms (received_offer.invoice_timestamp o)
                   (received_offer.invoice_expiry o).
Proof.
  unfold received_offer_is_not_expired, expired_at.
  rewrite Qlt_bool_iff. split.
  - intros H Hle. exact (Qlt_not_le _ _ H Hle).
  - apply Qnot_le_lt.
Qed.

Lemma filter_split_length {A : Type} (f : A -> bool) (l : list A) :
  (List.length (filter f l)
   + List.length (filter (fun x => negb (f x)) l))%nat = List.length l.
Proof.
  induction l as [|x l IH]; simpl; auto.
  destruct (f x); simpl; lia.
Qed.

(** C5.  No offer returned by [get_received_offers] is expired, and
    every one is an unpaid stored offer for the hash asked for.  The
    sweep [delete_expired_received_offers] keeps exactly the stored
    offers that are not expired, in their order, counts the ones it
    removed, and touches no other table. *)
Theorem received_offers_expiry (now_ms : Z) (squeak_hash : bytes) (db : Db) :
  (forall o, In o (get_received_offers now_ms squeak_hash db) ->
     ~ expired_at now_ms (ro_invoice_timestamp o) (ro_invoice_expiry o)
     /\ exists r, In r (received_offers db)
                  /\ o = _parse_received_offer r
                  /\ received_offer.squeak_hash r = squeak_hash
                  /\ received_offer.paid r = false)
  /\ (forall r,
        In r (received_offers (fst (delete_expired_received_offers now_ms db)))
        <-> In r (received_offers db)
            /\ ~ expired_at now_ms (received_offer.invoice_timestamp r)
                            (received_offer.invoice_expiry r))
  /\ received_offers (fst (delete_expired_received_offers now_ms db))
     = filter (received_offer_is_not_expired now_ms) (received_offers db)
  /\ snd (delete_expired_received_offers now_ms db)
     = Z.of_nat (List.length (received_offers db))
       - Z.of_nat (List.length
           (received_offers (fst (delete_expired_received_offers now_ms db))))
  /\ squeaks (fst (delete_expired_received_offers now_ms db)) = squeaks db
  /\ sent_offers (fst (delete_expired_received_offers now_ms db))
     = sent_offers db.
Proof.
  repeat split.
  - unfold get_received_offers, get_received_offers_rows in H.
    apply in_map_iff in H. destruct H as [r [Hr Hin]].
    apply filter_In in Hin. destruct Hin as [_ Hf].
    apply andb_true_iff in Hf. destruct Hf as [_ Hf].
    apply received_is_not_expired_iff in Hf. subst o. exact Hf.
  - unfold get_received_offers, get_received_offers_rows in H.
    apply in_map_iff in H. destruct H as [r [Hr Hin]].
    apply filter_In in Hin. destruct Hin as [Hin Hf].
    apply andb_true_iff in Hf. destruct Hf as [Hf _].
    apply andb_true_iff in Hf. destruct Hf as [Hh Hp].
    exists r. repeat split; auto.
    + now apply bytes_eqb_eq.
    + unfold received_offer_is_not_paid in Hp.
      destruct (received_offer.paid r); [discriminate|reflexivity].
  - simpl in H. apply filter_In in H. tauto.
  - simpl in H. apply filter_In in H. destruct H as [_ H].
    apply negb_true_iff in H. intros He.
    apply received_should_be_deleted_iff in He. congruence.
  - intros [Hin Hne]. simpl. apply filter_In. split; auto.
    apply negb_true_iff. apply not_true_is_false. intros He.
    apply received_should_be_deleted_iff in He. contradiction.
  - simpl.
    pose proof (filter_split_length
                  (received_offer_should_be_deleted now_ms)
                  (received_offers db)) as H.
    lia.
Qed.

Lemma sent_should_be_deleted_iff now_ms g o :
  sent_offer_should_be_deleted now_ms g o = true
  <-> (inject_Z (sent_offer.invoice_timestamp o + sent_offer.invoice_expiry o
                 + g) <= now_seconds now_ms)%Q.
Proof. unfold sent_offer_should_be_deleted. apply Qle_bool_iff. Qed.

(** C6.  The sweep of sent offers with grace interval [g] removes a
    stored sent offer exactly when the clock has reached its timestamp
    plus expiry plus [g]; before that it stays, in particular while it
    is expired but within the grace period. *)
Theorem sent_offer_grace (now_ms g : Z) (db : Db) (r : sent_offer.row) :
  In r (sent_offers db) ->
  let db' := fst (delete_expired_sent_offers now_ms g db) in
  let deadline :=
    sent_offer.invoice_timestamp r + sent_offer.invoice_expiry r + g in
  (~ In r (sent_offers db') <-> (inject_Z deadline <= now_seconds now_ms)%Q)
  /\ (In r (sent_offers db') <-> (now_seconds now_ms < inject_Z deadline)%Q)
  /\ (expired_at now_ms (sent_offer.invoice_timestamp r)
                 (sent_offer.invoice_expiry r) ->
      (now_seconds now_ms < inject_Z deadline)%Q ->
      In r (sent_offers db'))
  /\ (forall r', In r' (sent_offers db') -> In r' (sent_offers db)).
Proof.
  intros Hin db' deadline.
  assert (Hkeep : In r (sent_offers db')
                  <-> (now_seconds now_ms < inject_Z deadline)%Q).
  { subst db'. simpl. rewrite filter_In, negb_true_iff. split.
    - intros [_ H]. apply Qnot_le_lt. intros Hle.
      apply sent_should_be_deleted_iff in Hle. congruence.
    - intros H. split; auto. apply not_true_is_false. intros Hd.
      apply sent_should_be_deleted_iff in Hd.
      exact (Qlt_not_le _ _ H Hd). }
  repeat split.
  - intros Hn. apply Qnot_lt_le. intros Hlt. apply Hn. now apply Hkeep.
  - intros Hle Hk. apply Hkeep in Hk. exact (Qlt_not_le _ _ Hk Hle).
  - apply Hkeep.
  - apply Hkeep.
  - intros _ Hlt. now apply Hkeep.
  - subst db'. simpl. intros r' H. apply filter_In in H. tauto.
Qed.

(** ** ORDER BY keeps the rows *)

Section OrderByFacts.
Context {A K : Type}.
Variable ltb : K -> K -> bool.
Variable key : A -> K.

Lemma insert_desc_perm (x : A) (l : list A) :
  Permutation (insert_desc ltb key x l) (x :: l).
Proof.
  induction l as [|y l IH]; simpl; auto.
  destruct (ltb (key x) (key y)); auto.
  rewrite IH. apply perm_swap.
Qed.

Lemma order_by_desc_perm (l : list A) :
  Permutation (order_by_desc ltb key l) l.
Proof.
  induction l as [|x l IH]; simpl; auto.
  rewrite insert_desc_perm. now constructor.
Qed.

Lemma order_by_desc_In (x : A) (l : list A) :
  In x (order_by_desc ltb key l) <-> In x l.
Proof.
  split; apply Permutation_in.
  - apply order_by_desc_perm.
  - symmetry. apply order_by_desc_perm.
Qed.
End OrderByFacts.

(** ** Lookup: a zero bound is no bound *)

Lemma In_if_filter {A : Type} (c : bool) (f : A -> bool) (l : list A) (x : A) :
  In x (if c then filter f l else l) <-> In x l /\ (c = true -> f x = true).
Proof.
  destruct c.
  - rewrite filter_In. intuition.
  - intuition discriminate.
Qed.

Lemma lookup_squeaks_In addresses min_block max_block reply_to_hash
    include_locked db h :
  In h (lookup_squeaks addresses min_block max_block reply_to_hash
                       include_locked db)
  <-> exists s, In s (squeaks db)
        /\ squeak.hash s = h
        /\ address_filter addresses s
        /\ (min_block <> 0 -> min_block <= squeak.n_block_height s)
        /\ (max_block <> 0 -> squeak.n_block_height s <= max_block)
        /\ reply_filter reply_to_hash s
        /\ locked_filter include_locked s.
Proof.
  unfold lookup_squeaks. rewrite in_map_iff.
  assert (Hmin : forall l (x : squeak.row),
            In x (if min_block =? 0 then l
                  else filter (fun r => min_block <=? squeak.n_block_height r) l)
            <-> In x l
                /\ (min_block <> 0 -> min_block <= squeak.n_block_height x)).
  { intros l x. destruct (Z.eqb_spec min_block 0).
    - intuition.
    - rewrite filter_In, Z.leb_le. intuition. }
  assert (Hmax : forall l (x : squeak.row),
            In x (if max_block =? 0 then l
                  else filter (fun r => squeak.n_block_height r <=? max_block) l)
            <-> In x l
                /\ (max_block <> 0 -> squeak.n_block_height x <= max_block)).
  { intros l x. destruct (Z.eqb_spec max_block 0).
    - intuition.
    - rewrite filter_In, Z.leb_le. intuition. }
  assert (Haddr : forall (x : squeak.row),
            In x (match addresses with
                  | [] => squeaks db
                  | _ :: _ =>
                      filter (fun r =>
                                existsb (String.eqb (squeak.author_address r))
                                        addresses) (squeaks db)
                  end)
            <-> In x (squeaks db) /\ address_filter addresses x).
  { intros x. unfold address_filter. destruct addresses as [|a l].
    - intuition.
    - rewrite filter_In, existsb_exists. split.
      + intros [Hin [y [Hy He]]]. apply String.eqb_eq in He. subst y. auto.
      + intros [Hin [Hnil|Hy]]; [discriminate|]. split; auto.
        exists (squeak.author_address x). split; auto.
        apply String.eqb_refl. }
  assert (Hrep : forall (x : squeak.row),
            (truthy_bytes reply_to_hash = true ->
             match squeak.hash_reply_sqk x, reply_to_hash with
             | Some a, Some b => bytes_eqb a b
             | _, _ => false
             end = true)
            <-> reply_filter reply_to_hash x).
  { intros x. unfold reply_filter.
    destruct (truthy_bytes reply_to_hash) eqn:Et.
    - split.
      + intros H. specialize (H eq_refl). right.
        destruct (squeak.hash_reply_sqk x), reply_to_hash; try discriminate.
        apply bytes_eqb_eq in H. now subst.
      + intros [H|H]; [discriminate|]. intros _. rewrite H.
        destruct reply_to_hash; [apply bytes_eqb_refl|discriminate].
    - split; auto. intros _ H. discriminate. }
  assert (Hlock : forall (x : squeak.row),
            (negb include_locked = true -> squeak_has_secret_key x = true)
            <-> locked_filter include_locked x).
  { intros x. unfold locked_filter, squeak_has_secret_key.
    destruct include_locked; simpl.
    - split; auto. intros _ H. discriminate.
    - destruct (squeak.secret_key x); split.
      + intros _. right. discriminate.
      + intros _ _. reflexivity.
      + intros H. specialize (H eq_refl). discriminate.
      + intros [H|H] _; [discriminate | now contradiction H]. }
  split.
  - intros [s [Hh Hin]]. apply order_by_desc_In in Hin.
    apply In_if_filter in Hin. destruct Hin as [Hin Hl].
    apply In_if_filter in Hin. destruct Hin as [Hin Hr].
    apply Hmax in Hin. destruct Hin as [Hin Hmx].
    apply Hmin in Hin. destruct Hin as [Hin Hmn].
    apply Haddr in Hin. destruct Hin as [Hin Ha].
    exists s. repeat split; auto.
    + now apply Hrep.
    + now apply Hlock.
  - intros [s [Hin [Hh [Ha [Hmn [Hmx [Hr Hl]]]]]]].
    exists s. split; auto. apply order_by_desc_In.
    apply In_if_filter. split; [|now apply Hlock].
    apply In_if_filter. split; [|now apply Hrep].
    apply Hmax. split; auto. apply Hmin. split; auto.
    apply Haddr. auto.
Qed.

(** C10.  With [min_block = 0] the result of [lookup_squeaks] is the
    hashes of the stored squeaks passing the other filters, whatever
    their block height is against a lower bound; likewise
    [max_block = 0] sets no upper bound.  So a squeak passing the
    address, reply and lock filters is returned at every height when
    both are zero. *)
Theorem lookup_squeaks_zero_is_unbounded (addresses : list string)
    (min_block max_block : Z) (reply_to_hash : option bytes)
    (include_locked : bool) (db : Db) (h : bytes) :
  (In h (lookup_squeaks addresses 0 max_block reply_to_hash include_locked db)
   <-> exists s, In s (squeaks db)
         /\ squeak.hash s = h
         /\ address_filter addresses s
         /\ (max_block <> 0 -> squeak.n_block_height s <= max_block)
         /\ reply_filter reply_to_hash s
         /\ locked_filter include_locked s)
  /\ (In h (lookup_squeaks addresses min_block 0 reply_to_hash
                           include_locked db)
      <-> exists s, In s (squeaks db)
            /\ squeak.hash s = h
            /\ address_filter addresses s
            /\ (min_block <> 0 -> min_block <= squeak.n_block_height s)
            /\ reply_filter reply_to_hash s
            /\ locked_filter include_locked s)
  /\ (In h (lookup_squeaks addresses 0 0 reply_to_hash include_locked db)
      <-> exists s, In s (squeaks db)
            /\ squeak.hash s = h
            /\ address_filter addresses s
            /\ reply_filter reply_to_hash s
            /\ locked_filter include_locked s).
Proof.
  rewrite !lookup_squeaks_In.
  repeat split.
  - intros [s H]. exists s. tauto.
  - intros [s H]. exists s. intuition.
  - intros [s H]. exists s. tauto.
  - intros [s H]. exists s. intuition.
  - intros [s H]. exists s. tauto.
  - intros [s H]. exists s. intuition.
Qed.

(** ** The join with profiles *)

Lemma NoDup_map_inj {A B : Type} (f : A -> B) (l : list A) (a b : A) :
  NoDup (map f l) -> In a l -> In b l -> f a = f b -> a = b.
Proof.
  induction l as [|x l IH]; simpl; intros Hnd Ha Hb Hf; [contradiction|].
  inversion Hnd as [|y m Hx Hl]; subst.
  destruct Ha as [Ha|Ha], Hb as [Hb|Hb]; subst; auto.
  - exfalso. apply Hx. rewrite Hf. now apply in_map.
  - exfalso. apply Hx. rewrite <- Hf. now apply in_map.
Qed.

Lemma outerjoin_profiles_In (db : Db) (s s' : squeak.row)
    (op : option profile.row) :
  In (s', op) (outerjoin_profiles db s)
  <-> s' = s
      /\ match op with
         | Some p => In p (profiles db)
                     /\ profile.address p = squeak.author_address s
         | None => forall p, In p (profiles db) ->
                             profile.address p <> squeak.author_address s
         end.
Proof.
  unfold outerjoin_profiles.
  destruct (filter _ (profiles db)) as [|p0 ps] eqn:E.
  - simpl. split.
    + intros [H|[]]. inversion H; subst. split; auto.
      intros p Hp Ha.
      assert (Hin : In p []).
      { rewrite <- E. apply filter_In. split; auto.
        now apply String.eqb_eq. }
      contradiction.
    + intros [Hs H]. subst s'. destruct op as [p|]; auto.
      destruct H as [Hp Ha].
      assert (Hin : In p []).
      { rewrite <- E. apply filter_In. split; auto.
        now apply String.eqb_eq. }
      contradiction.
  - rewrite in_map_iff. split.
    + intros [p [Hp Hin]]. inversion Hp; subst. split; auto.
      rewrite <- E in Hin. apply filter_In in Hin.
      destruct Hin as [Hin Ha]. apply String.eqb_eq in Ha. auto.
    + intros [Hs H]. subst s'. destruct op as [p|].
      * destruct H as [Hp Ha]. exists p. split; auto.
        rewrite <- E. apply filter_In. split; auto.
        now apply String.eqb_eq.
      * exfalso.
        assert (Hin : In p0 (p0 :: ps)) by now left.
        rewrite <- E in Hin. apply filter_In in Hin.
        destruct Hin as [Hin Ha]. apply String.eqb_eq in Ha.
        exact (H p0 Hin Ha).
Qed.

Lemma joined_In (db : Db) (s : squeak.row) (op : option profile.row) :
  In (s, op) (squeaks_outerjoin_profiles db)
  <-> In s (squeaks db)
      /\ match op with
         | Some p => In p (profiles db)
                     /\ profile.address p = squeak.author_address s
         | None => forall p, In p (profiles db) ->
                             profile.address p <> squeak.author_address s
         end.
Proof.
  unfold squeaks_outerjoin_profiles. rewrite in_flat_map. split.
  - intros [s0 [Hin H]]. apply outerjoin_profiles_In in H.
    destruct H as [Hs H]. subst s0. auto.
  - intros [Hin H]. exists s. split; auto.
    apply outerjoin_profiles_In. auto.
Qed.

(** Every squeak row has at least one row in the join. *)
Lemma joined_total (db : Db) (s : squeak.row) :
  In s (squeaks db) ->
  exists op, In (s, op) (squeaks_outerjoin_profiles db).
Proof.
  intros Hin. unfold squeaks_outerjoin_profiles.
  destruct (outerjoin_profiles db s) as [|[s' op] l] eqn:E.
  - unfold outerjoin_profiles in E.
    destruct (filter _ (profiles db)); discriminate.
  - assert (H : In (s', op) (outerjoin_profiles db s))
      by (rewrite E; now left).
    pose proof H as H'. apply outerjoin_profiles_In in H'.
    destruct H' as [Hs _]. subst s'.
    exists op. apply in_flat_map. exists s. auto.
Qed.

(** ** Retention *)

(** With a retention of 1 s and the clock at 1000 ms, [cutoff_squeak]
    satisfies [created_time_ms + 1 * 1000 <= now], is not liked and has
    no locally owned author, and is not selected. *)
Lemma retention_boundary_not_selected :
  In cutoff_squeak (squeaks cutoff_db)
  /\ squeak.created_time_ms cutoff_squeak + 1 * 1000 <= 1000
  /\ squeak.liked_time_ms cutoff_squeak = None
  /\ ~ locally_owned cutoff_db cutoff_squeak
  /\ ~ In (squeak.hash cutoff_squeak)
         (get_old_squeaks_to_delete 1000 1 cutoff_db).
Proof.
  split; [left; reflexivity|].
  split; [simpl; lia|]. split; [reflexivity|]. split.
  - intros [p [[] _]].
  - vm_compute. tauto.
Qed.

(** C4, amended.  In a store satisfying its uniqueness constraints, the
    retention sweep selects exactly the squeaks with
    [created_time_ms + I * 1000 < now] that are not liked and whose
    author has no locally owned profile; a squeak of a locally owned
    profile is never selected, whatever its age. *)
Theorem old_squeaks_to_delete_exact (now_ms interval_s : Z) (db : Db) :
  wf_db db ->
  (forall h,
      In h (get_old_squeaks_to_delete now_ms interval_s db)
      <-> exists s, In s (squeaks db)
            /\ squeak.hash s = h
            /\ squeak.created_time_ms s + interval_s * 1000 < now_ms
            /\ squeak.liked_time_ms s = None
            /\ ~ locally_owned db s)
  /\ (forall s, In s (squeaks db) -> locally_owned db s ->
        ~ In (squeak.hash s) (get_old_squeaks_to_delete now_ms interval_s db)).
Proof.
  intros [Hsq Hpr].
  assert (Hiff : forall h,
      In h (get_old_squeaks_to_delete now_ms interval_s db)
      <-> exists s, In s (squeaks db)
            /\ squeak.hash s = h
            /\ squeak.created_time_ms s + interval_s * 1000 < now_ms
            /\ squeak.liked_time_ms s = None
            /\ ~ locally_owned db s).
  { intros h. unfold get_old_squeaks_to_delete. rewrite in_map_iff. split.
    - intros [[s op] [Hh Hin]]. simpl in Hh.
      apply filter_In in Hin. destruct Hin as [Hin Hf]. simpl in Hf.
      apply andb_true_iff in Hf. destruct Hf as [Hf Hlk].
      apply andb_true_iff in Hf. destruct Hf as [Hold Hkey].
      apply joined_In in Hin. destruct Hin as [Hs Hop].
      exists s. repeat split; auto.
      + unfold squeak_is_older_than_retention in Hold. lia.
      + unfold squeak_is_not_liked in Hlk.
        destruct (squeak.liked_time_ms s); [discriminate|reflexivity].
      + intros [p [Hp [Ha Hk]]].
        unfold profile_has_no_private_key in Hkey. simpl in Hkey.
        destruct op as [q|].
        * destruct Hop as [Hq Hqa].
          assert (q = p).
          { apply (NoDup_map_inj profile.address (profiles db)); auto.
            congruence. }
          subst q. destruct (profile.private_key p);
            [discriminate | now apply Hk].
        * exact (Hop p Hp Ha).
    - intros [s [Hs [Hh [Hold [Hlk Hown]]]]].
      destruct (joined_total db s Hs) as [op Hin].
      exists (s, op). split; auto.
      apply filter_In. split; auto. simpl.
      apply andb_true_iff. split; [apply andb_true_iff; split|].
      + unfold squeak_is_older_than_retention. lia.
      + unfold profile_has_no_private_key. simpl.
        destruct op as [q|]; auto.
        apply joined_In in Hin. destruct Hin as [_ [Hq Hqa]].
        destruct (profile.private_key q) eqn:Ek; auto.
        exfalso. apply Hown. exists q. repeat split; auto. congruence.
      + unfold squeak_is_not_liked. now rewrite Hlk. }
  split; auto.
  intros s Hs Hown Hin. apply Hiff in Hin.
  destruct Hin as [s' [Hs' [Hh [_ [_ Hn]]]]].
  assert (s' = s) by (apply (NoDup_map_inj squeak.hash (squeaks db)); auto).
  subst s'. contradiction.
Qed.

(** ** The row-value order is a strict total order *)

Lemma byte_compare_eq (a b : byte) : byte_compare a b = Eq -> a = b.
Proof.
  unfold byte_compare. intros H. apply N.compare_eq in H.
  assert (E : Byte.of_N (Byte.to_N a) = Byte.of_N (Byte.to_N b))
    by now rewrite H.
  rewrite !Byte.of_to_N in E. congruence.
Qed.

Lemma byte_compare_refl (a : byte) : byte_compare a a = Eq.
Proof. apply N.compare_refl. Qed.

Lemma bytes_compare_eq (a b : bytes) : bytes_compare a b = Eq -> a = b.
Proof.
  revert b. induction a as [|x a IH]; intros [|y b]; simpl;
    try discriminate; auto.
  destruct (byte_compare x y) eqn:E; try discriminate.
  intros H. apply byte_compare_eq in E. f_equal; auto.
Qed.

Lemma bytes_compare_refl (a : bytes) : bytes_compare a a = Eq.
Proof.
  induction a as [|x a IH]; simpl; auto. now rewrite byte_compare_refl.
Qed.

Lemma bytes_compare_antisym (a b : bytes) :
  bytes_compare b a = CompOpp (bytes_compare a b).
Proof.
  revert b. induction a as [|x a IH]; intros [|y b]; simpl; auto.
  unfold byte_compare. rewrite (N.compare_antisym (Byte.to_N x) (Byte.to_N y)).
  destruct (Byte.to_N x ?= Byte.to_N y)%N; simpl; auto.
Qed.

Lemma bytes_compare_trans (a b c : bytes) :
  bytes_compare a b = Lt -> bytes_compare b c = Lt -> bytes_compare a c = Lt.
Proof.
  revert b c.
  induction a as [|x a IH]; intros [|y b] [|z c]; simpl;
    try discriminate; auto.
  destruct (byte_compare x y) eqn:Exy; try discriminate;
    destruct (byte_compare y z) eqn:Eyz; try discriminate; intros H1 H2.
  - apply byte_compare_eq in Exy, Eyz. subst.
    rewrite byte_compare_refl. eauto.
  - apply byte_compare_eq in Exy. subst. now rewrite Eyz.
  - apply byte_compare_eq in Eyz. subst. now rewrite Exy.
  - unfold byte_compare in *. rewrite N.compare_lt_iff in *.
    assert (Hxz : (Byte.to_N x < Byte.to_N z)%N) by lia.
    apply N.compare_lt_iff in Hxz. now rewrite Hxz.
Qed.

Lemma key_compare_eq (a b : sort_key) : key_compare a b = Eq -> a = b.
Proof.
  destruct a as [[a1 a2] a3], b as [[b1 b2] b3]. simpl.
  destruct (Z.compare_spec a1 b1); try discriminate.
  destruct (Z.compare_spec a2 b2); try discriminate.
  intros Hb. apply bytes_compare_eq in Hb. congruence.
Qed.

Lemma key_lt_irrefl (a : sort_key) : ~ key_lt a a.
Proof.
  destruct a as [[a1 a2] a3]. unfold key_lt. simpl.
  rewrite !Z.compare_refl, bytes_compare_refl. discriminate.
Qed.

Lemma key_lt_spec (a1 a2 : Z) (a3 : bytes) (b1 b2 : Z) (b3 : bytes) :
  key_lt (a1, a2, a3) (b1, b2, b3)
  <-> a1 < b1
      \/ (a1 = b1 /\ (a2 < b2 \/ (a2 = b2 /\ bytes_compare a3 b3 = Lt))).
Proof.
  unfold key_lt. simpl.
  destruct (Z.compare_spec a1 b1) as [E1|L1|G1];
    [destruct (Z.compare_spec a2 b2) as [E2|L2|G2]|..];
    split; intros Hx; try discriminate; try reflexivity;
    intuition (try lia; try discriminate; try congruence).
Qed.

Lemma key_lt_trans (a b c : sort_key) :
  key_lt a b -> key_lt b c -> key_lt a c.
Proof.
  destruct a as [[a1 a2] a3], b as [[b1 b2] b3], c as [[c1 c2] c3].
  rewrite !key_lt_spec.
  intros [H1|[E1 [H2|[E2 H3]]]] [K1|[F1 [K2|[F2 K3]]]]; subst;
    try (left; lia); try (right; split; [reflexivity|left; lia]).
  right. split; auto. right. split; auto.
  eapply bytes_compare_trans; eauto.
Qed.

Lemma key_compare_antisym (a b : sort_key) :
  key_compare b a = CompOpp (key_compare a b).
Proof.
  destruct a as [[a1 a2] a3], b as [[b1 b2] b3]. simpl.
  rewrite (Z.compare_antisym a1 b1), (Z.compare_antisym a2 b2),
    (bytes_compare_antisym a3 b3).
  destruct (a1 ?= b1); simpl; auto.
  destruct (a2 ?= b2); simpl; auto.
Qed.

Lemma key_ltb_lt (a b : sort_key) : key_ltb a b = true <-> key_lt a b.
Proof.
  unfold key_ltb, key_lt. destruct (key_compare a b); split;
    congruence.
Qed.

(** Trichotomy: what is not below is equal or above. *)
Lemma key_ltb_false (a b : sort_key) :
  key_ltb a b = false -> a = b \/ key_lt b a.
Proof.
  unfold key_ltb, key_lt. rewrite (key_compare_antisym a b).
  destruct (key_compare a b) eqn:E; try discriminate; intros _.
  - left. now apply key_compare_eq.
  - right. reflexivity.
Qed.

(** ** ORDER BY sorts rows with distinct keys strictly *)

Lemma In_firstn {A : Type} (n : nat) (l : list A) (x : A) :
  In x (firstn n l) -> In x l.
Proof.
  revert l. induction n as [|n IH]; intros [|y l]; simpl;
    intros H; try contradiction.
  destruct H as [H|H]; auto.
Qed.

Section Sorting.
Context {A : Type}.
Variable key : A -> sort_key.

Lemma insert_desc_sorted (x : A) (l : list A) :
  ~ In (key x) (map key l) ->
  StronglySorted (before key) l ->
  StronglySorted (before key) (insert_desc key_ltb key x l).
Proof.
  intros Hx Hs. induction Hs as [|y l Hs IH Hy]; simpl.
  - repeat constructor.
  - simpl in Hx.
    destruct (key_ltb (key x) (key y)) eqn:E.
    + constructor.
      * apply IH. tauto.
      * apply Forall_forall. intros z Hz.
        apply (Permutation_in _ (insert_desc_perm key_ltb key x l)) in Hz.
        destruct Hz as [Hz|Hz].
        -- subst z. now apply key_ltb_lt.
        -- rewrite Forall_forall in Hy. now apply Hy.
    + assert (Hyx : before key x y).
      { apply key_ltb_false in E. destruct E as [E|E]; auto.
        exfalso. apply Hx. left. now symmetry. }
      constructor.
      * constructor; auto.
      * constructor; auto.
        rewrite Forall_forall in *. intros z Hz.
        unfold before in *. eapply key_lt_trans; eauto.
Qed.

Lemma order_by_desc_sorted (l : list A) :
  NoDup (map key l) ->
  StronglySorted (before key) (order_by_desc key_ltb key l).
Proof.
  induction l as [|x l IH]; simpl; intros Hnd.
  - constructor.
  - inversion Hnd as [|k m Hx Hl]; subst.
    apply insert_desc_sorted; auto.
    intros Hin. apply Hx.
    apply in_map_iff in Hin. destruct Hin as [z [Hk Hz]].
    apply order_by_desc_In in Hz.
    apply in_map_iff. eauto.
Qed.

Lemma sorted_firstn (n : nat) (l : list A) :
  StronglySorted (before key) l -> StronglySorted (before key) (firstn n l).
Proof.
  revert l. induction n as [|n IH]; intros l Hs; simpl.
  - constructor.
  - destruct Hs as [|x l Hs Hx]; constructor; auto.
    rewrite Forall_forall in *. intros z Hz. apply Hx.
    now apply (In_firstn n).
Qed.

Lemma sorted_app (l1 l2 : list A) :
  StronglySorted (before key) l1 -> StronglySorted (before key) l2 ->
  (forall a b, In a l1 -> In b l2 -> before key a b) ->
  StronglySorted (before key) (l1 ++ l2).
Proof.
  intros H1 H2 H. induction H1 as [|x l Hs IH Hx]; simpl; auto.
  constructor.
  - apply IH. intros a b Ha Hb. apply H; auto. now right.
  - apply Forall_app. split; auto.
    apply Forall_forall. intros b Hb. apply H; auto. now left.
Qed.

Lemma sorted_NoDup {B : Type} (f : A -> B) (l : list A) :
  StronglySorted (before key) l ->
  (forall a b, In a l -> In b l -> f a = f b -> key a = key b) ->
  NoDup (map f l).
Proof.
  intros Hs. induction Hs as [|x l Hs IH Hx]; simpl; intros Hf.
  - constructor.
  - constructor.
    + intros Hin. apply in_map_iff in Hin. destruct Hin as [z [Hz Hzl]].
      rewrite Forall_forall in Hx. specialize (Hx z Hzl).
      unfold before in Hx.
      assert (E : key z = key x) by (apply Hf; simpl; auto).
      rewrite E in Hx. exact (key_lt_irrefl _ Hx).
    + apply IH. intros a b Ha Hb. apply Hf; now right.
Qed.
End Sorting.

Lemma sorted_map {A B : Type} (ka : A -> sort_key) (kb : B -> sort_key)
    (f : A -> B) (l : list A) :
  (forall a, kb (f a) = ka a) ->
  StronglySorted (before ka) l -> StronglySorted (before kb) (map f l).
Proof.
  intros Hk Hs. induction Hs as [|x l Hs IH Hx]; simpl; constructor; auto.
  rewrite Forall_forall in *. intros b Hb.
  apply in_map_iff in Hb. destruct Hb as [a [Hb Ha]]. subst b.
  unfold before. rewrite !Hk. now apply Hx.
Qed.

(** ** The join has one row per squeak *)

Lemma filter_address_unique (l : list profile.row) (a : string) :
  NoDup (map profile.address l) ->
  (List.length (filter (fun p => String.eqb (profile.address p) a) l) <= 1)%nat.
Proof.
  induction l as [|x l IH]; simpl; intros Hnd; [lia|].
  inversion Hnd as [|y m Hx Hl]; subst.
  destruct (String.eqb_spec (profile.address x) a) as [E|E]; auto.
  simpl.
  assert (Hnil : filter (fun p => String.eqb (profile.address p) a) l = []).
  { destruct (filter _ l) as [|z zs] eqn:Ef; auto.
    exfalso. apply Hx.
    assert (Hz : In z (z :: zs)) by now left.
    rewrite <- Ef in Hz. apply filter_In in Hz. destruct Hz as [Hz Ha].
    apply String.eqb_eq in Ha. rewrite E, <- Ha. now apply in_map. }
  rewrite Hnil. simpl. lia.
Qed.

Lemma outerjoin_profiles_single (db : Db) (s : squeak.row) :
  NoDup (map profile.address (profiles db)) ->
  exists op, outerjoin_profiles db s = [(s, op)].
Proof.
  intros Hnd.
  pose proof (filter_address_unique (profiles db) (squeak.author_address s)
                Hnd) as Hlen.
  unfold outerjoin_profiles.
  destruct (filter _ (profiles db)) as [|p [|q ps]]; simpl in *.
  - now exists None.
  - now exists (Some p).
  - lia.
Qed.

Lemma map_fst_joined (db : Db) :
  NoDup (map profile.address (profiles db)) ->
  map fst (squeaks_outerjoin_profiles db) = squeaks db.
Proof.
  intros Hnd. unfold squeaks_outerjoin_profiles.
  induction (squeaks db) as [|s l IH]; [reflexivity|].
  change (flat_map (outerjoin_profiles db) (s :: l))
    with (outerjoin_profiles db s ++ flat_map (outerjoin_profiles db) l).
  rewrite map_app, IH.
  destruct (outerjoin_profiles_single db s Hnd) as [op E].
  now rewrite E.
Qed.

Lemma NoDup_map_outer {A B C : Type} (f : A -> B) (g : B -> C) (l : list A) :
  NoDup (map (fun x => g (f x)) l) -> NoDup (map f l).
Proof.
  induction l as [|x l IH]; simpl; intros Hnd; [constructor|].
  inversion Hnd as [|y m Hx Hl]; subst. constructor; auto.
  intros Hin. apply Hx. apply in_map_iff in Hin.
  destruct Hin as [z [Hz Hzl]]. apply in_map_iff. exists z. split; auto.
  now rewrite Hz.
Qed.

Lemma NoDup_map_filter {K R : Type} (key : R -> K) (keep : R -> bool)
    (rows : list R) :
  NoDup (map key rows) -> NoDup (map key (filter keep rows)).
Proof.
  intros Hnd. induction rows as [|x l IH]; simpl; [constructor|].
  simpl in Hnd. inversion Hnd as [|y m Hx Hl]; subst.
  destruct (keep x); simpl; auto. constructor; auto.
  intros Hin. apply Hx. apply in_map_iff in Hin.
  destruct Hin as [z [Hz Hzl]]. apply filter_In in Hzl.
  apply in_map_iff. exists z. tauto.
Qed.

Lemma joined_keys_NoDup (db : Db) :
  wf_db db ->
  NoDup (map (fun r : joined => row_key (fst r))
             (squeaks_outerjoin_profiles db)).
Proof.
  intros [Hsq Hpr].
  rewrite <- (map_map fst row_key), (map_fst_joined db Hpr).
  apply (NoDup_map_outer row_key snd). exact Hsq.
Qed.

(** ** Pages of a listing *)

Lemma entry_key_parse (r : joined) :
  entry_key (_parse_squeak_entry r) = row_key (fst r).
Proof. reflexivity. Qed.

Lemma select_page_In (where_ : joined -> bool) limit last_entry db r :
  In r (select_page where_ limit last_entry db) ->
  In r (squeaks_outerjoin_profiles db)
  /\ where_ r = true
  /\ key_lt (row_key (fst r)) (last_key last_entry).
Proof.
  unfold select_page. intros H. apply In_firstn in H.
  apply order_by_desc_In in H. apply filter_In in H.
  destruct H as [Hin Hf]. apply andb_true_iff in Hf.
  destruct Hf as [Hw Hk]. apply key_ltb_lt in Hk. auto.
Qed.

Lemma select_page_sorted (where_ : joined -> bool) limit last_entry db :
  wf_db db ->
  StronglySorted (before (fun r : joined => row_key (fst r)))
                 (select_page where_ limit last_entry db).
Proof.
  intros Hwf. unfold select_page.
  apply sorted_firstn. apply order_by_desc_sorted.
  apply NoDup_map_filter. now apply joined_keys_NoDup.
Qed.

Lemma firstn_length_le {A : Type} (n : nat) (l : list A) :
  (List.length (firstn n l) <= n)%nat.
Proof.
  revert l. induction n as [|n IH]; intros [|x l]; simpl; try lia.
  specialize (IH l). lia.
Qed.

Lemma sorted_last {A : Type} (R : A -> A -> Prop) (l : list A) (e a : A) :
  StronglySorted R (l ++ [e]) -> In a l -> R a e.
Proof.
  induction l as [|x l IH]; simpl; intros Hs Ha; [contradiction|].
  inversion Hs as [|y m Hm Hy]; subst.
  destruct Ha as [Ha|Ha]; auto.
  subst x. rewrite Forall_forall in Hy. apply Hy.
  apply in_or_app. right. now left.
Qed.

(** What a page of any of the keyset listings satisfies. *)
Lemma page_properties (where_ : joined -> bool) (limit : nat)
    (last_entry : option SqueakEntry) (db : Db) :
  wf_db db ->
  let page := map _parse_squeak_entry
                  (select_page where_ limit last_entry db) in
  (forall e, In e page ->
     exists s op, In (s, op) (squeaks_outerjoin_profiles db)
       /\ where_ (s, op) = true
       /\ e = _parse_squeak_entry (s, op)
       /\ key_lt (entry_key e) (last_key last_entry))
  /\ StronglySorted (before entry_key) page
  /\ (List.length page <= limit)%nat.
Proof.
  intros Hwf page. subst page. repeat split.
  - intros e He. apply in_map_iff in He. destruct He as [[s op] [He Hin]].
    apply select_page_In in Hin. destruct Hin as [Hin [Hw Hk]].
    exists s, op. subst e. auto.
  - apply (sorted_map (fun r : joined => row_key (fst r))).
    + apply entry_key_parse.
    + now apply select_page_sorted.
  - rewrite length_map. unfold select_page. apply firstn_length_le.
Qed.

(** Two successive pages of a listing, the second asked for with the
    last entry of the first. *)
Lemma successive_pages (where_ : joined -> bool) (limit limit2 : nat)
    (last_entry : option SqueakEntry) (db : Db)
    (front : list SqueakEntry) (e : SqueakEntry) :
  wf_db db ->
  map _parse_squeak_entry (select_page where_ limit last_entry db)
  = front ++ [e] ->
  let both :=
    map _parse_squeak_entry (select_page where_ limit last_entry db)
    ++ map _parse_squeak_entry (select_page where_ limit2 (Some e) db) in
  StronglySorted (before entry_key) both
  /\ NoDup (map squeak_hash both)
  /\ NoDup both.
Proof.
  intros Hwf Hpage both.
  destruct (page_properties where_ limit last_entry db Hwf)
    as [Hin1 [Hs1 _]].
  destruct (page_properties where_ limit2 (Some e) db Hwf)
    as [Hin2 [Hs2 _]].
  assert (Hsorted : StronglySorted (before entry_key) both).
  { subst both. apply sorted_app; auto.
    intros a b Ha Hb.
    destruct (Hin2 b Hb) as [s [op [_ [_ [_ Hk]]]]].
    simpl in Hk. fold (entry_key e) in Hk.
    rewrite Hpage in Ha, Hs1. apply in_app_or in Ha.
    destruct Ha as [Ha|[Ha|[]]].
    - unfold before. eapply key_lt_trans; [exact Hk|].
      exact (sorted_last _ _ _ _ Hs1 Ha).
    - subst a. exact Hk. }
  assert (Hsrc : forall a, In a both ->
            exists s, In s (squeaks db)
                      /\ squeak_hash a = squeak.hash s
                      /\ entry_key a = row_key s).
  { intros a Ha. subst both. apply in_app_or in Ha.
    destruct Ha as [Ha|Ha];
      [destruct (Hin1 a Ha) as [s [op [Hj [_ [He _]]]]]
      |destruct (Hin2 a Ha) as [s [op [Hj [_ [He _]]]]]];
      apply joined_In in Hj; destruct Hj as [Hs _];
      exists s; subst a; auto. }
  assert (Hhash : NoDup (map squeak_hash both)).
  { apply (sorted_NoDup entry_key); auto.
    intros a b Ha Hb Hab.
    destruct (Hsrc a Ha) as [sa [Hsa [Hha Hka]]].
    destruct (Hsrc b Hb) as [sb [Hsb [Hhb Hkb]]].
    destruct Hwf as [Hsq _].
    assert (sa = sb).
    { apply (NoDup_map_inj squeak.hash (squeaks db)); auto. congruence. }
    congruence. }
  repeat split; auto.
  apply (NoDup_map_inv squeak_hash). exact Hhash.
Qed.

(** C3.  In a store satisfying its uniqueness constraints, every entry
    of a timeline page is a stored squeak joined with the profile of
    its author, which is marked following, and has its
    (block_height, squeak_time, hash) strictly below that of the last
    entry passed in (below the [MAX_*] bound when none is).  The page
    is strictly decreasing in that triple and has at most [limit]
    entries.  A page followed by the page asked for with its last
    entry is again strictly decreasing, so no entry and no hash occurs
    twice. *)
Theorem timeline_keyset_pagination (limit : nat)
    (last_entry : option SqueakEntry) (db : Db) :
  wf_db db ->
  let page := get_timeline_squeak_entries limit last_entry db in
  (forall e, In e page ->
     exists s p, In s (squeaks db)
       /\ In p (profiles db)
       /\ profile.address p = squeak.author_address s
       /\ profile.following p = true
       /\ e = _parse_squeak_entry (s, Some p)
       /\ key_lt (entry_key e) (last_key last_entry))
  /\ StronglySorted (before entry_key) page
  /\ (List.length page <= limit)%nat
  /\ (forall limit2 front e,
        page = front ++ [e] ->
        let next := get_timeline_squeak_entries limit2 (Some e) db in
        StronglySorted (before entry_key) (page ++ next)
        /\ NoDup (map squeak_hash (page ++ next))
        /\ NoDup (page ++ next)).
Proof.
  intros Hwf page.
  destruct (page_properties profile_is_following limit last_entry db Hwf)
    as [Hin [Hs Hlen]].
  split; [|split; [exact Hs|split; [exact Hlen|]]].
  - intros e He. destruct (Hin e He) as [s [op [Hj [Hw [Hp Hk]]]]].
    apply joined_In in Hj. destruct Hj as [Hsq Hop].
    unfold profile_is_following in Hw. simpl in Hw.
    destruct op as [p|]; [|discriminate].
    destruct Hop as [Hpin Ha].
    exists s, p. repeat split; auto.
    destruct (profile.following p); [reflexivity|discriminate].
  - intros limit2 front e Hpage next.
    exact (successive_pages profile_is_following limit limit2 last_entry db
             front e Hwf Hpage).
Qed.

(** ** Thread ancestors: the walk and its termination *)

Lemma ancestors_step_In (db : Db) (w : list ancestor) (x : ancestor) :
  In x (ancestors_step db w)
  <-> exists a s, In a w /\ In s (squeaks db)
        /\ fst a = Some (squeak.hash s)
        /\ x = (squeak.hash_reply_sqk s, snd a + 1).
Proof.
  unfold ancestors_step. rewrite in_flat_map. split.
  - intros [a [Ha Hx]]. apply in_map_iff in Hx.
    destruct Hx as [s [Hx Hs]]. apply filter_In in Hs.
    destruct Hs as [Hs Hm]. exists a, s. repeat split; auto.
    unfold hash_matches in Hm. destruct (fst a) as [h|]; [|discriminate].
    apply bytes_eqb_eq in Hm. now subst.
  - intros [a [s [Ha [Hs [Hf Hx]]]]]. exists a. split; auto.
    apply in_map_iff. exists s. split; auto.
    apply filter_In. split; auto.
    rewrite Hf. simpl. apply bytes_eqb_refl.
Qed.

(** More rounds than needed change nothing. *)
Lemma ancestors_cte_more_fuel (db : Db) (fuel extra : nat)
    (w res : list ancestor) :
  ancestors_cte fuel db w = Some res ->
  ancestors_cte (fuel + extra) db w = Some res.
Proof.
  revert w res. induction fuel as [|fuel IH]; intros w res; simpl.
  - destruct w; [|discriminate]. intros H. destruct extra; exact H.
  - destruct w as [|a w]; auto.
    destruct (ancestors_cte fuel db (ancestors_step db (a :: w))) as [rest|]
      eqn:E; [|discriminate].
    intros H. now rewrite (IH _ _ E).
Qed.

Lemma ancestors_cte_ranked (rank : bytes -> nat) (db : Db) :
  reply_ranked rank db ->
  forall n w,
    (forall h d, In (Some h, d) w -> (rank h < n)%nat) ->
    exists res, ancestors_cte (S n) db w = Some res.
Proof.
  intros Hrank n. induction n as [|n IH]; intros w Hw.
  - destruct w as [|a w]; [now exists []|].
    assert (Hstep : ancestors_step db (a :: w) = []).
    { destruct (ancestors_step db (a :: w)) as [|x l] eqn:E; auto.
      exfalso.
      assert (Hx : In x (ancestors_step db (a :: w)))
        by (rewrite E; now left).
      apply ancestors_step_In in Hx.
      destruct Hx as [[ah ad] [s [Ha [_ [Hf _]]]]]. simpl in Hf. subst ah.
      specialize (Hw _ _ Ha). lia. }
    change (ancestors_cte 1 db (a :: w))
      with (match ancestors_cte 0 db (ancestors_step db (a :: w)) with
            | Some rest => Some ((a :: w) ++ rest)
            | None => None
            end).
    rewrite Hstep. simpl. eauto.
  - destruct w as [|a w]; [now exists []|].
    destruct (IH (ancestors_step db (a :: w))) as [rest Hrest].
    + intros h d Hx. apply ancestors_step_In in Hx.
      destruct Hx as [[ah ad] [s [Ha [Hs [Hf Hx]]]]].
      simpl in Hf. subst ah. inversion Hx; subst.
      specialize (Hw _ _ Ha).
      assert (rank h < rank (squeak.hash s))%nat
        by (apply Hrank; auto).
      lia.
    + change (ancestors_cte (S (S n)) db (a :: w))
        with (match ancestors_cte (S n) db (ancestors_step db (a :: w)) with
              | Some rest => Some ((a :: w) ++ rest)
              | None => None
              end).
      rewrite Hrest. eauto.
Qed.

Lemma cyclic_walk_never_ends (fuel : nat) (d : Z) :
  ancestors_cte fuel cyclic_db [(Some [x01], d)] = None.
Proof.
  revert d. induction fuel as [|fuel IH]; intros d; [reflexivity|].
  change (ancestors_cte (S fuel) cyclic_db [(Some [x01], d)])
    with (match ancestors_cte fuel cyclic_db [(Some [x01], d + 1)] with
          | Some rest => Some ([(Some [x01], d)] ++ rest)
          | None => None
          end).
  now rewrite IH.
Qed.

(** On a stored squeak that replies to its own hash, no number of
    rounds, 1024 or other, lets the ancestor query finish. *)
Lemma ancestor_walk_unbounded_on_cycle :
  ~ exists max_depth : nat,
      get_thread_ancestor_squeak_entries max_depth [x01] cyclic_db <> None.
Proof.
  intros [fuel H]. apply H.
  unfold get_thread_ancestor_squeak_entries.
  change (ancestors_base [x01] cyclic_db) with [(Some [x01], 0)].
  now rewrite cyclic_walk_never_ends.
Qed.

(** On a thread 1030 squeaks deep the query returns all 1030 entries,
    root first, after 1031 rounds; 1024 rounds would not finish it. *)
Example long_chain_is_walked_to_the_root :
  option_map (fun l => (List.length l, map squeak_hash (firstn 2 l)))
             (get_thread_ancestor_squeak_entries 1031 (chain_hash 1029)
                                                 long_chain_db)
  = Some (1030%nat, [chain_hash 0; chain_hash 1])
  /\ get_thread_ancestor_squeak_entries 1024 (chain_hash 1029) long_chain_db
     = None.
Proof. split; vm_compute; reflexivity. Qed.

(** On a store whose reply links all go down in some rank the query
    finishes: for the squeak hash [h], [rank h + 2] rounds are enough,
    and granting more rounds gives the same entries. *)
Theorem ancestor_walk_terminates_when_ranked (rank : bytes -> nat)
    (db : Db) (squeak_hash : bytes) :
  reply_ranked rank db ->
  exists entries,
    forall extra,
      get_thread_ancestor_squeak_entries (rank squeak_hash + 2 + extra)
                                         squeak_hash db
      = Some entries.
Proof.
  intros Hrank.
  destruct (ancestors_cte_ranked rank db Hrank (S (rank squeak_hash))
              (ancestors_base squeak_hash db)) as [res Hres].
  - intros h d Hin. unfold ancestors_base in Hin.
    apply in_map_iff in Hin. destruct Hin as [s [Hs Hin]].
    apply filter_In in Hin. destruct Hin as [_ Hm].
    apply bytes_eqb_eq in Hm. inversion Hs; subst. lia.
  - eexists. intros extra.
    unfold get_thread_ancestor_squeak_entries.
    replace (rank squeak_hash + 2 + extra)%nat
      with (S (S (rank squeak_hash)) + extra)%nat by lia.
    rewrite (ancestors_cte_more_fuel _ _ _ _ _ Hres). reflexivity.
Qed.

(** *** The walk ends exactly when the reply chains do *)

Lemma reply_chain_inv (db : Db) (n : nat) (h : bytes) :
  reply_chain db (S n) h
  <-> exists s r, In s (squeaks db) /\ squeak.hash s = h
                  /\ squeak.hash_reply_sqk s = Some r
                  /\ reply_chain db n r.
Proof.
  split.
  - intros H. inversion H; subst. eauto 6.
  - intros [s [r [Hs [Hh [Hr Hc]]]]]. subst h.
    now apply chain_link with (r := r).
Qed.

Lemma reply_chain_stored (db : Db) (h : bytes) :
  reply_chain db 0 h <-> exists s, In s (squeaks db) /\ squeak.hash s = h.
Proof.
  split.
  - intros H. inversion H; subst. eauto.
  - intros [s [Hs Hh]]. subst h. now constructor.
Qed.

(** A chain holds the shorter chains from the same hash. *)
Lemma reply_chain_shorter (db : Db) (n : nat) (h : bytes) :
  reply_chain db (S n) h -> reply_chain db n h.
Proof.
  revert h. induction n as [|n IH]; intros h H.
  - inversion H; subst. now constructor.
  - apply reply_chain_inv in H. destruct H as [s [r [Hs [Hh [Hr Hc]]]]].
    apply reply_chain_inv. exists s, r. auto.
Qed.

Lemma reply_chain_le (db : Db) (n m : nat) (h : bytes) :
  (n <= m)%nat -> reply_chain db m h -> reply_chain db n h.
Proof.
  intros Hle. induction Hle as [|m Hle IH]; auto.
  intros H. apply IH. now apply reply_chain_shorter.
Qed.

Lemma ancestors_step_nonempty (db : Db) (w : list ancestor) :
  ancestors_step db w <> [] <-> chain_from db 0 w.
Proof.
  split.
  - intros H. destruct (ancestors_step db w) as [|x l] eqn:E;
      [contradiction|].
    assert (Hx : In x (ancestors_step db w)) by (rewrite E; now left).
    apply ancestors_step_In in Hx.
    destruct Hx as [a [s [Ha [Hs [Hf _]]]]].
    exists a, (squeak.hash s). repeat split; auto. now constructor.
  - intros [a [x [Ha [Hf Hc]]]] E.
    apply reply_chain_stored in Hc. destruct Hc as [s [Hs Hh]].
    assert (Hin : In (squeak.hash_reply_sqk s, snd a + 1)
                     (ancestors_step db w)).
    { apply ancestors_step_In. exists a, s. repeat split; auto.
      now rewrite Hf, Hh. }
    rewrite E in Hin. contradiction.
Qed.

Lemma chain_from_step (db : Db) (n : nat) (w : list ancestor) :
  chain_from db n (ancestors_step db w) <-> chain_from db (S n) w.
Proof.
  split.
  - intros [b [r [Hb [Hf Hc]]]]. apply ancestors_step_In in Hb.
    destruct Hb as [a [s [Ha [Hs [Hfa Hb]]]]]. subst b. simpl in Hf.
    exists a, (squeak.hash s). repeat split; auto.
    now apply chain_link with (r := r).
  - intros [a [x [Ha [Hf Hc]]]]. apply reply_chain_inv in Hc.
    destruct Hc as [s [r [Hs [Hh [Hr Hc]]]]].
    exists (squeak.hash_reply_sqk s, snd a + 1), r. repeat split; auto.
    apply ancestors_step_In. exists a, s. repeat split; auto.
    now rewrite Hf, Hh.
Qed.

(** Round [k + 1] has a row exactly when a chain of [k] links starts at
    a hash of the working table. *)
Lemma ancestors_round_nonempty (db : Db) (k : nat) (w : list ancestor) :
  ancestors_round db (S k) w <> [] <-> chain_from db k w.
Proof.
  revert w. induction k as [|k IH]; intros w.
  - apply ancestors_step_nonempty.
  - change (ancestors_round db (S (S k)) w)
      with (ancestors_round db (S k) (ancestors_step db w)).
    rewrite IH. apply chain_from_step.
Qed.

(** The evaluation finishes within [fuel] rounds exactly when one of
    the first [fuel] rounds after the start is empty. *)
Lemma ancestors_cte_rounds (db : Db) (fuel : nat) (w : list ancestor) :
  ancestors_cte fuel db w <> None
  <-> exists k, (k <= fuel)%nat /\ ancestors_round db k w = [].
Proof.
  revert w. induction fuel as [|fuel IH]; intros w.
  - destruct w as [|a w]; simpl.
    + split; [|discriminate]. intros _. exists 0%nat. auto.
    + split; [intros H; now contradiction H|].
      intros [k [Hk E]]. assert (k = 0%nat) by lia. subst k.
      discriminate E.
  - destruct w as [|a w].
    + split; [|discriminate]. intros _. exists 0%nat. split; [lia|auto].
    + change (ancestors_cte (S fuel) db (a :: w))
        with (match ancestors_cte fuel db (ancestors_step db (a :: w)) with
              | Some rest => Some ((a :: w) ++ rest)
              | None => None
              end).
      split.
      * intros H.
        destruct (ancestors_cte fuel db (ancestors_step db (a :: w)))
          as [rest|] eqn:E; [|now contradiction H].
        assert (Hne : ancestors_cte fuel db (ancestors_step db (a :: w))
                      <> None) by (rewrite E; discriminate).
        apply IH in Hne. destruct Hne as [k [Hk Hr]].
        exists (S k). split; [lia|exact Hr].
      * intros [k [Hk Hr]]. destruct k as [|k]; [discriminate Hr|].
        assert (Hne : ancestors_cte fuel db (ancestors_step db (a :: w))
                      <> None).
        { apply IH. exists k. split; [lia|exact Hr]. }
        destruct (ancestors_cte fuel db (ancestors_step db (a :: w)));
          [discriminate|contradiction].
Qed.

Lemma chain_from_base (db : Db) (n : nat) (h : bytes) :
  chain_from db n (ancestors_base h db) <-> reply_chain db n h.
Proof.
  unfold chain_from, ancestors_base. split.
  - intros [a [x [Ha [Hf Hc]]]]. apply in_map_iff in Ha.
    destruct Ha as [s [Ea Hs]]. apply filter_In in Hs.
    destruct Hs as [_ Hh]. apply bytes_eqb_eq in Hh. subst a.
    simpl in Hf. congruence.
  - intros Hc.
    assert (H0 : reply_chain db 0 h)
      by (apply (reply_chain_le db 0 n); [lia|exact Hc]).
    apply reply_chain_stored in H0. destruct H0 as [s [Hs Hh]].
    exists (Some (squeak.hash s), 0), h. repeat split; auto.
    + apply in_map_iff. exists s. split; auto. apply filter_In.
      split; auto. now apply bytes_eqb_eq.
    + simpl. now rewrite Hh.
Qed.

Lemma ancestors_base_empty (db : Db) (h : bytes) :
  ancestors_base h db = [] <-> ~ reply_chain db 0 h.
Proof.
  unfold ancestors_base. split.
  - intros E Hc. apply reply_chain_stored in Hc. destruct Hc as [s [Hs Hh]].
    assert (Hin : In (Some (squeak.hash s), 0)
                     (map (fun s0 => (Some (squeak.hash s0), 0))
                          (filter (fun s0 => bytes_eqb (squeak.hash s0) h)
                                  (squeaks db)))).
    { apply in_map_iff. exists s. split; auto. apply filter_In.
      split; auto. now apply bytes_eqb_eq. }
    rewrite E in Hin. contradiction.
  - intros Hn.
    destruct (filter (fun s0 => bytes_eqb (squeak.hash s0) h) (squeaks db))
      as [|s l] eqn:E; [reflexivity|].
    exfalso. apply Hn. apply reply_chain_stored. exists s.
    assert (Hin : In s (s :: l)) by now left.
    rewrite <- E in Hin. apply filter_In in Hin. destruct Hin as [Hs Hh].
    split; auto. now apply bytes_eqb_eq.
Qed.

(** The rounds the walk from [h] needs: it finishes within [fuel] of
    them exactly when no chain of [fuel - 1] links starts at [h]. *)
Lemma ancestors_cte_chain (db : Db) (fuel : nat) (h : bytes) :
  ancestors_cte fuel db (ancestors_base h db) <> None
  <-> ~ reply_chain db (pred fuel) h.
Proof.
  rewrite ancestors_cte_rounds. split.
  - intros [k [Hk Hr]] Hc. destruct k as [|k].
    + simpl in Hr. apply ancestors_base_empty in Hr. apply Hr.
      apply (reply_chain_le db 0 (pred fuel)); [lia|exact Hc].
    + assert (Hne : ancestors_round db (S k) (ancestors_base h db) <> []).
      { apply ancestors_round_nonempty. apply chain_from_base.
        apply (reply_chain_le db k (pred fuel)); [lia|exact Hc]. }
      contradiction.
  - intros Hn. destruct fuel as [|fuel].
    + exists 0%nat. split; [lia|]. simpl. now apply ancestors_base_empty.
    + exists (S fuel). split; [lia|].
      destruct (ancestors_round db (S fuel) (ancestors_base h db))
        as [|x l] eqn:E; [reflexivity|].
      exfalso. apply Hn. simpl. apply chain_from_base.
      apply ancestors_round_nonempty. rewrite E. discriminate.
Qed.

Lemma get_thread_ancestor_none (db : Db) (fuel : nat) (h : bytes) :
  get_thread_ancestor_squeak_entries fuel h db <> None
  <-> ancestors_cte fuel db (ancestors_base h db) <> None.
Proof.
  unfold get_thread_ancestor_squeak_entries.
  destruct (ancestors_cte fuel db (ancestors_base h db)).
  - split; discriminate.
  - split; intros H; now contradiction H.
Qed.

Lemma reply_path_app (db : Db) (a b c : bytes) (m n : nat) :
  reply_path db a m b -> reply_path db b n c -> reply_path db a (m + n) c.
Proof.
  intros H. induction H as [h|s r k b Hs Hr Hp IH]; intros Hbc.
  - exact Hbc.
  - simpl. apply path_link with (r := r); auto.
Qed.

Lemma reply_path_chain (db : Db) (n : nat) (h c : bytes) :
  reply_path db h (S n) c -> reply_chain db n h.
Proof.
  revert h. induction n as [|n IH]; intros h H; inversion H; subst.
  - now constructor.
  - apply chain_link with (r := r); auto.
Qed.

Lemma reply_cycle_turns (db : Db) (c : bytes) (k : nat) :
  reply_path db c (S k) c -> forall j, reply_path db c (j * S k) c.
Proof.
  intros H j. induction j as [|j IH]; [constructor|].
  change (S j * S k)%nat with (S k + j * S k)%nat.
  now apply reply_path_app with (b := c).
Qed.

(** From a hash that reaches a cycle of reply links, chains of every
    length start. *)
Lemma reply_cycle_chains (db : Db) (h c : bytes) (m k : nat) :
  reply_path db h m c -> reply_path db c (S k) c ->
  forall n, reply_chain db n h.
Proof.
  intros Hhc Hcc n.
  assert (Hp : reply_path db h (m + S n * S k) c).
  { apply reply_path_app with (b := c); auto.
    now apply reply_cycle_turns. }
  assert (E : exists x, (m + S n * S k = S x)%nat /\ (n <= x)%nat).
  { exists (m + S n * S k - 1)%nat. nia. }
  destruct E as [x [E Hx]]. rewrite E in Hp.
  apply (reply_chain_le db n x); auto.
  now apply reply_path_chain with (c := c).
Qed.

(** C8, amended.  The ancestor query sets no depth cap, and what
    decides whether it finishes is the thread of the hash asked for
    alone.  For every store and every hash [h]: the query finishes
    within [fuel] rounds exactly when no chain of [fuel - 1] reply links
    of stored squeaks starts at [h]; so when no chain of [n] links
    starts at [h] it returns within [n + 1] rounds, and more rounds
    give the same entries; when chains of every length start at [h], as
    they do when [h] reaches a cycle of reply links, it finishes in no
    number of rounds; and when the reply links go down in some rank on
    the squeaks reached from [h], [rank h + 2] rounds are enough. *)
Theorem ancestor_walk_ends_iff_chains_end (db : Db) (h : bytes) :
  (forall fuel,
      get_thread_ancestor_squeak_entries fuel h db <> None
      <-> ~ reply_chain db (pred fuel) h)
  /\ (forall n,
        ~ reply_chain db n h ->
        exists entries,
          forall extra,
            get_thread_ancestor_squeak_entries (S n + extra) h db
            = Some entries)
  /\ ((forall n, reply_chain db n h) ->
      forall fuel, get_thread_ancestor_squeak_entries fuel h db = None)
  /\ (forall c m k,
        reply_path db h m c -> reply_path db c (S k) c ->
        forall fuel, get_thread_ancestor_squeak_entries fuel h db = None)
  /\ (forall rank : bytes -> nat,
        (forall s r m, reply_path db h m (squeak.hash s) ->
                       In s (squeaks db) ->
                       squeak.hash_reply_sqk s = Some r ->
                       (rank r < rank (squeak.hash s))%nat) ->
        exists entries,
          forall extra,
            get_thread_ancestor_squeak_entries (rank h + 2 + extra) h db
            = Some entries).
Proof.
  assert (Hiff : forall fuel,
            get_thread_ancestor_squeak_entries fuel h db <> None
            <-> ~ reply_chain db (pred fuel) h).
  { intros fuel. rewrite get_thread_ancestor_none.
    apply ancestors_cte_chain. }
  assert (Hends : forall n,
            ~ reply_chain db n h ->
            exists entries,
              forall extra,
                get_thread_ancestor_squeak_entries (S n + extra) h db
                = Some entries).
  { intros n Hn.
    assert (Hne : ancestors_cte (S n) db (ancestors_base h db) <> None)
      by now apply ancestors_cte_chain.
    destruct (ancestors_cte (S n) db (ancestors_base h db)) as [res|] eqn:E;
      [|contradiction].
    eexists. intros extra. unfold get_thread_ancestor_squeak_entries.
    rewrite (ancestors_cte_more_fuel _ _ _ _ _ E). reflexivity. }
  assert (Hnever : (forall n, reply_chain db n h) ->
            forall fuel, get_thread_ancestor_squeak_entries fuel h db = None).
  { intros Hall fuel.
    destruct (get_thread_ancestor_squeak_entries fuel h db) as [l|] eqn:E;
      [|reflexivity].
    exfalso.
    assert (Hne : get_thread_ancestor_squeak_entries fuel h db <> None)
      by (rewrite E; discriminate).
    apply Hiff in Hne. apply Hne. apply Hall. }
  split; [exact Hiff|]. split; [exact Hends|]. split; [exact Hnever|].
  split.
  - intros c m k Hhc Hcc. apply Hnever.
    now apply (reply_cycle_chains db h c m k).
  - intros rank Hrank.
    assert (Hbound : forall n x m,
              reply_path db h m x -> reply_chain db n x ->
              (n <= rank x)%nat).
    { induction n as [|n IH]; intros x m Hp Hc; [lia|].
      apply reply_chain_inv in Hc.
      destruct Hc as [s [r [Hs [Hh [Hr Hc]]]]]. subst x.
      assert (Hlt : (rank r < rank (squeak.hash s))%nat)
        by (apply (Hrank s r m); auto).
      assert (Hp' : reply_path db h (m + 1) r).
      { apply reply_path_app with (b := squeak.hash s); auto.
        apply path_link with (r := r); auto. constructor. }
      specialize (IH r (m + 1)%nat Hp' Hc). lia. }
    assert (Hn : ~ reply_chain db (S (rank h)) h).
    { intros Hc. specialize (Hbound _ h 0%nat (path_here db h) Hc). lia. }
    destruct (Hends _ Hn) as [entries He]. exists entries. intros extra.
    replace (rank h + 2 + extra)%nat with (S (S (rank h)) + extra)%nat
      by lia.
    apply He.
Qed.

(** ** Text search: LIKE patterns *)

Lemma like_match_percent (p t : list ascii) :
  like_match ("%"%char :: p) t
  = like_match p t
    || match t with
       | [] => false
       | _ :: t' => like_match ("%"%char :: p) t'
       end.
Proof. destruct t; reflexivity. Qed.

Lemma like_match_char (c : ascii) (p t : list ascii) :
  c <> "%"%char -> c <> "_"%char ->
  like_match (c :: p) t
  = match t with
    | [] => false
    | d :: t' => Ascii.eqb c d && like_match p t'
    end.
Proof.
  intros H1 H2. simpl.
  destruct (Ascii.eqb_spec c "%"); [contradiction|].
  destruct (Ascii.eqb_spec c "_"); [contradiction|].
  reflexivity.
Qed.

(** A leading [%] lets the rest of the pattern match any suffix. *)
Lemma like_match_percent_iff (p t : list ascii) :
  like_match ("%"%char :: p) t = true
  <-> exists pre post, t = pre ++ post /\ like_match p post = true.
Proof.
  induction t as [|x t IH]; rewrite like_match_percent, orb_true_iff.
  - split.
    + intros [H|H]; [|discriminate]. now exists [], [].
    + intros [pre [post [E H]]]. left.
      symmetry in E. apply app_eq_nil in E. destruct E; now subst.
  - split.
    + intros [H|H].
      * now exists [], (x :: t).
      * apply IH in H. destruct H as [pre [post [E H]]].
        exists (x :: pre), post. subst t. auto.
    + intros [[|y pre] [post [E H]]]; simpl in E.
      * left. now subst post.
      * right. inversion E; subst. apply IH. eauto.
Qed.

(** A run of ordinary characters matches itself, and only itself. *)
Lemma like_match_literal (s p t : list ascii) :
  ~ In "%"%char s -> ~ In "_"%char s ->
  (like_match (s ++ p) t = true
   <-> exists t', t = s ++ t' /\ like_match p t' = true).
Proof.
  revert t. induction s as [|c s IH]; intros t H1 H2; simpl app.
  - split; [intros H; now exists t | intros [t' [E H]]; now subst].
  - simpl in H1, H2.
    rewrite like_match_char by (intros E; subst; tauto).
    destruct t as [|d t].
    + split; [discriminate|]. intros [t' [E _]]. discriminate.
    + rewrite andb_true_iff, IH by tauto. split.
      * intros [Hc [t' [E H]]]. apply Ascii.eqb_eq in Hc.
        exists t'. subst. auto.
      * intros [t' [E H]]. inversion E; subst. split.
        -- apply Ascii.eqb_refl.
        -- eauto.
Qed.

Lemma list_ascii_of_string_app (a b : string) :
  list_ascii_of_string (a ++ b)
  = list_ascii_of_string a ++ list_ascii_of_string b.
Proof.
  induction a as [|c a IH]; simpl; auto. now rewrite IH.
Qed.

Lemma ascii_lower_wildcard (c : ascii) :
  (ascii_lower c = "%"%char -> c = "%"%char)
  /\ (ascii_lower c = "_"%char -> c = "_"%char).
Proof.
  destruct c as [[] [] [] [] [] [] [] []]; vm_compute; split; congruence.
Qed.

(** For a search text without wildcards the WHERE clause of the text
    search is the case-insensitive substring test. *)
Lemma ilike_substring (search_text content : string) :
  wildcard_free search_text ->
  (ilike content ("%" ++ search_text ++ "%") = true
   <-> is_substring_ci search_text content).
Proof.
  intros [H1 H2]. unfold ilike, is_substring_ci.
  assert (Epat : map ascii_lower
                     (list_ascii_of_string ("%" ++ search_text ++ "%"))
                 = "%"%char
                   :: map ascii_lower (list_ascii_of_string search_text)
                   ++ ["%"%char]).
  { change ("%" ++ search_text ++ "%")%string
      with (String "%" (search_text ++ "%")).
    change (list_ascii_of_string (String "%" (search_text ++ "%")))
      with ("%"%char :: list_ascii_of_string (search_text ++ "%")).
    rewrite list_ascii_of_string_app, map_cons, map_app. reflexivity. }
  rewrite Epat, like_match_percent_iff.
  assert (L1 : ~ In "%"%char
                 (map ascii_lower (list_ascii_of_string search_text))).
  { intros Hin. apply in_map_iff in Hin. destruct Hin as [c [Hc Hin]].
    apply ascii_lower_wildcard in Hc. subst c. contradiction. }
  assert (L2 : ~ In "_"%char
                 (map ascii_lower (list_ascii_of_string search_text))).
  { intros Hin. apply in_map_iff in Hin. destruct Hin as [c [Hc Hin]].
    apply ascii_lower_wildcard in Hc. subst c. contradiction. }
  split.
  - intros [pre [post [E H]]].
    apply (like_match_literal _ _ _ L1 L2) in H.
    destruct H as [t' [E' _]]. exists pre, t'. now rewrite E, E'.
  - intros [pre [post E]]. exists pre, (map ascii_lower
      (list_ascii_of_string search_text) ++ post). split; auto.
    apply (like_match_literal _ _ _ L1 L2). exists post. split; auto.
    apply like_match_percent_iff. exists post, []. split.
    + now rewrite app_nil_r.
    + reflexivity.
Qed.

(** C7 at a search text holding a wildcard: searching for "50%"
    returns the squeak whose content is "50 sats", although "50%" is
    not a substring of it. *)
Theorem text_search_percent_is_wildcard :
  get_squeak_entries_for_text_search "50%" 10 None percent_db
  = [mkSqueakEntry [x01] "author" 7 [] 0 9 None true None
                   (Some "50 sats"%string) None]
  /\ ~ is_substring_ci "50%" "50 sats".
Proof.
  split; [vm_compute; reflexivity|].
  intros [pre [post E]].
  assert (Hin : In "%"%char
                   (map ascii_lower (list_ascii_of_string "50 sats"))).
  { rewrite E. apply in_or_app. right. apply in_or_app. left.
    vm_compute. tauto. }
  vm_compute in Hin.
  repeat (destruct Hin as [Hin|Hin]; [discriminate|]). exact Hin.
Qed.

(** ** The uniqueness constraints hold in every reachable store *)

Lemma NoDup_map_snoc {A B : Type} (f : A -> B) (l : list A) (x : A) :
  NoDup (map f l) -> ~ In (f x) (map f l) -> NoDup (map f (l ++ [x])).
Proof.
  intros Hnd Hx. rewrite map_app. simpl.
  apply NoDup_app_remove_l with (l := []). simpl.
  apply Permutation_NoDup with (l := f x :: map f l).
  - apply Permutation_cons_append.
  - now constructor.
Qed.

Lemma map_map_same {A B : Type} (f : A -> B) (g : A -> A) (l : list A) :
  (forall x, f (g x) = f x) -> map f (map g l) = map f l.
Proof.
  intros H. rewrite map_map. apply map_ext. exact H.
Qed.

Lemma update_squeak_keeps_hashes h f db :
  (forall s, squeak.hash (f s) = squeak.hash s) ->
  map squeak.hash (squeaks (update_squeak_where_hash h f db))
  = map squeak.hash (squeaks db).
Proof.
  intros Hf. simpl. apply map_map_same. intros s.
  destruct (bytes_eqb (squeak.hash s) h); auto.
Qed.

Lemma run_op_wf get_hash op db : wf_db db -> wf_db (run_op get_hash op db).
Proof.
  intros [Hsq Hpr]. destruct op; cbn [run_op]; unfold wf_db.
  - unfold insert_squeak. simpl.
    destruct (existsb _ (squeaks db)) eqn:E; simpl; [now split|].
    split; auto. apply NoDup_map_snoc; auto. simpl.
    intros Hin. apply in_map_iff in Hin. destruct Hin as [s [Hh Hs]].
    apply not_true_iff_false in E. apply E.
    apply existsb_hash_iff. eauto.
  - unfold set_squeak_decryption_key.
    rewrite update_squeak_keeps_hashes; auto.
  - unfold set_squeak_liked.
    rewrite update_squeak_keeps_hashes; auto.
  - unfold set_squeak_unliked.
    rewrite update_squeak_keeps_hashes; auto.
  - simpl. split; auto. now apply NoDup_map_filter.
  - unfold insert_profile.
    destruct (existsb _ (profiles db)) eqn:E; simpl; [now split|].
    split; auto. apply NoDup_map_snoc; auto. simpl.
    intros Hin. apply in_map_iff in Hin. destruct Hin as [p [Ha Hp]].
    apply not_true_iff_false in E. apply E.
    apply existsb_exists. exists p. split; auto.
    rewrite Ha, String.eqb_refl. apply orb_true_r.
  - simpl. split; auto. now apply NoDup_map_filter.
  - simpl. split; auto. rewrite map_map_same; auto.
    intros p. destruct (profile.profile_id p =? profile_id); auto.
  - unfold insert_peer.
    destruct (peer_host_port_taken _ _ db); simpl; now split.
  - now split.
  - now split.
  - now split.
Qed.

Lemma run_ops_wf get_hash ops : wf_db (run_ops get_hash ops empty_db).
Proof.
  assert (H : forall db, wf_db db -> wf_db (run_ops get_hash ops db)).
  { unfold run_ops. induction ops as [|op ops IH]; simpl; auto.
    intros db Hdb. apply IH. now apply run_op_wf. }
  apply H. split; constructor.
Qed.

(** * A small store, and the properties on it *)

Example sample_timeline_page_1 :
  map squeak_hash (get_timeline_squeak_entries 1 None sample_db) = [[x0b]].
Proof. vm_compute. reflexivity. Qed.

Example sample_timeline_page_2 :
  map squeak_hash
      (get_timeline_squeak_entries 1
         (hd_error (get_timeline_squeak_entries 1 None sample_db)) sample_db)
  = [[x0a]].
Proof. vm_compute. reflexivity. Qed.

Example sample_ancestors_root_first :
  option_map (map squeak_hash)
             (get_thread_ancestor_squeak_entries 3 [x0b] sample_db)
  = Some [[x0a]; [x0b]].
Proof. vm_compute. reflexivity. Qed.

Example sample_lookup_all_heights :
  lookup_squeaks [] 0 0 None true sample_db = [[x0b]; [x0c]; [x0a]].
Proof. vm_compute. reflexivity. Qed.

Example sample_lookup_bounded :
  lookup_squeaks [] 6 6 None true sample_db = [[x0b]; [x0c]].
Proof. vm_compute. reflexivity. Qed.

Example sample_retention :
  get_old_squeaks_to_delete 5000 1 sample_db = [[x0b]; [x0c]].
Proof. vm_compute. reflexivity. Qed.

Example sample_search_case_insensitive :
  map squeak_hash
      (get_squeak_entries_for_text_search "HELL" 10 None sample_db)
  = [[x0a]].
Proof. vm_compute. reflexivity. Qed.

Example sample_received_offer_expires :
  get_received_offers 1059999 [x0a] offers_db
  = [_parse_received_offer sample_received_offer]
  /\ get_received_offers 1060000 [x0a] offers_db = [].
Proof. split; vm_compute; reflexivity. Qed.

(** [sample_db] is a history of writes, hence well formed and
    consistent. *)
Lemma sample_db_wf : wf_db sample_db.
Proof. apply run_ops_wf. Qed.

Lemma sample_db_consistent : squeaks_consistent sample_db.
Proof. apply run_ops_consistent. constructor. Qed.

(** [NoDup] of a concrete list, element by element. *)
Ltac nodup_by_computation :=
  vm_compute;
  repeat (constructor; [simpl; intuition discriminate|]);
  constructor.

(** [squeaks_consistent] of a concrete store, row by row. *)
Ltac consistent_by_computation :=
  vm_compute;
  repeat (constructor;
          [vm_compute; split; intros H E;
           solve [discriminate E | exact (H eq_refl)]|]);
  constructor.

(** C1 on [sample_db]: Dave's squeak is inserted locked; unlocking
    Bob's reply there writes its key and its plaintext. *)
Lemma secret_key_iff_content_witness :
  squeaks_consistent sample_db
  /\ (forall op, squeaks_consistent (run_op sample_get_hash op sample_db))
  /\ (forall s, In s (squeaks sample_db) ->
                squeak.hash s <> sample_get_hash dave_squeak)
  /\ (exists s,
        In s (squeaks (fst (insert_squeak sample_get_hash 60 dave_squeak
                                          (mkCBlockHeader 290) sample_db)))
        /\ squeak.hash s = sample_get_hash dave_squeak
        /\ squeak.squeak s = serialize dave_squeak
        /\ squeak.secret_key s = None
        /\ squeak.content s = None)
  /\ In bob_row (squeaks sample_db)
  /\ squeak.secret_key bob_row = None
  /\ (exists s',
        In s' (squeaks (set_squeak_decryption_key [x0b] [x23] "reply"
                          sample_db))
        /\ squeak.hash s' = [x0b]
        /\ squeak.secret_key s' = Some [x23]
        /\ squeak.content s' = Some "reply"%string
        /\ squeak.squeak s' = squeak.squeak bob_row
        /\ squeak.author_address s' = squeak.author_address bob_row
        /\ squeak.liked_time_ms s' = squeak.liked_time_ms bob_row)
  /\ (forall s,
         In s (squeaks (set_squeak_decryption_key [x0b] [x23] "reply"
                          sample_db)) ->
         (squeak.hash s = [x0b]
          /\ squeak.secret_key s = Some [x23]
          /\ squeak.content s = Some "reply"%string)
         \/ (squeak.hash s <> [x0b] /\ In s (squeaks sample_db))).
Proof.
  assert (H : squeaks_consistent sample_db) by consistent_by_computation.
  assert (Hfresh : forall s, In s (squeaks sample_db) ->
                             squeak.hash s <> sample_get_hash dave_squeak).
  { intros s Hs. vm_compute in Hs.
    destruct Hs as [Hs|[Hs|[Hs|[]]]]; subst s; vm_compute; discriminate. }
  assert (Hbob : In bob_row (squeaks sample_db)) by (vm_compute; auto).
  pose proof (secret_key_iff_content sample_get_hash sample_db H)
    as [H1 [_ [_ [H4 [H5 [_ [H7 _]]]]]]].
  split; [exact H|]. split; [exact H1|]. split; [exact Hfresh|].
  split.
  { destruct (H5 60 dave_squeak (mkCBlockHeader 290) Hfresh)
      as [[s [Hin [Hh [Hsq [Hk [Hc _]]]]]] _].
    exists s. repeat split; assumption. }
  split; [exact Hbob|]. split; [reflexivity|].
  split.
  { destruct (H7 [x0b] [x23] "reply"%string bob_row Hbob eq_refl)
      as [s' [Hin [Hh [Hk [Hc [Hsq [Ha [Hl _]]]]]]]].
    exists s'. repeat split; assumption. }
  exact (H4 [x0b] [x23] "reply"%string).
Defined.

(** C2 on the empty store: Alice's squeak inserted twice. *)
Lemma insert_squeak_idempotent_witness :
  (forall s, In s (squeaks empty_db) ->
             squeak.hash s <> sample_get_hash alice_squeak)
  /\ snd (insert_squeak sample_get_hash 10 alice_squeak (mkCBlockHeader 90)
                        empty_db)
     = Some (sample_get_hash alice_squeak)
  /\ insert_squeak sample_get_hash 11 alice_squeak (mkCBlockHeader 91)
       (fst (insert_squeak sample_get_hash 10 alice_squeak
                           (mkCBlockHeader 90) empty_db))
     = (fst (insert_squeak sample_get_hash 10 alice_squeak
                           (mkCBlockHeader 90) empty_db), None).
Proof.
  assert (H : forall s, In s (squeaks empty_db) ->
                        squeak.hash s <> sample_get_hash alice_squeak)
    by (simpl; intros s []).
  pose proof (insert_squeak_idempotent sample_get_hash 10 11 alice_squeak
                (mkCBlockHeader 90) (mkCBlockHeader 91) empty_db H)
    as [H1 [_ [H3 _]]].
  split; [exact H|]. split; [exact H1|exact H3].
Defined.

(** C3 on [sample_db]: the first two entries of the timeline. *)
Lemma timeline_keyset_pagination_witness :
  wf_db sample_db
  /\ StronglySorted (before entry_key)
                    (get_timeline_squeak_entries 2 None sample_db)
  /\ (List.length (get_timeline_squeak_entries 2 None sample_db) <= 2)%nat
  /\ (forall e, In e (get_timeline_squeak_entries 2 None sample_db) ->
        key_lt (entry_key e) (last_key None)).
Proof.
  assert (H : wf_db sample_db) by (split; nodup_by_computation).
  pose proof (timeline_keyset_pagination 2 None sample_db H)
    as [H1 [H2 [H3 _]]].
  split; [exact H|]. split; [exact H2|]. split; [exact H3|].
  intros e He. destruct (H1 e He) as [s [p [_ [_ [_ [_ [_ Hk]]]]]]].
  exact Hk.
Defined.

(** C4 on [sample_db], 5 s after the epoch with a retention of 1 s. *)
Lemma old_squeaks_to_delete_exact_witness :
  wf_db sample_db
  /\ (forall s, In s (squeaks sample_db) -> locally_owned sample_db s ->
        ~ In (squeak.hash s) (get_old_squeaks_to_delete 5000 1 sample_db)).
Proof.
  assert (H : wf_db sample_db) by (split; nodup_by_computation).
  split; [exact H|].
  exact (proj2 (old_squeaks_to_delete_exact 5000 1 sample_db H)).
Defined.

(** C6 on [offers_db] with a grace of 30 s: the sent offer, expired at
    second 1060, is kept at second 1070 and removed at second 1090. *)
Lemma sent_offer_grace_witness :
  In sample_sent_offer (sent_offers offers_db)
  /\ In sample_sent_offer
        (sent_offers (fst (delete_expired_sent_offers 1070000 30 offers_db)))
  /\ ~ In sample_sent_offer
         (sent_offers (fst (delete_expired_sent_offers 1090000 30 offers_db))).
Proof.
  assert (H : In sample_sent_offer (sent_offers offers_db))
    by (simpl; auto).
  pose proof (sent_offer_grace 1070000 30 offers_db sample_sent_offer H)
    as [_ [Hkeep _]].
  pose proof (sent_offer_grace 1090000 30 offers_db sample_sent_offer H)
    as [Hdrop _].
  split; [exact H|]. split.
  - apply Hkeep. vm_compute. reflexivity.
  - apply Hdrop. vm_compute. discriminate.
Defined.

(** On [sample_db], ranked by [sample_rank]: the ancestors of Bob's
    reply. *)
Lemma ancestor_walk_terminates_when_ranked_witness :
  reply_ranked sample_rank sample_db
  /\ exists entries,
       forall extra,
         get_thread_ancestor_squeak_entries
           (sample_rank [x0b] + 2 + extra) [x0b] sample_db
         = Some entries.
Proof.
  assert (H : reply_ranked sample_rank sample_db).
  { intros s r Hs Hr. vm_compute in Hs.
    destruct Hs as [Hs|[Hs|[Hs|[]]]]; subst s; simpl in Hr;
      try discriminate.
    inversion Hr; subst r. vm_compute. lia. }
  split; [exact H|].
  exact (ancestor_walk_terminates_when_ranked sample_rank sample_db [x0b] H).
Defined.

(** C8 on [mixed_db], a store with a cycle: the walk from [x03],
    whose thread does not meet the cycle, returns after three rounds,
    and not after two; the walk from [x01], on the cycle, never
    returns. *)
Lemma ancestor_walk_ends_iff_chains_end_witness :
  ~ reply_chain mixed_db 2 [x03]
  /\ (exists entries,
        forall extra,
          get_thread_ancestor_squeak_entries (3 + extra) [x03] mixed_db
          = Some entries)
  /\ get_thread_ancestor_squeak_entries 2 [x03] mixed_db = None
  /\ option_map (map squeak_hash)
       (get_thread_ancestor_squeak_entries 3 [x03] mixed_db)
     = Some [[x02]; [x03]]
  /\ reply_path mixed_db [x01] 1 [x01]
  /\ (forall fuel,
        get_thread_ancestor_squeak_entries fuel [x01] mixed_db = None).
Proof.
  assert (H3 : ~ reply_chain mixed_db 2 [x03]).
  { intros H. apply reply_chain_inv in H.
    destruct H as [s [r [Hs [Hh [Hr H]]]]].
    vm_compute in Hs. destruct Hs as [Hs|[Hs|[Hs|[]]]]; subst s;
      try discriminate Hh.
    injection Hr as Hr. subst r.
    apply reply_chain_inv in H. destruct H as [s [r [Hs [Hh' [Hr _]]]]].
    vm_compute in Hs. destruct Hs as [Hs|[Hs|[Hs|[]]]]; subst s;
      try discriminate Hh'; discriminate Hr. }
  assert (Hloop : reply_path mixed_db [x01] 1 [x01]).
  { apply (path_link mixed_db
             (squeak.mk [x01] 0 [] (Some [x01]) [] 0 0 "author" None 0 None
                        None) [x01] 0 [x01]).
    - vm_compute. auto.
    - reflexivity.
    - constructor. }
  pose proof (ancestor_walk_ends_iff_chains_end mixed_db [x03])
    as [_ [Hends _]].
  pose proof (ancestor_walk_ends_iff_chains_end mixed_db [x01])
    as [_ [_ [_ [Hcycle _]]]].
  split; [exact H3|]. split; [exact (Hends 2%nat H3)|].
  split; [vm_compute; reflexivity|]. split; [vm_compute; reflexivity|].
  split; [exact Hloop|].
  exact (Hcycle [x01] 0%nat 0%nat (path_here mixed_db [x01]) Hloop).
Defined.

(** C9 on [sample_db]: a second peer at fake_host:5678. *)
Lemma insert_peer_duplicate_witness :
  In (peer.mk 1 40 "peer" "fake_host" 5678 false false) (peers sample_db)
  /\ snd (insert_peer 50
            (mkSqueakPeer None "again" (mkPeerAddress "fake_host" 5678 true)
                          true)
            sample_db)
     = inl IntegrityError
  /\ peers (fst (insert_peer 50
                   (mkSqueakPeer None "again"
                                 (mkPeerAddress "fake_host" 5678 true) true)
                   sample_db))
     = peers sample_db.
Proof.
  assert (H : In (peer.mk 1 40 "peer" "fake_host" 5678 false false)
                 (peers sample_db))
    by (vm_compute; auto).
  pose proof (insert_peer_duplicate 50
                (mkSqueakPeer None "again"
                              (mkPeerAddress "fake_host" 5678 true) true)
                sample_db _ H eq_refl eq_refl) as [H1 [_ H3]].
  split; [exact H|]. split; [exact H1|exact H3].
Defined.


(** * More properties: reading squeaks back *)

Lemma filter_none {A : Type} (f : A -> bool) (l : list A) :
  (forall x, In x l -> f x = false) -> filter f l = [].
Proof.
  induction l as [|x l IH]; simpl; intros H; auto.
  rewrite (H x) by now left. apply IH. intros y Hy. apply H. now right.
Qed.

Lemma filter_all {A : Type} (f : A -> bool) (l : list A) :
  (forall x, In x l -> f x = true) -> filter f l = l.
Proof.
  induction l as [|x l IH]; simpl; intros H; auto.
  rewrite (H x) by now left. f_equal. apply IH. intros y Hy. apply H.
  now right.
Qed.

Lemma map_unchanged {A : Type} (f : A -> A) (l : list A) :
  (forall x, In x l -> f x = x) -> map f l = l.
Proof.
  induction l as [|x l IH]; simpl; intros H; auto.
  rewrite (H x) by now left. f_equal. apply IH. intros y Hy. apply H.
  now right.
Qed.

Lemma with_squeaks_same (db : Db) : with_squeaks db (squeaks db) = db.
Proof. now destruct db. Qed.

Lemma outerjoin_profiles_fst (db : Db) (s : squeak.row) (r : joined) :
  In r (outerjoin_profiles db s) -> fst r = s.
Proof.
  destruct r as [s' op]. intros H. apply outerjoin_profiles_In in H.
  simpl. tauto.
Qed.

Lemma outerjoin_profiles_nonempty (db : Db) (s : squeak.row) :
  outerjoin_profiles db s <> [].
Proof.
  unfold outerjoin_profiles. destruct (filter _ (profiles db)); discriminate.
Qed.

(** The rows of the join with a given hash: those of the squeak rows
    with that hash. *)
Lemma joined_filter_hash (db : Db) (h : bytes) (l : list squeak.row) :
  filter (fun r : joined => bytes_eqb (squeak.hash (fst r)) h)
         (flat_map (outerjoin_profiles db) l)
  = flat_map (outerjoin_profiles db)
             (filter (fun s => bytes_eqb (squeak.hash s) h) l).
Proof.
  induction l as [|s l IH]; [reflexivity|].
  change (flat_map (outerjoin_profiles db) (s :: l))
    with (outerjoin_profiles db s ++ flat_map (outerjoin_profiles db) l).
  rewrite filter_app, IH. simpl filter at 3.
  destruct (bytes_eqb (squeak.hash s) h) eqn:E.
  - change (flat_map (outerjoin_profiles db) (s :: ?x))
      with (outerjoin_profiles db s ++ flat_map (outerjoin_profiles db) x).
    f_equal. apply filter_all. intros r Hr.
    now rewrite (outerjoin_profiles_fst db s r Hr).
  - rewrite filter_none; [reflexivity|]. intros r Hr.
    now rewrite (outerjoin_profiles_fst db s r Hr).
Qed.

Lemma get_squeak_entry_rows (h : bytes) (db : Db) :
  get_squeak_entry h db
  = match flat_map (outerjoin_profiles db)
            (filter (fun s => bytes_eqb (squeak.hash s) h) (squeaks db)) with
    | [] => None
    | row :: _ => Some (_parse_squeak_entry row)
    end.
Proof.
  unfold get_squeak_entry, squeaks_outerjoin_profiles.
  now rewrite joined_filter_hash.
Qed.

Lemma filter_hash_fresh (h : bytes) (l : list squeak.row) :
  (forall s, In s l -> squeak.hash s <> h) ->
  filter (fun s => bytes_eqb (squeak.hash s) h) l = [].
Proof.
  intros H. apply filter_none. intros s Hs. apply bytes_eqb_neq. auto.
Qed.

(** X1.  After the insert of a squeak whose hash was not stored, its
    key reads back as [None], the squeak as the deserialization of what
    was serialized, and its entry as a locked, not liked entry without
    content carrying the squeak's fields; [reply_to] is the parent hash
    only for a reply with a non-empty parent hash.  Entries under other
    hashes read as before. *)
Theorem insert_squeak_then_get (get_hash : CSqueak -> bytes)
    (deserialize : bytes -> CSqueak) (now_ms : Z) (sq : CSqueak)
    (hdr : CBlockHeader) (db : Db) :
  (forall s, In s (squeaks db) -> squeak.hash s <> get_hash sq) ->
  let db1 := fst (insert_squeak get_hash now_ms sq hdr db) in
  get_squeak_secret_key (get_hash sq) db1 = None
  /\ get_squeak deserialize (get_hash sq) db1
     = Some (deserialize (serialize sq))
  /\ (exists e, get_squeak_entry (get_hash sq) db1 = Some e
        /\ squeak_hash e = get_hash sq
        /\ address e = GetAddress sq
        /\ block_height e = nBlockHeight sq
        /\ block_hash e = hashBlock sq
        /\ entry_block_time e = header_nTime hdr
        /\ squeak_time e = nTime sq
        /\ reply_to e
           = (if is_reply sq && truthy_bytes (Some (hashReplySqk sq))
              then Some (hashReplySqk sq) else None)
        /\ is_unlocked e = false
        /\ entry_liked_time_ms e = None
        /\ entry_content e = None)
  /\ (forall h, h <> get_hash sq ->
        get_squeak_entry h db1 = get_squeak_entry h db
        /\ get_squeak_secret_key h db1 = get_squeak_secret_key h db).
Proof.
  intros Hfresh db1.
  assert (E : existsb (fun s => bytes_eqb (squeak.hash s) (get_hash sq))
                      (squeaks db) = false).
  { apply not_true_is_false. intros H. apply existsb_hash_iff in H.
    destruct H as [s [H1 H2]]. now apply (Hfresh s). }
  set (ins := squeak.mk (get_hash sq) now_ms (serialize sq)
                (if is_reply sq then Some (hashReplySqk sq) else None)
                (hashBlock sq) (nBlockHeight sq) (nTime sq) (GetAddress sq)
                None (header_nTime hdr) None None).
  assert (Hdb1 : db1 = with_squeaks db (squeaks db ++ [ins])).
  { subst db1. unfold insert_squeak. cbn [squeak.hash]. rewrite E.
    reflexivity. }
  assert (Hrows : filter (fun s => bytes_eqb (squeak.hash s) (get_hash sq))
                         (squeaks db1) = [ins]).
  { rewrite Hdb1. cbn [squeaks with_squeaks]. rewrite filter_app.
    rewrite (filter_hash_fresh _ _ Hfresh). simpl.
    now rewrite bytes_eqb_refl. }
  assert (Hother : forall h, h <> get_hash sq ->
            filter (fun s => bytes_eqb (squeak.hash s) h) (squeaks db1)
            = filter (fun s => bytes_eqb (squeak.hash s) h) (squeaks db)).
  { intros h Hh. rewrite Hdb1. cbn [squeaks with_squeaks].
    rewrite filter_app. simpl.
    destruct (bytes_eqb (get_hash sq) h) eqn:Eh.
    - apply bytes_eqb_eq in Eh. congruence.
    - apply app_nil_r. }
  split; [|split; [|split]].
  - unfold get_squeak_secret_key. now rewrite Hrows.
  - unfold get_squeak. now rewrite Hrows.
  - rewrite get_squeak_entry_rows, Hrows.
    change (flat_map (outerjoin_profiles db1) [ins])
      with (outerjoin_profiles db1 ins ++ []).
    rewrite app_nil_r.
    destruct (outerjoin_profiles db1 ins) as [|row rows] eqn:Ej.
    + now apply outerjoin_profiles_nonempty in Ej.
    + assert (Hrow : fst row = ins).
      { apply (outerjoin_profiles_fst db1 ins). rewrite Ej. now left. }
      eexists. split; [reflexivity|].
      unfold _parse_squeak_entry. cbn [squeak_hash address block_height
        block_hash entry_block_time squeak_time reply_to is_unlocked
        entry_liked_time_ms entry_content]. rewrite Hrow. subst ins.
      cbn [squeak.hash squeak.author_address squeak.n_block_height
        squeak.hash_block squeak.block_time squeak.n_time
        squeak.hash_reply_sqk squeak.secret_key squeak.liked_time_ms
        squeak.content].
      repeat split.
      destruct (is_reply sq); [|reflexivity].
      destruct (hashReplySqk sq); reflexivity.
  - intros h Hh. split.
    + rewrite !get_squeak_entry_rows, (Hother h Hh). rewrite Hdb1.
      reflexivity.
    + unfold get_squeak_secret_key. now rewrite (Hother h Hh).
Qed.

(** X2.  [get_squeak_entry] answers [None] exactly for a hash under
    which no squeak is stored, and so does [get_squeak_secret_key] for
    such a hash.  After [delete_squeak] the hash reads as not stored,
    and entries under other hashes read as before. *)
Theorem get_squeak_entry_missing (h : bytes) (db : Db) :
  (get_squeak_entry h db = None
   <-> forall s, In s (squeaks db) -> squeak.hash s <> h)
  /\ ((forall s, In s (squeaks db) -> squeak.hash s <> h) ->
      get_squeak_secret_key h db = None)
  /\ get_squeak_entry h (delete_squeak h db) = None
  /\ get_squeak_secret_key h (delete_squeak h db) = None
  /\ (forall h', h' <> h ->
        get_squeak_entry h' (delete_squeak h db) = get_squeak_entry h' db).
Proof.
  assert (Hdel : filter (fun s => bytes_eqb (squeak.hash s) h)
                        (squeaks (delete_squeak h db)) = []).
  { apply filter_none. intros s Hs. simpl in Hs. apply filter_In in Hs.
    destruct Hs as [_ Hs]. now apply negb_true_iff in Hs. }
  split; [|split; [|split; [|split]]].
  - rewrite get_squeak_entry_rows.
    destruct (filter (fun s => bytes_eqb (squeak.hash s) h) (squeaks db))
      as [|s rest] eqn:E.
    + split; auto. intros _ s Hs Hh.
      assert (Hin : In s []).
      { rewrite <- E. apply filter_In. split; auto.
        now apply bytes_eqb_eq. }
      contradiction.
    + assert (Hin : In s (s :: rest)) by now left.
      rewrite <- E in Hin. apply filter_In in Hin.
      destruct Hin as [Hin Hh]. apply bytes_eqb_eq in Hh.
      change (flat_map (outerjoin_profiles db) (s :: rest))
        with (outerjoin_profiles db s
              ++ flat_map (outerjoin_profiles db) rest).
      destruct (outerjoin_profiles db s) as [|row rows] eqn:Ej.
      * now apply outerjoin_profiles_nonempty in Ej.
      * simpl. split; [discriminate|]. intros Hn.
        now contradiction (Hn s Hin).
  - intros Hn. unfold get_squeak_secret_key.
    now rewrite (filter_hash_fresh _ _ Hn).
  - rewrite get_squeak_entry_rows, Hdel. reflexivity.
  - unfold get_squeak_secret_key. now rewrite Hdel.
  - intros h' Hh'. rewrite !get_squeak_entry_rows.
    replace (filter (fun s => bytes_eqb (squeak.hash s) h')
                    (squeaks (delete_squeak h db)))
      with (filter (fun s => bytes_eqb (squeak.hash s) h') (squeaks db));
      [reflexivity|].
    simpl. induction (squeaks db) as [|s l IH]; [reflexivity|].
    simpl. destruct (bytes_eqb (squeak.hash s) h) eqn:E1; simpl.
    + destruct (bytes_eqb (squeak.hash s) h') eqn:E2; auto.
      apply bytes_eqb_eq in E1, E2. congruence.
    + destruct (bytes_eqb (squeak.hash s) h'); simpl; now rewrite IH.
Qed.


(** ** Unlocking *)

Lemma filter_map_same_hash (h h' : bytes) (f : squeak.row -> squeak.row)
    (l : list squeak.row) :
  (forall s, squeak.hash (f s) = squeak.hash s) ->
  filter (fun s => bytes_eqb (squeak.hash s) h')
         (map (fun s => if bytes_eqb (squeak.hash s) h then f s else s) l)
  = map (fun s => if bytes_eqb (squeak.hash s) h then f s else s)
        (filter (fun s => bytes_eqb (squeak.hash s) h') l).
Proof.
  intros Hf. induction l as [|s l IH]; [reflexivity|]. simpl.
  assert (E : squeak.hash (if bytes_eqb (squeak.hash s) h then f s else s)
              = squeak.hash s)
    by (destruct (bytes_eqb (squeak.hash s) h); auto).
  rewrite E. destruct (bytes_eqb (squeak.hash s) h'); simpl; now rewrite IH.
Qed.

(** X3.  [set_squeak_decryption_key] on a stored hash makes the key read
    back, and the entry carry the content; the entry counts as unlocked
    exactly when the key is not the empty byte string.  On a hash that
    is not stored it changes nothing. *)
Theorem set_squeak_decryption_key_then_get (h k : bytes) (c : string)
    (db : Db) :
  ((exists s, In s (squeaks db) /\ squeak.hash s = h) ->
   get_squeak_secret_key h (set_squeak_decryption_key h k c db) = Some k
   /\ exists e,
        get_squeak_entry h (set_squeak_decryption_key h k c db) = Some e
        /\ squeak_hash e = h
        /\ entry_content e = Some c
        /\ is_unlocked e = match k with [] => false | _ :: _ => true end)
  /\ ((forall s, In s (squeaks db) -> squeak.hash s <> h) ->
      set_squeak_decryption_key h k c db = db).
Proof.
  split.
  - intros [s0 [Hs0 Hh0]].
    assert (Hrows : exists s rest,
              filter (fun s => bytes_eqb (squeak.hash s) h)
                     (squeaks (set_squeak_decryption_key h k c db))
              = set_secret_key_content (Some k) (Some c) s :: rest
              /\ squeak.hash s = h).
    { unfold set_squeak_decryption_key, update_squeak_where_hash.
      cbn [squeaks with_squeaks].
      rewrite filter_map_same_hash by reflexivity.
      destruct (filter (fun s => bytes_eqb (squeak.hash s) h) (squeaks db))
        as [|s rest] eqn:E.
      - exfalso.
        assert (Hin : In s0 []).
        { rewrite <- E. apply filter_In. split; auto.
          now apply bytes_eqb_eq. }
        contradiction.
      - assert (Hin : In s (s :: rest)) by now left.
        rewrite <- E in Hin. apply filter_In in Hin.
        destruct Hin as [_ Hh]. simpl. rewrite Hh.
        apply bytes_eqb_eq in Hh. eauto. }
    destruct Hrows as [s [rest [Hrows Hh]]]. split.
    + unfold get_squeak_secret_key. now rewrite Hrows.
    + rewrite get_squeak_entry_rows, Hrows.
      set (db' := set_squeak_decryption_key h k c db).
      set (s' := set_secret_key_content (Some k) (Some c) s).
      change (flat_map (outerjoin_profiles db') (s' :: rest))
        with (outerjoin_profiles db' s'
              ++ flat_map (outerjoin_profiles db') rest).
      destruct (outerjoin_profiles db' s') as [|row rows] eqn:Ej.
      * now apply outerjoin_profiles_nonempty in Ej.
      * assert (Hrow : fst row = s').
        { apply (outerjoin_profiles_fst db' s'). rewrite Ej. now left. }
        eexists. split; [reflexivity|].
        unfold _parse_squeak_entry.
        cbn [squeak_hash entry_content is_unlocked]. rewrite Hrow.
        subst s'. simpl. repeat split; auto; now destruct k.
  - intros Hn. unfold set_squeak_decryption_key, update_squeak_where_hash.
    rewrite map_unchanged; [apply with_squeaks_same|].
    intros s Hs. specialize (Hn s Hs). apply bytes_eqb_neq in Hn.
    now rewrite Hn.
Qed.

(** X4.  In a store with unique hashes an unlocked squeak stays
    unlocked through every write: whatever row is stored under its hash
    afterwards has a secret key. *)
Theorem unlocked_stays_unlocked (get_hash : CSqueak -> bytes)
    (op : store_op) (db : Db) (s : squeak.row) :
  wf_db db ->
  In s (squeaks db) ->
  squeak.secret_key s <> None ->
  forall s', In s' (squeaks (run_op get_hash op db)) ->
             squeak.hash s' = squeak.hash s ->
             squeak.secret_key s' <> None.
Proof.
  intros [Hnd _] Hs Hk s' Hs' Hh.
  assert (Hsame : forall s0, In s0 (squeaks db) ->
                             squeak.hash s0 = squeak.hash s -> s0 = s).
  { intros s0 H0 E.
    now apply (NoDup_map_inj squeak.hash (squeaks db)). }
  assert (Hupd : forall h (f : squeak.row -> squeak.row),
            (forall x, squeak.hash (f x) = squeak.hash x) ->
            (forall x, squeak.secret_key x <> None ->
                       squeak.secret_key (f x) <> None) ->
            In s' (squeaks (update_squeak_where_hash h f db)) ->
            squeak.secret_key s' <> None).
  { intros h f Hfh Hfk Hin. simpl in Hin. apply in_map_iff in Hin.
    destruct Hin as [s0 [E H0]].
    assert (E0 : squeak.hash s0 = squeak.hash s).
    { rewrite <- Hh, <- E.
      destruct (bytes_eqb (squeak.hash s0) h); auto. }
    rewrite (Hsame s0 H0 E0) in E. subst s'.
    destruct (bytes_eqb (squeak.hash s) h); auto. }
  destruct op; cbn [run_op] in Hs'.
  - unfold insert_squeak in Hs'. cbn [squeak.hash] in Hs'.
    destruct (existsb _ (squeaks db)) eqn:E; simpl in Hs'.
    + now rewrite (Hsame s' Hs' Hh).
    + apply in_app_or in Hs'. destruct Hs' as [Hs'|[Hs'|[]]].
      * now rewrite (Hsame s' Hs' Hh).
      * exfalso. apply not_true_iff_false in E. apply E.
        apply existsb_hash_iff. exists s. split; auto.
        rewrite <- Hh, <- Hs'. reflexivity.
  - apply (Hupd squeak_hash0
             (set_secret_key_content (Some secret_key) (Some content)));
      auto. intros x _. simpl. discriminate.
  - apply (Hupd squeak_hash0 (set_liked_time_ms (Some now_ms))); auto.
  - apply (Hupd squeak_hash0 (set_liked_time_ms None)); auto.
  - simpl in Hs'. apply filter_In in Hs'. destruct Hs' as [Hs' _].
    now rewrite (Hsame s' Hs' Hh).
  - unfold insert_profile in Hs'.
    destruct (existsb _ (profiles db)); simpl in Hs';
      now rewrite (Hsame s' Hs' Hh).
  - simpl in Hs'. now rewrite (Hsame s' Hs' Hh).
  - simpl in Hs'. now rewrite (Hsame s' Hs' Hh).
  - unfold insert_peer in Hs'.
    destruct (peer_host_port_taken _ _ db); simpl in Hs';
      now rewrite (Hsame s' Hs' Hh).
  - simpl in Hs'. now rewrite (Hsame s' Hs' Hh).
  - simpl in Hs'. now rewrite (Hsame s' Hs' Hh).
  - simpl in Hs'. now rewrite (Hsame s' Hs' Hh).
Qed.

(** X5.  Once [set_squeak_liked] has run on a hash, the retention sweep
    does not select that hash, however old the squeak and whoever its
    author; [set_squeak_unliked] is what takes the protection away. *)
Theorem liked_squeak_is_not_swept (like_ms now_ms interval_s : Z)
    (h : bytes) (db : Db) :
  ~ In h (get_old_squeaks_to_delete now_ms interval_s
            (set_squeak_liked like_ms h db))
  /\ (forall s, In s (squeaks (set_squeak_unliked h db)) ->
                squeak.hash s = h -> squeak.liked_time_ms s = None).
Proof.
  split.
  - intros Hin. unfold get_old_squeaks_to_delete in Hin.
    apply in_map_iff in Hin. destruct Hin as [[s op] [Hh Hin]].
    simpl in Hh. apply filter_In in Hin. destruct Hin as [Hin Hf].
    simpl in Hf. apply andb_true_iff in Hf. destruct Hf as [_ Hl].
    apply joined_In in Hin. destruct Hin as [Hs _].
    simpl in Hs. apply in_map_iff in Hs. destruct Hs as [s0 [E H0]].
    destruct (bytes_eqb (squeak.hash s0) h) eqn:Eh.
    + subst s. discriminate.
    + subst s. apply bytes_eqb_neq in Eh. contradiction.
  - intros s Hs Hh. simpl in Hs. apply in_map_iff in Hs.
    destruct Hs as [s0 [E H0]].
    destruct (bytes_eqb (squeak.hash s0) h) eqn:Eh.
    + subst s. reflexivity.
    + subst s. apply bytes_eqb_neq in Eh. contradiction.
Qed.


(** ** The other keyset listings *)

(** X6.  A page of [get_squeak_entries_for_address] holds only stored
    squeaks of the address asked for, each strictly below the last
    entry passed in; it is strictly decreasing in
    (block_height, squeak_time, hash) and has at most [limit] entries,
    and followed by the page asked for with its last entry it repeats
    no hash. *)
Theorem address_listing_pages (address_ : string) (limit : nat)
    (last_entry : option SqueakEntry) (db : Db) :
  wf_db db ->
  let page := get_squeak_entries_for_address address_ limit last_entry db in
  (forall e, In e page ->
     address e = address_
     /\ key_lt (entry_key e) (last_key last_entry)
     /\ exists s, In s (squeaks db) /\ squeak_hash e = squeak.hash s)
  /\ StronglySorted (before entry_key) page
  /\ (List.length page <= limit)%nat
  /\ (forall limit2 front e,
        page = front ++ [e] ->
        NoDup (map squeak_hash
                 (page ++ get_squeak_entries_for_address address_ limit2
                            (Some e) db))).
Proof.
  intros Hwf page.
  destruct (page_properties
              (fun r => String.eqb (squeak.author_address (fst r)) address_)
              limit last_entry db Hwf) as [Hin [Hs Hlen]].
  split; [|split; [exact Hs|split; [exact Hlen|]]].
  - intros e He. destruct (Hin e He) as [s [op [Hj [Hw [Hp Hk]]]]].
    simpl in Hw. apply String.eqb_eq in Hw.
    apply joined_In in Hj. destruct Hj as [Hsq _].
    subst e. repeat split; auto. exists s. auto.
  - intros limit2 front e Hpage.
    exact (proj1 (proj2 (successive_pages _ limit limit2 last_entry db
                           front e Hwf Hpage))).
Qed.

(** X7.  A page of [get_thread_reply_squeak_entries] holds only stored
    squeaks whose [hash_reply_sqk] is the hash asked for; with the same
    bound, order and limit as the other listings. *)
Theorem reply_listing_pages (squeak_hash_ : bytes) (limit : nat)
    (last_entry : option SqueakEntry) (db : Db) :
  wf_db db ->
  let page := get_thread_reply_squeak_entries squeak_hash_ limit
                                              last_entry db in
  (forall e, In e page ->
     key_lt (entry_key e) (last_key last_entry)
     /\ exists s, In s (squeaks db)
                  /\ squeak_hash e = squeak.hash s
                  /\ squeak.hash_reply_sqk s = Some squeak_hash_
                  /\ reply_to e = match squeak_hash_ with
                                  | [] => None
                                  | _ :: _ => Some squeak_hash_
                                  end)
  /\ StronglySorted (before entry_key) page
  /\ (List.length page <= limit)%nat
  /\ (forall limit2 front e,
        page = front ++ [e] ->
        NoDup (map squeak_hash
                 (page ++ get_thread_reply_squeak_entries squeak_hash_ limit2
                            (Some e) db))).
Proof.
  intros Hwf page.
  destruct (page_properties (replies_to squeak_hash_) limit last_entry db
              Hwf) as [Hin [Hs Hlen]].
  split; [|split; [exact Hs|split; [exact Hlen|]]].
  - intros e He. destruct (Hin e He) as [s [op [Hj [Hw [Hp Hk]]]]].
    unfold replies_to in Hw. simpl in Hw.
    destruct (squeak.hash_reply_sqk s) as [x|] eqn:Er; [|discriminate].
    apply bytes_eqb_eq in Hw. subst x.
    apply joined_In in Hj. destruct Hj as [Hsq _].
    split; auto. exists s. subst e.
    unfold _parse_squeak_entry. simpl. rewrite Er.
    repeat split; auto. now destruct squeak_hash_.
  - intros limit2 front e Hpage.
    exact (proj1 (proj2 (successive_pages _ limit limit2 last_entry db
                           front e Hwf Hpage))).
Qed.

Lemma sorted_split {A : Type} (R : A -> A -> Prop) (l1 l2 : list A)
    (a b : A) :
  StronglySorted R (l1 ++ l2) -> In a l1 -> In b l2 -> R a b.
Proof.
  induction l1 as [|x l1 IH]; simpl; intros Hs Ha Hb; [contradiction|].
  inversion Hs as [|y m Hm Hy]; subst.
  destruct Ha as [Ha|Ha]; auto.
  subst x. rewrite Forall_forall in Hy. apply Hy.
  apply in_or_app. now right.
Qed.

Lemma firstn_short {A : Type} (n : nat) (l : list A) :
  skipn n l <> [] -> List.length (firstn n l) = n.
Proof.
  revert l. induction n as [|n IH]; intros [|x l]; simpl; auto;
    intros H; try (now contradiction H); try (f_equal; now apply IH).
Qed.

(** No row is skipped by a page: a row the listing's SELECT accepts is
    on the page, or the page is full and the row lies strictly below
    all of it. *)
Lemma select_page_no_gap (where_ : joined -> bool) (limit : nat)
    (last_entry : option SqueakEntry) (db : Db) (r : joined) :
  wf_db db ->
  In r (squeaks_outerjoin_profiles db) ->
  where_ r = true ->
  key_lt (row_key (fst r)) (last_key last_entry) ->
  let page := select_page where_ limit last_entry db in
  In r page
  \/ (List.length page = limit
      /\ forall x, In x page ->
                   key_lt (row_key (fst r)) (row_key (fst x))).
Proof.
  intros Hwf Hr Hw Hk page. subst page. unfold select_page.
  set (all := order_by_desc key_ltb (fun r0 : joined => row_key (fst r0))
                (filter (fun r0 : joined =>
                           where_ r0
                           && key_ltb (row_key (fst r0)) (last_key last_entry))
                        (squeaks_outerjoin_profiles db))).
  assert (Hall : In r all).
  { subst all. apply order_by_desc_In. apply filter_In. split; auto.
    rewrite Hw. simpl. now apply key_ltb_lt. }
  assert (Hsorted : StronglySorted
                      (before (fun r0 : joined => row_key (fst r0))) all).
  { subst all. apply order_by_desc_sorted. apply NoDup_map_filter.
    now apply joined_keys_NoDup. }
  rewrite <- (firstn_skipn limit all) in Hall, Hsorted.
  apply in_app_or in Hall. destruct Hall as [Hall|Hall]; [now left|].
  right. split.
  - apply firstn_short. intros E. rewrite E in Hall. contradiction.
  - intros x Hx. exact (sorted_split _ _ _ _ _ Hsorted Hx Hall).
Qed.

(** X8.  The timeline skips nothing: a stored squeak of a followed
    profile that lies below the last entry passed in is on the page, or
    the page is full and the squeak lies strictly below every entry of
    it, where the next page will look.  So a page shorter than [limit]
    holds all that is left. *)
Theorem timeline_pages_leave_no_gap (limit : nat)
    (last_entry : option SqueakEntry) (db : Db)
    (s : squeak.row) (p : profile.row) :
  wf_db db ->
  In s (squeaks db) ->
  In p (profiles db) ->
  profile.address p = squeak.author_address s ->
  profile.following p = true ->
  key_lt (row_key s) (last_key last_entry) ->
  let page := get_timeline_squeak_entries limit last_entry db in
  In (_parse_squeak_entry (s, Some p)) page
  \/ (List.length page = limit
      /\ forall e, In e page -> key_lt (row_key s) (entry_key e)).
Proof.
  intros Hwf Hs Hp Ha Hf Hk page.
  assert (Hj : In (s, Some p) (squeaks_outerjoin_profiles db)).
  { apply joined_In. auto. }
  assert (Hw : profile_is_following (s, Some p) = true).
  { unfold profile_is_following. simpl. now rewrite Hf. }
  destruct (select_page_no_gap profile_is_following limit last_entry db
              (s, Some p) Hwf Hj Hw Hk) as [Hin|[Hlen Hbelow]].
  - left. subst page. unfold get_timeline_squeak_entries.
    now apply in_map.
  - right. subst page. unfold get_timeline_squeak_entries.
    rewrite length_map. split; auto.
    intros e He. apply in_map_iff in He. destruct He as [x [Hx Hin]].
    subst e. rewrite entry_key_parse. now apply Hbelow.
Qed.


(** ** Liked squeaks *)

(** The order on [(liked_time_ms, hash)] is the order on triples with a
    constant in front. *)
Lemma pair_ltb_key (a b : liked_key) :
  pair_ltb a b = key_ltb (0, fst a, snd a) (0, fst b, snd b).
Proof. reflexivity. Qed.

Lemma order_by_desc_ext {A K1 K2 : Type} (ltb1 : K1 -> K1 -> bool)
    (ltb2 : K2 -> K2 -> bool) (k1 : A -> K1) (k2 : A -> K2) (l : list A) :
  (forall x y, ltb1 (k1 x) (k1 y) = ltb2 (k2 x) (k2 y)) ->
  order_by_desc ltb1 k1 l = order_by_desc ltb2 k2 l.
Proof.
  intros H.
  assert (Hins : forall x m, insert_desc ltb1 k1 x m = insert_desc ltb2 k2 x m).
  { intros x m. induction m as [|y m IH]; simpl; auto.
    rewrite H, IH. reflexivity. }
  induction l as [|x l IH]; simpl; auto. now rewrite IH, Hins.
Qed.

Lemma liked_rows_In (db : Db) (t : Z) (r : joined) :
  In (t, r) (liked_rows db)
  <-> In r (squeaks_outerjoin_profiles db)
      /\ squeak.liked_time_ms (fst r) = Some t.
Proof.
  unfold liked_rows. rewrite in_flat_map. split.
  - intros [r0 [Hr0 Hin]].
    destruct (squeak.liked_time_ms (fst r0)) eqn:E; simpl in Hin;
      [|contradiction].
    destruct Hin as [Hin|[]]. inversion Hin; subst. auto.
  - intros [Hr Hl]. exists r. split; auto. rewrite Hl. now left.
Qed.

Lemma liked_rows_hashes (db : Db) :
  wf_db db ->
  NoDup (map (fun tr : Z * joined => squeak.hash (fst (snd tr)))
             (liked_rows db)).
Proof.
  intros [Hsq Hpr].
  assert (Hk : NoDup (map (fun r : joined => squeak.hash (fst r))
                          (squeaks_outerjoin_profiles db))).
  { rewrite <- (map_map fst squeak.hash), (map_fst_joined db Hpr).
    exact Hsq. }
  revert Hk. unfold liked_rows.
  induction (squeaks_outerjoin_profiles db) as [|r l IH];
    intros Hk; [constructor|].
  simpl in Hk. inversion Hk as [|x m Hx Hl]; subst.
  change (flat_map ?f (r :: l)) with (f r ++ flat_map f l). cbv beta.
  destruct (squeak.liked_time_ms (fst r)) as [t|]; simpl; auto.
  constructor; auto.
  intros Hin. apply Hx. apply in_map_iff in Hin.
  destruct Hin as [[t' r'] [Hh Hin]]. simpl in Hh.
  apply in_flat_map in Hin. destruct Hin as [r0 [Hr0 Hin]].
  destruct (squeak.liked_time_ms (fst r0)); simpl in Hin; [|contradiction].
  destruct Hin as [Hin|[]]. inversion Hin; subst.
  apply in_map_iff. exists r'. auto.
Qed.

(** X9.  A page of [get_liked_squeak_entries] holds only stored, liked
    squeaks, each with its (liked_time_ms, hash) strictly below that of
    the last entry passed in, or below (now, MAX_HASH) when none is; it
    is strictly decreasing in (liked_time_ms, hash) and has at most
    [limit] entries.  A last entry that is not liked gives an empty
    page. *)
Theorem liked_listing_pages (now_ms : Z) (limit : nat)
    (last_entry : option SqueakEntry) (db : Db) :
  wf_db db ->
  let page := get_liked_squeak_entries now_ms limit last_entry db in
  (forall e, In e page ->
     exists t s,
       In s (squeaks db)
       /\ squeak_hash e = squeak.hash s
       /\ squeak.liked_time_ms s = Some t
       /\ entry_liked_time_ms e = Some t
       /\ match last_entry with
          | Some l =>
              exists bound,
                entry_liked_time_ms l = Some bound
                /\ pair_compare (t, squeak_hash e) (bound, squeak_hash l) = Lt
          | None => pair_compare (t, squeak_hash e) (now_ms, MAX_HASH) = Lt
          end)
  /\ StronglySorted liked_before page
  /\ (List.length page <= limit)%nat
  /\ (forall l, last_entry = Some l -> entry_liked_time_ms l = None ->
                page = []).
Proof.
  intros Hwf page. subst page. unfold get_liked_squeak_entries.
  set (bound := match last_entry with
                | Some e => entry_liked_time_ms e
                | None => Some now_ms
                end).
  set (last_hash := match last_entry with
                    | Some e => squeak_hash e
                    | None => MAX_HASH
                    end).
  set (k := fun tr : Z * joined => (fst tr, squeak.hash (fst (snd tr)))).
  set (accepted := filter (fun tr : Z * joined =>
                             match bound with
                             | Some b => pair_ltb (k tr) (b, last_hash)
                             | None => false
                             end)
                          (liked_rows db)).
  set (k3 := fun tr : Z * joined => (0, fst tr, squeak.hash (fst (snd tr)))).
  assert (Hsort : order_by_desc pair_ltb k accepted
                  = order_by_desc key_ltb k3 accepted).
  { apply order_by_desc_ext. intros x y. apply pair_ltb_key. }
  assert (Hsorted : StronglySorted (before k3)
                      (firstn limit (order_by_desc pair_ltb k accepted))).
  { rewrite Hsort. apply sorted_firstn. apply order_by_desc_sorted.
    apply (NoDup_map_outer k3 snd). subst accepted.
    apply (NoDup_map_filter (fun tr : Z * joined => snd (k3 tr))).
    exact (liked_rows_hashes db Hwf). }
  assert (Hrow : forall tr,
            In tr (firstn limit (order_by_desc pair_ltb k accepted)) ->
            In tr accepted).
  { intros tr H. apply In_firstn in H. now apply order_by_desc_In in H. }
  split; [|split; [|split]].
  - intros e He.
    change (In e (map (fun tr : Z * joined => _parse_squeak_entry (snd tr))
                      (firstn limit (order_by_desc pair_ltb k accepted))))
      in He.
    apply in_map_iff in He. destruct He as [[t r] [He Hin]].
    apply Hrow in Hin. subst accepted. apply filter_In in Hin.
    destruct Hin as [Hin Hb]. apply liked_rows_In in Hin.
    destruct Hin as [Hj Hl]. destruct r as [s op].
    apply joined_In in Hj. destruct Hj as [Hs _].
    exists t, s. subst e. simpl in *. repeat split; auto.
    subst bound last_hash k. simpl in Hb.
    destruct last_entry as [l|].
    + destruct (entry_liked_time_ms l) as [b|]; [|discriminate].
      exists b. split; auto. unfold pair_ltb in Hb.
      destruct (pair_compare _ _); try discriminate. reflexivity.
    + unfold pair_ltb in Hb.
      destruct (pair_compare _ _); try discriminate. reflexivity.
  - assert (Hliked : forall tr,
              In tr (firstn limit (order_by_desc pair_ltb k accepted)) ->
              squeak.liked_time_ms (fst (snd tr)) = Some (fst tr)).
    { intros [t r] H. apply Hrow in H. subst accepted.
      apply filter_In in H. destruct H as [H _].
      now apply liked_rows_In in H. }
    change (StronglySorted liked_before
              (map (fun tr : Z * joined => _parse_squeak_entry (snd tr))
                   (firstn limit (order_by_desc pair_ltb k accepted)))).
    induction Hsorted as [|x l Hs IH Hx]; simpl; constructor.
    + apply IH.
      * intros tr H. apply Hrow. now right.
      * intros tr H. apply Hliked. now right.
    + rewrite Forall_forall in *. intros e He.
      apply in_map_iff in He. destruct He as [y [He Hy]]. subst e.
      exists (fst x), (fst y). simpl.
      rewrite (Hliked x) by now left.
      rewrite (Hliked y) by now right.
      repeat split. exact (Hx y Hy).
  - rewrite length_map. apply firstn_length_le.
  - intros l Hl Hn.
    change (map (fun tr : Z * joined => _parse_squeak_entry (snd tr))
                (firstn limit (order_by_desc pair_ltb k accepted)) = []).
    assert (E : accepted = []).
    { subst accepted bound. rewrite Hl, Hn. now apply filter_none. }
    rewrite E. now destruct limit.
Qed.


(** ** Thread ancestors are the reply chain *)

Lemma ancestors_step_mono (db : Db) (w : list ancestor) (a x : ancestor) :
  In a w -> In x (ancestors_step db [a]) -> In x (ancestors_step db w).
Proof.
  intros Ha Hx. apply ancestors_step_In in Hx.
  destruct Hx as [a0 [s [[E|[]] H]]]. subst a0.
  apply ancestors_step_In. exists a, s. tauto.
Qed.

(** What the CTE holds once it has finished: the rows it started from,
    and with a row every row the recursive term derives from it. *)
Lemma ancestors_cte_closed (db : Db) (fuel : nat) :
  forall w res,
    ancestors_cte fuel db w = Some res ->
    (forall a, In a w -> In a res)
    /\ (forall a x, In a res -> In x (ancestors_step db [a]) -> In x res).
Proof.
  induction fuel as [|fuel IH]; intros w res; simpl.
  - destruct w; [|discriminate]. intros H. inversion H; subst.
    split; intros; contradiction.
  - destruct w as [|a0 w]; [intros H; inversion H; subst;
                            split; intros; contradiction|].
    destruct (ancestors_cte fuel db (ancestors_step db (a0 :: w)))
      as [rest|] eqn:E; [|discriminate].
    intros H. inversion H; subst. clear H.
    destruct (IH _ _ E) as [H1 H2]. split.
    + intros a Ha. apply (in_or_app (a0 :: w) rest). now left.
    + intros a x Ha Hx. apply (in_or_app (a0 :: w) rest). right.
      apply (in_app_or (a0 :: w) rest) in Ha. destruct Ha as [Ha|Ha].
      * apply H1. exact (ancestors_step_mono db _ a x Ha Hx).
      * exact (H2 a x Ha Hx).
Qed.

Lemma ancestors_cte_invariant (db : Db) (P : ancestor -> Prop) :
  (forall a x, P a -> In x (ancestors_step db [a]) -> P x) ->
  forall fuel w res,
    ancestors_cte fuel db w = Some res ->
    (forall a, In a w -> P a) ->
    forall a, In a res -> P a.
Proof.
  intros Hstep fuel. induction fuel as [|fuel IH]; intros w res; simpl.
  - destruct w; [|discriminate]. intros H. inversion H; subst.
    intros _ a [].
  - destruct w as [|a0 w]; [intros H; inversion H; subst; intros _ a []|].
    destruct (ancestors_cte fuel db (ancestors_step db (a0 :: w)))
      as [rest|] eqn:E; [|discriminate].
    intros H Hw a Ha. inversion H; subst. clear H.
    apply (in_app_or (a0 :: w) rest) in Ha.
    destruct Ha as [Ha|Ha]; [now apply Hw|].
    apply (IH _ _ E); auto.
    intros x Hx. apply ancestors_step_In in Hx.
    destruct Hx as [b [s [Hb [Hs [Hf Hx]]]]].
    apply (Hstep b); [now apply Hw|].
    apply ancestors_step_In. exists b, s. simpl. tauto.
Qed.

Lemma reply_ancestor_start (db : Db) (h h' : bytes) :
  reply_ancestor db h h' ->
  h' = h \/ exists s, In s (squeaks db) /\ squeak.hash s = h.
Proof.
  induction 1 as [|s r Hprev IH Hs Hr]; auto.
  right. destruct IH as [E|IH]; eauto.
Qed.

Lemma join_ancestors_In (db : Db) (anc : list ancestor) (j : joined)
    (d : Z) :
  In (j, d) (join_ancestors db anc)
  <-> In (fst j) (squeaks db)
      /\ In j (outerjoin_profiles db (fst j))
      /\ In (Some (squeak.hash (fst j)), d) anc.
Proof.
  unfold join_ancestors. rewrite in_flat_map. split.
  - intros [s [Hs Hin]]. apply in_flat_map in Hin.
    destruct Hin as [[ah ad] [Ha Hin]]. simpl in Hin.
    destruct (hash_matches ah (squeak.hash s)) eqn:E; [|contradiction].
    apply in_map_iff in Hin. destruct Hin as [j0 [Hj Hin]].
    inversion Hj; subst.
    rewrite (outerjoin_profiles_fst db s j Hin).
    unfold hash_matches in E. destruct ah as [x|]; [|discriminate].
    apply bytes_eqb_eq in E. subst x. auto.
  - intros [Hs [Hj Ha]]. exists (fst j). split; auto.
    apply in_flat_map. exists (Some (squeak.hash (fst j)), d).
    split; auto. simpl. rewrite bytes_eqb_refl.
    apply in_map_iff. exists j. auto.
Qed.

Lemma join_ancestors_nil (db : Db) : join_ancestors db [] = [].
Proof.
  unfold join_ancestors. induction (squeaks db) as [|s l IH]; simpl; auto.
Qed.

(** When the ancestor query returns, the hashes of its entries are
    exactly the stored squeaks reached from the given hash along reply
    links. *)
Lemma ancestors_entries_reached (fuel : nat) (h : bytes) (db : Db)
    (entries : list SqueakEntry) :
  get_thread_ancestor_squeak_entries fuel h db = Some entries ->
  forall h',
    (exists e, In e entries /\ squeak_hash e = h')
    <-> reply_ancestor db h h'
        /\ exists s, In s (squeaks db) /\ squeak.hash s = h'.
Proof.
  unfold get_thread_ancestor_squeak_entries.
  destruct (ancestors_cte fuel db (ancestors_base h db)) as [anc|] eqn:E;
    [|discriminate].
  intros H. inversion H; subst. clear H.
  destruct (ancestors_cte_closed db fuel _ _ E) as [Hbase Hclosed].
  assert (Hsound : forall a, In a anc ->
            match fst a with
            | Some x => reply_ancestor db h x
            | None => True
            end).
  { apply (ancestors_cte_invariant db _) with (fuel := fuel)
      (w := ancestors_base h db); auto.
    - intros a x Pa Hx. apply ancestors_step_In in Hx.
      destruct Hx as [b [s [[Hb|[]] [Hs [Hf Hx]]]]]. subst b x. simpl.
      rewrite Hf in Pa.
      destruct (squeak.hash_reply_sqk s) eqn:Er; auto.
      now apply (ancestor_parent db h s).
    - intros a Ha. unfold ancestors_base in Ha. apply in_map_iff in Ha.
      destruct Ha as [s [Ha Hs]]. apply filter_In in Hs.
      destruct Hs as [_ Hs]. apply bytes_eqb_eq in Hs. subst a. simpl.
      rewrite Hs. constructor. }
  assert (Hcomplete : forall h', reply_ancestor db h h' ->
            (exists s, In s (squeaks db) /\ squeak.hash s = h) ->
            exists d, In (Some h', d) anc).
  { intros h' Hr Hst. induction Hr as [|s r Hprev IH Hs Hr].
    - destruct Hst as [s [Hs Hh]]. exists 0. apply Hbase.
      unfold ancestors_base. apply in_map_iff. exists s. split.
      + now rewrite Hh.
      + apply filter_In. split; auto. now apply bytes_eqb_eq.
    - destruct IH as [d Hd]. exists (d + 1).
      apply (Hclosed (Some (squeak.hash s), d)); auto.
      apply ancestors_step_In. exists (Some (squeak.hash s), d), s.
      simpl. rewrite Hr. tauto. }
  intros h'. split.
  - intros [e [He Hh]]. apply in_map_iff in He.
    destruct He as [[j d] [He Hin]]. apply order_by_desc_In in Hin.
    apply join_ancestors_In in Hin. destruct Hin as [Hs [_ Ha]].
    subst e h'. simpl. split; eauto.
    exact (Hsound _ Ha).
  - intros [Hr [s [Hs Hh]]].
    assert (Hst : exists s0, In s0 (squeaks db) /\ squeak.hash s0 = h).
    { destruct (reply_ancestor_start db h h' Hr) as [Eh|Hst]; auto.
      exists s. split; auto. congruence. }
    destruct (Hcomplete h' Hr Hst) as [d Hd].
    destruct (outerjoin_profiles db s) as [|j js] eqn:Ej.
    + now apply outerjoin_profiles_nonempty in Ej.
    + assert (Hj : In j (outerjoin_profiles db s))
        by (rewrite Ej; now left).
      pose proof (outerjoin_profiles_fst db s j Hj) as Hf.
      exists (_parse_squeak_entry j). split.
      * apply in_map_iff. exists (j, d). split; auto.
        apply order_by_desc_In. apply join_ancestors_In.
        rewrite Hf. repeat split; auto. now rewrite Hh.
      * simpl. now rewrite Hf.
Qed.

Lemma ancestors_of_unstored (h : bytes) (db : Db) :
  (forall s, In s (squeaks db) -> squeak.hash s <> h) ->
  forall fuel, get_thread_ancestor_squeak_entries fuel h db = Some [].
Proof.
  intros Hn fuel. unfold get_thread_ancestor_squeak_entries.
  assert (Hb : ancestors_base h db = []).
  { unfold ancestors_base. now rewrite (filter_hash_fresh _ _ Hn). }
  rewrite Hb.
  replace (ancestors_cte fuel db []) with (Some (@nil ancestor))
    by (destruct fuel; reflexivity).
  now rewrite (join_ancestors_nil db).
Qed.

(** X10.  Whenever the ancestor query returns, the hashes of its
    entries are exactly the stored squeaks reached from the given hash
    along reply links, the squeak itself included.  It does return,
    with such entries, within [n + 1] rounds when no chain of [n] reply
    links starts at the hash; and for a hash that is not stored it
    returns the empty list at once, whatever the rounds granted. *)
Theorem ancestors_are_the_reply_chain (h : bytes) (db : Db) :
  (forall fuel entries,
      get_thread_ancestor_squeak_entries fuel h db = Some entries ->
      forall h',
        (exists e, In e entries /\ squeak_hash e = h')
        <-> reply_ancestor db h h'
            /\ exists s, In s (squeaks db) /\ squeak.hash s = h')
  /\ (forall n,
        ~ reply_chain db n h ->
        exists entries,
          get_thread_ancestor_squeak_entries (S n) h db = Some entries
          /\ forall h',
               (exists e, In e entries /\ squeak_hash e = h')
               <-> reply_ancestor db h h'
                   /\ exists s, In s (squeaks db) /\ squeak.hash s = h')
  /\ ((forall s, In s (squeaks db) -> squeak.hash s <> h) ->
      forall fuel, get_thread_ancestor_squeak_entries fuel h db = Some []).
Proof.
  split; [|split].
  - intros fuel entries. apply ancestors_entries_reached.
  - intros n Hn.
    assert (Hne : get_thread_ancestor_squeak_entries (S n) h db <> None).
    { apply get_thread_ancestor_none. now apply ancestors_cte_chain. }
    destruct (get_thread_ancestor_squeak_entries (S n) h db)
      as [entries|] eqn:E; [|contradiction].
    exists entries. split; [reflexivity|].
    now apply (ancestors_entries_reached (S n)).
  - apply ancestors_of_unstored.
Qed.


(** ** Lookup and counts *)

Lemma filter_hash_unique (l : list squeak.row) (s : squeak.row) :
  NoDup (map squeak.hash l) -> In s l ->
  filter (fun x => bytes_eqb (squeak.hash x) (squeak.hash s)) l = [s].
Proof.
  induction l as [|x l IH]; simpl; intros Hnd Hs; [contradiction|].
  inversion Hnd as [|y m Hx Hl]; subst.
  destruct Hs as [Hs|Hs].
  - subst x. rewrite bytes_eqb_refl. f_equal.
    apply filter_none. intros z Hz. apply bytes_eqb_neq. intros E.
    apply Hx. rewrite <- E. now apply in_map.
  - destruct (bytes_eqb (squeak.hash x) (squeak.hash s)) eqn:E.
    + exfalso. apply bytes_eqb_eq in E. apply Hx. rewrite E.
      now apply in_map.
    + now apply IH.
Qed.

(** X11.  In a store with unique hashes [lookup_squeaks] returns no hash
    twice, and without [include_locked] it returns exactly those hashes
    of the lookup with [include_locked] whose secret key reads as
    present. *)
Theorem lookup_squeaks_locked_filter (addresses : list string)
    (min_block max_block : Z) (reply_to_hash : option bytes) (db : Db) :
  wf_db db ->
  (forall include_locked,
      NoDup (lookup_squeaks addresses min_block max_block reply_to_hash
                            include_locked db))
  /\ (forall h,
        In h (lookup_squeaks addresses min_block max_block reply_to_hash
                             false db)
        <-> In h (lookup_squeaks addresses min_block max_block reply_to_hash
                                 true db)
            /\ get_squeak_secret_key h db <> None).
Proof.
  intros [Hsq _]. split.
  - intros include_locked. unfold lookup_squeaks.
    apply (Permutation_NoDup
             (Permutation_map squeak.hash
                (Permutation_sym (order_by_desc_perm key_ltb row_key _)))).
    repeat match goal with
           | |- NoDup (map _ (if ?c then _ else _)) => destruct c
           | |- NoDup (map _ (filter _ _)) => apply NoDup_map_filter
           | |- NoDup (map _ (match ?a with [] => _ | _ :: _ => _ end)) =>
               destruct a
           end; exact Hsq.
  - intros h. rewrite !lookup_squeaks_In. split.
    + intros [s [Hs [Hh [Ha [Hmn [Hmx [Hr Hl]]]]]]]. split.
      * exists s. repeat split; auto. now left.
      * destruct Hl as [Hl|Hl]; [discriminate|].
        unfold get_squeak_secret_key. subst h.
        now rewrite (filter_hash_unique _ s Hsq Hs).
    + intros [[s [Hs [Hh [Ha [Hmn [Hmx [Hr _]]]]]]] Hk].
      exists s. repeat split; auto. right.
      unfold get_squeak_secret_key in Hk. subst h.
      now rewrite (filter_hash_unique _ s Hsq Hs) in Hk.
Qed.

Lemma filter_length_le {A : Type} (f : A -> bool) (l : list A) :
  (List.length (filter f l) <= List.length l)%nat.
Proof.
  induction l as [|x l IH]; simpl; auto. destruct (f x); simpl; lia.
Qed.

(** X12.  The count of an author's squeaks in a block range with both
    ends equal is the count at that block; it is zero for a range whose
    lower end is above its upper end, and never above the number of
    squeaks stored.  With both bounds non-zero it is the number of
    hashes [lookup_squeaks] returns for that author and range, locked
    squeaks included; the count takes a bound of 0 as block height 0. *)
Theorem squeak_counts (address_ : string) (min_block max_block : Z)
    (db : Db) :
  (forall block_height,
      number_of_squeaks_with_address_in_block_range address_ block_height
                                                    block_height db
      = number_of_squeaks_with_address_with_block address_ block_height db)
  /\ (max_block < min_block ->
      number_of_squeaks_with_address_in_block_range address_ min_block
                                                    max_block db = 0)
  /\ 0 <= number_of_squeaks_with_address_in_block_range address_ min_block
                                                        max_block db
       <= get_number_of_squeaks db
  /\ (min_block <> 0 -> max_block <> 0 ->
      Z.of_nat (List.length
                  (lookup_squeaks [address_] min_block max_block None true db))
      = number_of_squeaks_with_address_in_block_range address_ min_block
                                                      max_block db).
Proof.
  split; [|split; [|split]].
  - intros bh.
    unfold number_of_squeaks_with_address_in_block_range,
      number_of_squeaks_with_address_with_block.
    do 2 f_equal. apply filter_ext. intros s.
    destruct (String.eqb (squeak.author_address s) address_); simpl; auto.
    destruct (Z.leb_spec bh (squeak.n_block_height s));
      destruct (Z.leb_spec (squeak.n_block_height s) bh);
      destruct (Z.eqb_spec (squeak.n_block_height s) bh); simpl; auto; lia.
  - intros Hlt. unfold number_of_squeaks_with_address_in_block_range.
    rewrite filter_none; [reflexivity|]. intros s _.
    destruct (String.eqb (squeak.author_address s) address_); simpl; auto.
    destruct (Z.leb_spec min_block (squeak.n_block_height s));
      destruct (Z.leb_spec (squeak.n_block_height s) max_block);
      simpl; auto; lia.
  - unfold number_of_squeaks_with_address_in_block_range,
      get_number_of_squeaks.
    pose proof (filter_length_le
      (fun s => String.eqb (squeak.author_address s) address_
                && (min_block <=? squeak.n_block_height s)
                && (squeak.n_block_height s <=? max_block)) (squeaks db)).
    lia.
  - intros Hmin Hmax.
    unfold lookup_squeaks, number_of_squeaks_with_address_in_block_range.
    apply Z.eqb_neq in Hmin, Hmax. rewrite Hmin, Hmax. simpl.
    rewrite length_map.
    rewrite (Permutation_length (order_by_desc_perm key_ltb row_key _)).
    f_equal. induction (squeaks db) as [|s l IH]; [reflexivity|].
    simpl. rewrite orb_false_r.
    destruct (String.eqb (squeak.author_address s) address_) eqn:Ea;
      simpl; auto.
    destruct (min_block <=? squeak.n_block_height s); simpl; auto.
    destruct (squeak.n_block_height s <=? max_block); simpl; auto.
Qed.

(** X13.  [insert_squeak] returns a hash exactly when it has added a
    row: the number of squeaks grows by one then, and stays as it was
    when [None] is returned. *)
Theorem insert_squeak_counts (get_hash : CSqueak -> bytes) (now_ms : Z)
    (sq : CSqueak) (hdr : CBlockHeader) (db : Db) :
  get_number_of_squeaks (fst (insert_squeak get_hash now_ms sq hdr db))
  = get_number_of_squeaks db
    + match snd (insert_squeak get_hash now_ms sq hdr db) with
      | Some _ => 1
      | None => 0
      end.
Proof.
  unfold insert_squeak, get_number_of_squeaks. cbn [squeak.hash].
  destruct (existsb _ (squeaks db)); simpl; [lia|].
  rewrite length_app. simpl. lia.
Qed.


(** * More properties: profiles *)

Lemma filter_key_unique {A K : Type} (key : A -> K) (eqb : K -> K -> bool)
    (l : list A) (k : K) :
  (forall a b, eqb a b = true <-> a = b) ->
  NoDup (map key l) ->
  (List.length (filter (fun x => eqb (key x) k) l) <= 1)%nat.
Proof.
  intros Heq. induction l as [|x l IH]; simpl; intros Hnd; [lia|].
  inversion Hnd as [|y m Hx Hl]; subst.
  destruct (eqb (key x) k) eqn:E; auto. simpl.
  rewrite filter_none; [simpl; lia|].
  intros z Hz. destruct (eqb (key z) k) eqn:Ez; auto.
  exfalso. apply Heq in E, Ez. apply Hx. rewrite E, <- Ez.
  now apply in_map.
Qed.

(** X14.  [insert_profile] of a profile whose name or whose address a
    stored profile already has raises [IntegrityError] and writes
    nothing. *)
Theorem insert_profile_duplicate (now_ms : Z) (squeak_profile_ : SqueakProfile)
    (db : Db) (p : profile.row) :
  In p (profiles db) ->
  profile.profile_name p = prof_profile_name squeak_profile_
  \/ profile.address p = prof_address squeak_profile_ ->
  insert_profile now_ms squeak_profile_ db = (db, inl IntegrityError).
Proof.
  intros Hp Hdup. unfold insert_profile.
  assert (E : existsb (fun p0 =>
                String.eqb (profile.profile_name p0)
                           (prof_profile_name squeak_profile_)
                || String.eqb (profile.address p0)
                              (prof_address squeak_profile_))
                (profiles db) = true).
  { apply existsb_exists. exists p. split; auto. apply orb_true_iff.
    destruct Hdup as [H|H]; [left|right]; now apply String.eqb_eq. }
  now rewrite E.
Qed.

(** X15.  [insert_profile] of a profile with a new name and a new
    address returns the next id of the counter, and the profile reads
    back by address and by name, and by the id when no stored id is
    above the counter: with that id, the name, address and following
    flag given, custom pricing off at 0 msat, no image, and with no
    private key when the key given is the empty byte string. *)
Theorem insert_profile_then_get (now_ms : Z) (squeak_profile_ : SqueakProfile)
    (db : Db) :
  (forall p, In p (profiles db) ->
     profile.profile_name p <> prof_profile_name squeak_profile_
     /\ profile.address p <> prof_address squeak_profile_) ->
  let id := profile_seq db + 1 in
  let db1 := fst (insert_profile now_ms squeak_profile_ db) in
  snd (insert_profile now_ms squeak_profile_ db) = inr id
  /\ get_profile_by_address (prof_address squeak_profile_) db1
     = Some (stored_profile id squeak_profile_)
  /\ get_profile_by_name (prof_profile_name squeak_profile_) db1
     = Some (stored_profile id squeak_profile_)
  /\ ((forall p, In p (profiles db) -> profile.profile_id p <= profile_seq db)
      -> get_profile id db1 = Some (stored_profile id squeak_profile_))
  /\ squeaks db1 = squeaks db.
Proof.
  intros Hfresh id db1.
  assert (E : existsb (fun p0 =>
                String.eqb (profile.profile_name p0)
                           (prof_profile_name squeak_profile_)
                || String.eqb (profile.address p0)
                              (prof_address squeak_profile_))
                (profiles db) = false).
  { apply not_true_is_false. intros H. apply existsb_exists in H.
    destruct H as [p [Hp H]]. destruct (Hfresh p Hp) as [Hn Ha].
    apply orb_true_iff in H. destruct H as [H|H]; apply String.eqb_eq in H;
      contradiction. }
  subst db1. unfold insert_profile. rewrite E. cbn [fst snd].
  unfold get_profile_by_address, get_profile_by_name, get_profile.
  cbn [profiles squeaks]. rewrite !filter_app.
  split; [reflexivity|]. split; [|split; [|split; [|reflexivity]]].
  - rewrite filter_none.
    + simpl. rewrite String.eqb_refl. reflexivity.
    + intros p Hp. apply String.eqb_neq. now apply Hfresh.
  - rewrite filter_none.
    + simpl. rewrite String.eqb_refl. reflexivity.
    + intros p Hp. apply String.eqb_neq. now apply Hfresh.
  - intros Hids. rewrite filter_none.
    + simpl. rewrite Z.eqb_refl. reflexivity.
    + intros p Hp. apply Z.eqb_neq. specialize (Hids p Hp). lia.
Qed.

(** X16.  The signing profiles and the contact profiles together are
    the profiles, each once; a contact profile has no private key. *)
Theorem signing_and_contact_profiles (db : Db) :
  Permutation (get_signing_profiles db ++ get_contact_profiles db)
              (get_profiles db)
  /\ (forall sp, In sp (get_contact_profiles db) ->
                 prof_private_key sp = None)
  /\ (List.length (get_signing_profiles db)
      + List.length (get_contact_profiles db))%nat
     = List.length (get_profiles db).
Proof.
  unfold get_signing_profiles, get_contact_profiles, get_profiles.
  assert (Hperm : forall l : list profile.row,
            Permutation
              (filter profile_has_private_key l
               ++ filter (fun p => negb (profile_has_private_key p)) l) l).
  { induction l as [|x l IH]; simpl; auto.
    destruct (profile_has_private_key x); simpl.
    - now constructor.
    - apply Permutation_sym. apply Permutation_cons_app.
      now apply Permutation_sym. }
  split; [|split].
  - rewrite <- map_app. apply Permutation_map. apply Hperm.
  - intros sp Hsp. apply in_map_iff in Hsp. destruct Hsp as [p [E Hp]].
    apply filter_In in Hp. destruct Hp as [_ Hp].
    unfold profile_has_private_key in Hp. subst sp. simpl.
    destruct (profile.private_key p); [discriminate|reflexivity].
  - rewrite !length_map.
    apply (filter_split_length profile_has_private_key).
Qed.

(** X17.  The author of every timeline entry is one of
    [get_following_profiles], and is the profile the entry carries.
    After [set_profile_following] to false, or [delete_profile], of a
    stored profile, no timeline entry is by that profile's address. *)
Theorem timeline_follows_profiles (limit : nat)
    (last_entry : option SqueakEntry) (db : Db) :
  (forall e, In e (get_timeline_squeak_entries limit last_entry db) ->
     exists sp, In sp (get_following_profiles db)
                /\ prof_address sp = address e
                /\ squeak_profile e = Some sp)
  /\ (forall p,
        NoDup (map profile.address (profiles db)) ->
        In p (profiles db) ->
        (forall e,
            In e (get_timeline_squeak_entries limit last_entry
                    (set_profile_following (profile.profile_id p) false db)) ->
            address e <> profile.address p)
        /\ (forall e,
              In e (get_timeline_squeak_entries limit last_entry
                      (delete_profile (profile.profile_id p) db)) ->
              address e <> profile.address p)).
Proof.
  assert (Hrow : forall d e,
            In e (get_timeline_squeak_entries limit last_entry d) ->
            exists s q, In q (profiles d)
                        /\ profile.address q = squeak.author_address s
                        /\ profile.following q = true
                        /\ e = _parse_squeak_entry (s, Some q)).
  { intros d e He. unfold get_timeline_squeak_entries in He.
    apply in_map_iff in He. destruct He as [[s op] [He Hin]].
    apply select_page_In in Hin. destruct Hin as [Hj [Hw _]].
    apply joined_In in Hj. destruct Hj as [_ Hop].
    unfold profile_is_following in Hw. simpl in Hw.
    destruct op as [q|]; [|discriminate]. destruct Hop as [Hq Ha].
    exists s, q. repeat split; auto.
    destruct (profile.following q); [reflexivity|discriminate]. }
  split.
  - intros e He. destruct (Hrow db e He) as [s [q [Hq [Ha [Hf E]]]]].
    exists (_parse_squeak_profile q). subst e. repeat split.
    + unfold get_following_profiles. apply in_map. apply filter_In. auto.
    + simpl. exact Ha.
  - intros p Hnd Hp. split.
    + intros e He Hadr.
      destruct (Hrow _ e He) as [s [q [Hq [Ha [Hf E]]]]].
      simpl in Hq. apply in_map_iff in Hq. destruct Hq as [q0 [Eq Hq0]].
      assert (Haddr : profile.address q = profile.address q0).
      { subst q. destruct (profile.profile_id q0 =? profile.profile_id p);
          reflexivity. }
      assert (q0 = p).
      { apply (NoDup_map_inj profile.address (profiles db)); auto.
        rewrite <- Haddr, Ha, <- Hadr. subst e. reflexivity. }
      subst q0. rewrite Z.eqb_refl in Eq. subst q. discriminate.
    + intros e He Hadr.
      destruct (Hrow _ e He) as [s [q [Hq [Ha [Hf E]]]]].
      simpl in Hq. apply filter_In in Hq. destruct Hq as [Hq Hid].
      assert (q = p).
      { apply (NoDup_map_inj profile.address (profiles db)); auto.
        rewrite Ha, <- Hadr. subst e. reflexivity. }
      subst q. rewrite Z.eqb_refl in Hid. discriminate.
Qed.


(** * More properties: the constraints of the profile and peer tables *)

Lemma rename_keeps_names_unique (id : Z) (n : string) (l : list profile.row) :
  NoDup (map profile.profile_id l) ->
  NoDup (map profile.profile_name l) ->
  (forall q, In q l -> profile.profile_id q <> id ->
             profile.profile_name q <> n) ->
  NoDup (map profile.profile_name
           (map (fun p => if profile.profile_id p =? id
                          then renamed n p else p) l)).
Proof.
  induction l as [|x l IH]; simpl; intros Hid Hnm Hoth; [constructor|].
  inversion Hid as [|a b Hx Hl]; subst.
  inversion Hnm as [|a b Hxn Hln]; subst.
  destruct (profile.profile_id x =? id) eqn:E.
  - apply Z.eqb_eq in E. rewrite map_unchanged.
    + simpl. constructor; auto. intros Hin. apply in_map_iff in Hin.
      destruct Hin as [q [Hq Hql]]. apply (Hoth q); auto.
      intros Hqid. apply Hx. rewrite E, <- Hqid. now apply in_map.
    + intros q Hq. destruct (profile.profile_id q =? id) eqn:Eq; auto.
      apply Z.eqb_eq in Eq. exfalso. apply Hx. rewrite E, <- Eq.
      now apply in_map.
  - apply Z.eqb_neq in E. constructor.
    + intros Hin. apply in_map_iff in Hin. destruct Hin as [z [Hz Hzl]].
      apply in_map_iff in Hzl. destruct Hzl as [q [Hq Hql]]. subst z.
      destruct (profile.profile_id q =? id).
      * simpl in Hz. apply (Hoth x); auto.
      * apply Hxn. rewrite <- Hz. now apply in_map.
    + apply IH; auto.
Qed.

Lemma update_profile_tables_ok (id : Z) (f : profile.row -> profile.row)
    (db : Db) :
  (forall p, profile.profile_id (f p) = profile.profile_id p) ->
  (forall p, profile.profile_name (f p) = profile.profile_name p) ->
  (forall p, profile.address (f p) = profile.address p) ->
  tables_ok db -> tables_ok (update_profile_where_id id f db).
Proof.
  intros Hi Hn Ha [H1 [H2 [H3 [H4 [H5 [H6 H7]]]]]].
  unfold tables_ok, update_profile_where_id, with_profiles.
  cbn [profiles profile_seq peers peer_seq].
  rewrite !map_map_same;
    try (intros p; destruct (profile.profile_id p =? id); auto).
  repeat split; auto.
  intros p Hp. apply in_map_iff in Hp. destruct Hp as [q [E Hq]].
  specialize (H4 q Hq). subst p.
  destruct (profile.profile_id q =? id); auto. now rewrite Hi.
Qed.

Lemma set_profile_name_tables_ok (id : Z) (n : string) (db : Db) :
  tables_ok db -> tables_ok (fst (set_profile_name id n db)).
Proof.
  intros Hok. unfold set_profile_name.
  destruct (filter (fun p => profile.profile_id p =? id) (profiles db))
    as [|t ts] eqn:Et.
  - cbn [andb fst]. unfold update_profile_where_id, with_profiles.
    destruct Hok as [H1 [H2 [H3 [H4 [H5 [H6 H7]]]]]].
    unfold tables_ok. cbn [profiles profile_seq peers peer_seq].
    assert (Hsame : map (fun p => if profile.profile_id p =? id
                                  then renamed n p else p) (profiles db)
                    = profiles db).
    { apply map_unchanged. intros p Hp.
      destruct (profile.profile_id p =? id) eqn:E; auto.
      assert (Hin : In p []) by (rewrite <- Et; apply filter_In; auto).
      contradiction. }
    unfold renamed in Hsame. rewrite Hsame. repeat split; auto.
  - cbn [andb].
    destruct (existsb _ _ || _) eqn:E; cbn [fst]; auto.
    apply orb_false_iff in E. destruct E as [E _].
    destruct Hok as [H1 [H2 [H3 [H4 [H5 [H6 H7]]]]]].
    unfold tables_ok, update_profile_where_id, with_profiles.
    cbn [profiles profile_seq peers peer_seq].
    assert (Hnames : NoDup (map profile.profile_name
              (map (fun p => if profile.profile_id p =? id
                             then renamed n p else p) (profiles db)))).
    { apply rename_keeps_names_unique; auto.
      intros q Hq Hqid Hqn.
      apply not_true_iff_false in E. apply E. apply existsb_exists.
      exists q. split; [|now apply String.eqb_eq].
      apply filter_In. split; auto. apply negb_true_iff.
      now apply Z.eqb_neq. }
    unfold renamed in Hnames.
    rewrite (map_map_same profile.profile_id);
      [|intros p; destruct (profile.profile_id p =? id); auto].
    rewrite (map_map_same profile.address);
      [|intros p; destruct (profile.profile_id p =? id); auto].
    repeat split; auto.
    intros p Hp. apply in_map_iff in Hp. destruct Hp as [q [Eq Hq]].
    specialize (H4 q Hq). subst p.
    destruct (profile.profile_id q =? id); auto.
Qed.

Lemma update_peer_tables_ok (id : Z) (f : peer.row -> peer.row) (db : Db) :
  (forall p, peer.peer_id (f p) = peer.peer_id p) ->
  (forall p, peer.host (f p) = peer.host p) ->
  (forall p, peer.port (f p) = peer.port p) ->
  tables_ok db ->
  tables_ok (with_peers db
               (map (fun p => if peer.peer_id p =? id then f p else p)
                    (peers db))).
Proof.
  intros Hi Hh Hp [H1 [H2 [H3 [H4 [H5 [H6 H7]]]]]].
  unfold tables_ok, with_peers.
  cbn [profiles profile_seq peers peer_seq].
  rewrite (map_map_same peer.peer_id);
    [|intros p; destruct (peer.peer_id p =? id); auto].
  rewrite (map_map_same (fun p => (peer.host p, peer.port p)));
    [|intros p; destruct (peer.peer_id p =? id); auto;
      now rewrite Hh, Hp].
  repeat split; auto.
  intros p Hin. apply in_map_iff in Hin. destruct Hin as [q [E Hq]].
  specialize (H7 q Hq). subst p.
  destruct (peer.peer_id q =? id); auto. now rewrite Hi.
Qed.

Lemma store_op_tables_ok get_hash (op : store_op) (db : Db) :
  tables_ok db -> tables_ok (run_op get_hash op db).
Proof.
  intros Hok. pose proof Hok as [H1 [H2 [H3 [H4 [H5 [H6 H7]]]]]].
  destruct op; cbn [run_op].
  - unfold insert_squeak. destruct (existsb _ (squeaks db)); exact Hok.
  - exact Hok.
  - exact Hok.
  - exact Hok.
  - exact Hok.
  - unfold insert_profile.
    destruct (existsb _ (profiles db)) eqn:E; cbn [fst]; auto.
    assert (Hfresh : forall p, In p (profiles db) ->
              profile.profile_name p <> prof_profile_name squeak_profile0
              /\ profile.address p <> prof_address squeak_profile0).
    { intros p Hp. apply not_true_iff_false in E.
      split; intros Heq; apply E; apply existsb_exists; exists p;
        (split; [exact Hp|]); rewrite Heq, String.eqb_refl;
        [reflexivity|apply orb_true_r]. }
    unfold tables_ok. cbn [profiles profile_seq peers peer_seq].
    repeat split; auto.
    + apply NoDup_map_snoc; auto. cbn [profile.profile_id].
      intros Hin. apply in_map_iff in Hin. destruct Hin as [p [Hp Hpl]].
      specialize (H4 p Hpl). lia.
    + apply NoDup_map_snoc; auto. cbn [profile.profile_name].
      intros Hin. apply in_map_iff in Hin. destruct Hin as [p [Hp Hpl]].
      destruct (Hfresh p Hpl) as [Hn Ha]. contradiction.
    + apply NoDup_map_snoc; auto. cbn [profile.address].
      intros Hin. apply in_map_iff in Hin. destruct Hin as [p [Hp Hpl]].
      destruct (Hfresh p Hpl) as [Hn Ha]. contradiction.
    + intros p Hp. apply in_app_or in Hp. destruct Hp as [Hp|[Hp|[]]].
      * specialize (H4 p Hp). lia.
      * subst p. cbn [profile.profile_id]. lia.
  - unfold tables_ok, delete_profile.
    cbn [profiles profile_seq peers peer_seq].
    repeat split; auto; try now apply NoDup_map_filter.
    intros p Hp. apply filter_In in Hp. now apply H4.
  - unfold tables_ok, set_profile_following.
    cbn [profiles profile_seq peers peer_seq].
    rewrite !map_map_same;
      try (intros p; destruct (profile.profile_id p =? profile_id); auto).
    repeat split; auto.
    intros p Hp. apply in_map_iff in Hp. destruct Hp as [q [Eq Hq]].
    specialize (H4 q Hq). subst p.
    destruct (profile.profile_id q =? profile_id); auto.
  - unfold insert_peer.
    destruct (peer_host_port_taken _ _ db) eqn:E; cbn [fst]; auto.
    unfold tables_ok. cbn [profiles profile_seq peers peer_seq].
    repeat split; auto.
    + apply NoDup_map_snoc; auto. cbn [peer.peer_id].
      intros Hin. apply in_map_iff in Hin. destruct Hin as [p [Hp Hpl]].
      specialize (H7 p Hpl). lia.
    + apply NoDup_map_snoc; auto. cbn [peer.host peer.port].
      intros Hin. apply in_map_iff in Hin. destruct Hin as [p [Hp Hpl]].
      apply not_true_iff_false in E. apply E. unfold peer_host_port_taken.
      apply existsb_exists. exists p. split; auto.
      injection Hp as Hh Hpo. rewrite Hh, Hpo, String.eqb_refl, Z.eqb_refl.
      reflexivity.
    + intros p Hp. apply in_app_or in Hp. destruct Hp as [Hp|[Hp|[]]].
      * specialize (H7 p Hp). lia.
      * subst p. cbn [peer.peer_id]. lia.
  - unfold tables_ok, delete_peer.
    cbn [profiles profile_seq peers peer_seq].
    repeat split; auto; try now apply NoDup_map_filter.
    intros p Hp. apply filter_In in Hp. now apply H7.
  - exact Hok.
  - exact Hok.
Qed.

Lemma run_table_op_ok get_hash (op : table_op) (db : Db) :
  tables_ok db -> tables_ok (run_table_op get_hash op db).
Proof.
  intros Hok. destruct op; cbn [run_table_op].
  - now apply store_op_tables_ok.
  - apply update_profile_tables_ok; auto.
  - apply update_profile_tables_ok; auto.
  - apply update_profile_tables_ok; auto.
  - now apply set_profile_name_tables_ok.
  - apply (update_peer_tables_ok peer_id
             (fun p => peer.mk (peer.peer_id p) (peer.created_time_ms p)
                         (peer.peer_name p) (peer.host p) (peer.port p)
                         (peer.use_tor p) autoconnect)); auto.
  - apply (update_peer_tables_ok peer_id
             (fun p => peer.mk (peer.peer_id p) (peer.created_time_ms p)
                         peer_name (peer.host p) (peer.port p)
                         (peer.use_tor p) (peer.autoconnect p))); auto.
Qed.

Lemma run_table_op_wf get_hash (op : table_op) (db : Db) :
  wf_db db -> wf_db (run_table_op get_hash op db).
Proof.
  intros Hwf. destruct op; cbn [run_table_op];
    try (now apply run_op_wf);
    try (destruct Hwf as [Hs Hp]; split; auto;
         cbn [profiles update_profile_where_id with_profiles
              set_profile_use_custom_price set_profile_custom_price_msat
              set_profile_image];
         rewrite map_map_same; auto;
         intros p; destruct (profile.profile_id p =? profile_id); auto).
  unfold set_profile_name.
  destruct (_ && _); cbn [fst]; auto.
  destruct Hwf as [Hs Hp]; split; auto.
  cbn [profiles update_profile_where_id with_profiles].
  rewrite map_map_same; auto.
  intros p; destruct (profile.profile_id p =? profile_id); auto.
Qed.

(** X18.  In every store that a history of writes (to squeaks,
    profiles and peers, offer sweeps included) builds from the empty
    store, profile ids, names and addresses are unique, peer ids and
    (host, port) pairs are unique, squeak hashes are unique, and no id
    is above its table's counter. *)
Theorem reachable_tables_ok get_hash (ops : list table_op) :
  tables_ok (run_table_ops get_hash ops empty_db)
  /\ wf_db (run_table_ops get_hash ops empty_db).
Proof.
  assert (H : forall db, tables_ok db /\ wf_db db ->
                         tables_ok (run_table_ops get_hash ops db)
                         /\ wf_db (run_table_ops get_hash ops db)).
  { unfold run_table_ops. induction ops as [|op ops IH]; simpl; auto.
    intros db [Hok Hwf]. apply IH. split.
    - now apply run_table_op_ok.
    - now apply run_table_op_wf. }
  apply H. split.
  - unfold tables_ok. simpl. repeat split; try constructor; contradiction.
  - split; constructor.
Qed.


(** * More properties: reading profiles and peers back *)

Lemma filter_key_single {A K : Type} (key : A -> K) (eqb : K -> K -> bool)
    (l : list A) (p : A) (k : K) :
  (forall a b, eqb a b = true <-> a = b) ->
  NoDup (map key l) -> In p l -> key p = k ->
  filter (fun x => eqb (key x) k) l = [p].
Proof.
  intros Heq Hnd Hp Hk. subst k.
  induction l as [|x l IH]; simpl in *; [contradiction|].
  inversion Hnd as [|a b Hx Hl]; subst.
  destruct Hp as [Hp|Hp].
  - subst x. destruct (eqb (key p) (key p)) eqn:E.
    + f_equal. apply filter_none. intros z Hz.
      destruct (eqb (key z) (key p)) eqn:Ez; auto.
      apply Heq in Ez. exfalso. apply Hx. rewrite <- Ez. now apply in_map.
    + assert (eqb (key p) (key p) = true) by now apply Heq. congruence.
  - destruct (eqb (key x) (key p)) eqn:E; [|now apply IH].
    apply Heq in E. exfalso. apply Hx. rewrite E. now apply in_map.
Qed.

(** X19.  For a stored profile, [set_profile_name] to a name that
    another profile has raises [IntegrityError] and writes nothing; to a
    name no other profile has (its own included) it succeeds, and the
    profile then reads back under its id, under the new name and under
    its address, changed in the name only. *)
Theorem set_profile_name_unique (n : string) (db : Db) (p : profile.row) :
  tables_ok db ->
  In p (profiles db) ->
  let id := profile.profile_id p in
  ((exists q, In q (profiles db) /\ profile.profile_id q <> id
              /\ profile.profile_name q = n) ->
   set_profile_name id n db = (db, inl IntegrityError))
  /\ ((forall q, In q (profiles db) -> profile.profile_id q <> id ->
                 profile.profile_name q <> n) ->
      let db1 := fst (set_profile_name id n db) in
      snd (set_profile_name id n db) = inr tt
      /\ get_profile id db1 = Some (_parse_squeak_profile (renamed n p))
      /\ get_profile_by_name n db1
         = Some (_parse_squeak_profile (renamed n p))
      /\ get_profile_by_address (profile.address p) db1
         = Some (_parse_squeak_profile (renamed n p))).
Proof.
  intros Hok Hp id.
  assert (Htouched : filter (fun x => profile.profile_id x =? id)
                            (profiles db) = [p]).
  { apply (filter_key_single profile.profile_id Z.eqb); auto.
    - intros a b. apply Z.eqb_eq.
    - apply Hok. }
  split.
  - intros [q [Hq [Hqid Hqn]]]. unfold set_profile_name.
    rewrite Htouched. cbn [andb].
    assert (E : existsb (fun x => String.eqb (profile.profile_name x) n)
                  (filter (fun x => negb (profile.profile_id x =? id))
                          (profiles db)) = true).
    { apply existsb_exists. exists q. split.
      - apply filter_In. split; auto. apply negb_true_iff.
        now apply Z.eqb_neq.
      - now apply String.eqb_eq. }
    rewrite E. reflexivity.
  - intros Hfree db1.
    pose proof (set_profile_name_tables_ok id n db Hok) as Hok1.
    fold db1 in Hok1. revert Hok1. subst db1. unfold set_profile_name.
    rewrite Htouched. cbn [andb].
    assert (E : existsb (fun x => String.eqb (profile.profile_name x) n)
                  (filter (fun x => negb (profile.profile_id x =? id))
                          (profiles db)) = false).
    { apply not_true_iff_false. intros H. apply existsb_exists in H.
      destruct H as [q [Hq Hqn]]. apply filter_In in Hq.
      destruct Hq as [Hq Hqid]. apply negb_true_iff in Hqid.
      apply Z.eqb_neq in Hqid. apply String.eqb_eq in Hqn.
      now apply (Hfree q). }
    rewrite E. cbn [orb Nat.ltb Nat.leb List.length fst snd].
    intros [H1 [H2 [H3 _]]]. split; [reflexivity|].
    assert (Hin : In (renamed n p)
                     (profiles (update_profile_where_id id (renamed n) db))).
    { cbn [update_profile_where_id with_profiles profiles].
      apply in_map_iff. exists p. split; auto. unfold id.
      now rewrite Z.eqb_refl. }
    unfold get_profile, get_profile_by_name, get_profile_by_address.
    change (fun p0 : profile.row =>
              profile.mk (profile.profile_id p0) (profile.created_time_ms p0)
                n (profile.private_key p0) (profile.address p0)
                (profile.following p0) (profile.use_custom_price p0)
                (profile.custom_price_msat p0) (profile.profile_image p0))
      with (renamed n) in *.
    rewrite (filter_key_single profile.profile_id Z.eqb _ (renamed n p) id);
      auto; [|intros a b; apply Z.eqb_eq].
    rewrite (filter_key_single profile.profile_name String.eqb _
               (renamed n p) n); auto; [|intros a b; apply String.eqb_eq].
    rewrite (filter_key_single profile.address String.eqb _
               (renamed n p) (profile.address p)); auto.
    intros a b; apply String.eqb_eq.
Qed.

(** X20.  [insert_peer] of a peer whose (host, port) no stored peer has
    returns the next id of the counter; [get_peer_by_address] then
    finds the peer under its host and port whatever the [use_tor] flag
    of the address asked for, and [get_peer] finds it under the id when
    no stored id is above the counter; [get_peers] has the new peer and
    the peers it had. *)
Theorem insert_peer_then_get (now_ms : Z) (squeak_peer : SqueakPeer)
    (db : Db) :
  peer_host_port_taken (pa_host (sp_address squeak_peer))
                       (pa_port (sp_address squeak_peer)) db = false ->
  let id := peer_seq db + 1 in
  let db1 := fst (insert_peer now_ms squeak_peer db) in
  let stored := mkSqueakPeer (Some id) (sp_peer_name squeak_peer)
                  (sp_address squeak_peer) (sp_autoconnect squeak_peer) in
  snd (insert_peer now_ms squeak_peer db) = inr id
  /\ (forall use_tor,
        get_peer_by_address
          (mkPeerAddress (pa_host (sp_address squeak_peer))
                         (pa_port (sp_address squeak_peer)) use_tor) db1
        = Some stored)
  /\ ((forall p, In p (peers db) -> peer.peer_id p <= peer_seq db) ->
      get_peer id db1 = Some stored)
  /\ Permutation (get_peers db1) (stored :: get_peers db).
Proof.
  intros Hfree id db1 stored. subst db1. unfold insert_peer.
  rewrite Hfree. cbn [fst snd].
  assert (Hparse : forall t,
            _parse_squeak_peer
              (peer.mk id t (sp_peer_name squeak_peer)
                 (pa_host (sp_address squeak_peer))
                 (pa_port (sp_address squeak_peer))
                 (pa_use_tor (sp_address squeak_peer))
                 (sp_autoconnect squeak_peer)) = stored).
  { intros t. unfold _parse_squeak_peer, stored. simpl.
    destruct squeak_peer as [i nm [h po tor] ac]. reflexivity. }
  split; [reflexivity|]. split; [|split].
  - intros use_tor. unfold get_peer_by_address.
    cbn [peers pa_host pa_port]. rewrite filter_app, filter_none.
    + simpl. rewrite String.eqb_refl, Z.eqb_refl. simpl.
      now rewrite Hparse.
    + intros p Hp. destruct (_ && _) eqn:E; auto.
      unfold peer_host_port_taken in Hfree.
      apply not_true_iff_false in Hfree. exfalso. apply Hfree.
      apply existsb_exists. now exists p.
  - intros Hids. unfold get_peer. cbn [peers].
    rewrite filter_app, filter_none.
    + simpl. rewrite Z.eqb_refl. now rewrite Hparse.
    + intros p Hp. apply Z.eqb_neq. specialize (Hids p Hp). lia.
  - unfold get_peers. cbn [peers]. rewrite map_app. simpl.
    rewrite Hparse. apply Permutation_sym, Permutation_cons_append.
Qed.

(** X21.  After [set_peer_autoconnect] of an id, a peer with that id is
    among [get_autoconnect_peers] exactly when the flag given is true,
    peers with other ids are listed as before, and [get_peers] has as
    many peers as before. *)
Theorem set_peer_autoconnect_listing (id : Z) (b : bool) (db : Db) :
  let db1 := set_peer_autoconnect id b db in
  (forall sp, In sp (get_autoconnect_peers db1) ->
              sp_peer_id sp = Some id -> b = true)
  /\ (forall p, In p (peers db) -> peer.peer_id p = id -> b = true ->
        In (mkSqueakPeer (Some id) (peer.peer_name p)
              (mkPeerAddress (peer.host p) (peer.port p) (peer.use_tor p))
              true)
           (get_autoconnect_peers db1))
  /\ (forall sp, sp_peer_id sp <> Some id ->
        (In sp (get_autoconnect_peers db1)
         <-> In sp (get_autoconnect_peers db)))
  /\ List.length (get_peers db1) = List.length (get_peers db).
Proof.
  intros db1. subst db1. unfold get_autoconnect_peers, get_peers.
  unfold set_peer_autoconnect. cbn [with_peers peers].
  split; [|split; [|split]].
  - intros sp Hsp Hid. apply in_map_iff in Hsp.
    destruct Hsp as [r [Er Hr]]. apply filter_In in Hr.
    destruct Hr as [Hr Hauto]. apply in_map_iff in Hr.
    destruct Hr as [q [Eq Hq]]. subst sp r.
    destruct (peer.peer_id q =? id) eqn:E.
    + exact Hauto.
    + simpl in Hid. injection Hid as Hid. apply Z.eqb_neq in E.
      contradiction.
  - intros p Hp Hid Hb. subst b. apply in_map_iff.
    exists (peer.mk (peer.peer_id p) (peer.created_time_ms p)
              (peer.peer_name p) (peer.host p) (peer.port p)
              (peer.use_tor p) true).
    split.
    + unfold _parse_squeak_peer. simpl. now rewrite Hid.
    + apply filter_In. split; [|reflexivity]. apply in_map_iff.
      exists p. split; auto. apply Z.eqb_eq in Hid. now rewrite Hid.
  - intros sp Hid. split; intros Hsp; apply in_map_iff in Hsp;
      destruct Hsp as [r [Er Hr]]; apply filter_In in Hr;
      destruct Hr as [Hr Hauto].
    + apply in_map_iff in Hr. destruct Hr as [q [Eq Hq]]. subst sp r.
      destruct (peer.peer_id q =? id) eqn:E.
      * apply Z.eqb_eq in E. exfalso. apply Hid. simpl. now rewrite E.
      * apply in_map. apply filter_In. auto.
    + apply in_map_iff. exists r. split; auto. apply filter_In.
      split; auto. apply in_map_iff. exists r. split; auto.
      destruct (peer.peer_id r =? id) eqn:E; auto.
      apply Z.eqb_eq in E. exfalso. apply Hid. subst sp. simpl.
      now rewrite E.
  - now rewrite !length_map.
Qed.

(** X22.  [delete_profile] removes the profile from [get_profile] and
    leaves the other ids as they were; it deletes no squeak, and an
    entry by the deleted profile's address is then returned without a
    profile. *)
Theorem delete_profile_keeps_squeaks (deserialize : bytes -> CSqueak)
    (id : Z) (db : Db) :
  get_profile id (delete_profile id db) = None
  /\ (forall id', id' <> id ->
        get_profile id' (delete_profile id db) = get_profile id' db)
  /\ (forall h, get_squeak deserialize h (delete_profile id db)
                = get_squeak deserialize h db)
  /\ (forall p h e,
        NoDup (map profile.address (profiles db)) ->
        In p (profiles db) -> profile.profile_id p = id ->
        get_squeak_entry h (delete_profile id db) = Some e ->
        address e = profile.address p ->
        squeak_profile e = None).
Proof.
  split; [|split; [|split]].
  - unfold get_profile, delete_profile. cbn [profiles].
    rewrite filter_none; auto.
    intros p Hp. apply filter_In in Hp. destruct Hp as [_ Hp].
    now apply negb_true_iff in Hp.
  - intros id' Hid'. unfold get_profile, delete_profile. cbn [profiles].
    replace (filter (fun p => profile.profile_id p =? id')
               (filter (fun p => negb (profile.profile_id p =? id))
                       (profiles db)))
      with (filter (fun p => profile.profile_id p =? id') (profiles db));
      [reflexivity|].
    induction (profiles db) as [|x l IH]; [reflexivity|]. simpl.
    destruct (profile.profile_id x =? id) eqn:E1; simpl.
    + destruct (profile.profile_id x =? id') eqn:E2; auto.
      apply Z.eqb_eq in E1, E2. congruence.
    + destruct (profile.profile_id x =? id'); now rewrite IH.
  - reflexivity.
  - intros p h e Hnd Hp Hid He Hadr. unfold get_squeak_entry in He.
    destruct (filter _ (squeaks_outerjoin_profiles (delete_profile id db)))
      as [|row rest] eqn:E; [discriminate|].
    injection He as He.
    assert (Hrow : In row (row :: rest)) by now left.
    rewrite <- E in Hrow. apply filter_In in Hrow. destruct Hrow as [Hrow _].
    destruct row as [s [q|]].
    + exfalso. apply joined_In in Hrow. destruct Hrow as [_ [Hq Ha]].
      cbn [delete_profile profiles] in Hq. apply filter_In in Hq.
      destruct Hq as [Hq Hqid].
      assert (q = p).
      { apply (NoDup_map_inj profile.address (profiles db)); auto.
        rewrite Ha, <- Hadr. subst e. reflexivity. }
      subst q. rewrite Hid, Z.eqb_refl in Hqid. discriminate.
    + subst e. reflexivity.
Qed.


(** * More properties: offers *)

Lemma filter_map_commute {A : Type} (f : A -> bool) (g : A -> A)
    (l : list A) :
  (forall x, f (g x) = f x) -> filter f (map g l) = map g (filter f l).
Proof.
  intros H. induction l as [|x l IH]; simpl; auto.
  rewrite H. destruct (f x); simpl; now rewrite IH.
Qed.

Lemma filter_filter_implied {A : Type} (f g : A -> bool) (l : list A) :
  (forall x, In x l -> f x = true -> g x = true) ->
  filter f (filter g l) = filter f l.
Proof.
  induction l as [|x l IH]; simpl; intros H; auto.
  assert (IH' : filter f (filter g l) = filter f l).
  { apply IH. intros y Hy. apply H. now right. }
  destruct (g x) eqn:Eg; simpl.
  - now rewrite IH'.
  - destruct (f x) eqn:Ef; auto.
    rewrite (H x) in Eg; auto; discriminate.
Qed.

Lemma received_not_expired_iff now_ms o :
  received_offer_is_not_expired now_ms o = true
  <-> ~ expired_at now_ms (received_offer.invoice_timestamp o)
                  (received_offer.invoice_expiry o).
Proof.
  unfold received_offer_is_not_expired, Qlt_bool, expired_at.
  rewrite negb_true_iff. split.
  - intros H Hle. apply Qle_bool_iff in Hle. congruence.
  - intros H. apply not_true_is_false. intros Hle. apply H.
    now apply Qle_bool_iff.
Qed.

Lemma expired_at_later (t t' ts ex : Z) :
  t <= t' -> expired_at t ts ex -> expired_at t' ts ex.
Proof.
  unfold expired_at, now_seconds, Qle. cbn [Qnum Qden inject_Z].
  intros Hle H. lia.
Qed.

(** X23.  After [set_received_offer_paid] to true of a payment hash,
    [get_received_offers] lists no offer with that payment hash and
    lists the offers with other payment hashes exactly as before;
    [get_received_offer] by id still returns every offer. *)
Theorem set_received_offer_paid_hides (now_ms : Z) (payment_hash : bytes)
    (squeak_hash : bytes) (db : Db) :
  let db1 := set_received_offer_paid payment_hash true db in
  (forall o, In o (get_received_offers now_ms squeak_hash db1) ->
             ro_payment_hash o <> payment_hash)
  /\ (forall o, ro_payment_hash o <> payment_hash ->
        (In o (get_received_offers now_ms squeak_hash db1)
         <-> In o (get_received_offers now_ms squeak_hash db)))
  /\ (forall id, get_received_offer id db1 = get_received_offer id db).
Proof.
  intros db1. subst db1.
  unfold get_received_offers, get_received_offers_rows, get_received_offer,
    set_received_offer_paid.
  cbn [with_received_offers received_offers].
  split; [|split].
  - intros o Ho Hph. apply in_map_iff in Ho. destruct Ho as [r [Er Hr]].
    apply filter_In in Hr. destruct Hr as [Hr Hf].
    apply in_map_iff in Hr. destruct Hr as [q [Eq Hq]]. subst o r.
    destruct (bytes_eqb (received_offer.payment_hash q) payment_hash) eqn:E.
    + apply andb_true_iff in Hf. destruct Hf as [Hf _].
      apply andb_true_iff in Hf. destruct Hf as [_ Hf]. discriminate.
    + apply bytes_eqb_neq in E. now apply E.
  - intros o Hph. split; intros Ho; apply in_map_iff in Ho;
      destruct Ho as [r [Er Hr]]; apply filter_In in Hr;
      destruct Hr as [Hr Hf].
    + apply in_map_iff in Hr. destruct Hr as [q [Eq Hq]]. subst o r.
      destruct (bytes_eqb (received_offer.payment_hash q) payment_hash)
        eqn:E.
      * apply bytes_eqb_eq in E. now contradiction Hph.
      * apply in_map. apply filter_In. auto.
    + apply in_map_iff. exists r. split; auto. apply filter_In.
      split; auto. apply in_map_iff. exists r. split; auto.
      destruct (bytes_eqb (received_offer.payment_hash r) payment_hash)
        eqn:E; auto.
      apply bytes_eqb_eq in E. subst o. now contradiction Hph.
  - intros id. rewrite filter_map_commute.
    + destruct (filter _ (received_offers db)) as [|r rest]; auto.
      simpl. destruct (bytes_eqb (received_offer.payment_hash r)
                                 payment_hash); reflexivity.
    + intros x. destruct (bytes_eqb (received_offer.payment_hash x)
                                    payment_hash); reflexivity.
Qed.

(** X24.  After [delete_offers_for_squeak] no offer for that squeak is
    returned, at any time and for any peer; the offers for other squeaks
    are listed as before; the count returned is the number of rows
    removed. *)
Theorem delete_offers_for_squeak_clears (squeak_hash : bytes) (db : Db) :
  let db1 := fst (delete_offers_for_squeak squeak_hash db) in
  (forall now_ms, get_received_offers now_ms squeak_hash db1 = [])
  /\ (forall now_ms peer_address,
        get_received_offer_for_squeak_and_peer now_ms squeak_hash
          peer_address db1 = None)
  /\ (forall now_ms h, h <> squeak_hash ->
        get_received_offers now_ms h db1 = get_received_offers now_ms h db)
  /\ snd (delete_offers_for_squeak squeak_hash db)
     = Z.of_nat (List.length (received_offers db))
       - Z.of_nat (List.length (received_offers db1)).
Proof.
  intros db1. subst db1. unfold delete_offers_for_squeak. cbn [fst snd].
  unfold get_received_offers, get_received_offers_rows,
    get_received_offer_for_squeak_and_peer,
    received_offer_for_squeak_and_peer_rows.
  cbn [with_received_offers received_offers].
  split; [|split; [|split]].
  - intros now_ms. rewrite filter_none; auto.
    intros o Ho. apply filter_In in Ho. destruct Ho as [_ Ho].
    apply negb_true_iff in Ho. now rewrite Ho.
  - intros now_ms pa. rewrite filter_none; auto.
    intros o Ho. apply filter_In in Ho. destruct Ho as [_ Ho].
    apply negb_true_iff in Ho. now rewrite Ho.
  - intros now_ms h Hh. f_equal. apply filter_filter_implied.
    intros o _ Ho. apply negb_true_iff.
    destruct (bytes_eqb (received_offer.squeak_hash o) squeak_hash) eqn:E;
      auto.
    apply bytes_eqb_eq in E.
    apply andb_true_iff in Ho. destruct Ho as [Ho _].
    apply andb_true_iff in Ho. destruct Ho as [Ho _].
    apply bytes_eqb_eq in Ho. congruence.
  - pose proof (filter_split_length
                  (fun o => bytes_eqb (received_offer.squeak_hash o)
                                      squeak_hash)
                  (received_offers db)) as H.
    lia.
Qed.

(** X25.  The offer [get_received_offer_for_squeak_and_peer] returns is
    one of those [get_received_offers] lists for the squeak at that
    time, and its peer address is the one asked for; it returns [None]
    exactly when no listed offer has that peer address. *)
Theorem received_offer_for_peer_is_listed (now_ms : Z) (squeak_hash : bytes)
    (peer_address : PeerAddress) (db : Db) :
  (forall o,
      get_received_offer_for_squeak_and_peer now_ms squeak_hash peer_address
        db = Some o ->
      In o (get_received_offers now_ms squeak_hash db)
      /\ ro_peer_address o = peer_address)
  /\ (get_received_offer_for_squeak_and_peer now_ms squeak_hash peer_address
        db = None
      <-> forall o, In o (get_received_offers now_ms squeak_hash db) ->
                    ro_peer_address o <> peer_address).
Proof.
  assert (Hrow : forall r,
            In r (received_offer_for_squeak_and_peer_rows now_ms squeak_hash
                    peer_address db)
            <-> In r (get_received_offers_rows now_ms squeak_hash db)
                /\ ro_peer_address (_parse_received_offer r) = peer_address).
  { intros r. unfold received_offer_for_squeak_and_peer_rows,
      get_received_offers_rows. rewrite !filter_In.
    destruct peer_address as [h po tor]. cbn [pa_host pa_port pa_use_tor].
    unfold _parse_received_offer. cbn [ro_peer_address].
    rewrite !andb_true_iff, String.eqb_eq, Z.eqb_eq, Bool.eqb_true_iff.
    split.
    - intros [Hr [[[[[H1 H2] H3] H4] H5] H6]]. repeat split; auto.
      now rewrite H2, H3, H4.
    - intros [[Hr [[H1 H5] H6]] He]. injection He as H2 H3 H4.
      repeat split; auto. }
  unfold get_received_offer_for_squeak_and_peer, get_received_offers.
  split.
  - intros o Ho.
    destruct (received_offer_for_squeak_and_peer_rows _ _ _ _)
      as [|r rest] eqn:E; [discriminate|].
    injection Ho as Ho.
    assert (Hin : In r (r :: rest)) by now left.
    apply Hrow in Hin. destruct Hin as [Hin Hpa].
    subst o. split; auto. now apply in_map.
  - destruct (received_offer_for_squeak_and_peer_rows _ _ _ _)
      as [|r rest] eqn:E.
    + split; auto. intros _ o Ho Hpa. apply in_map_iff in Ho.
      destruct Ho as [r [Er Hr]]. subst o.
      assert (Hin : In r []) by (apply Hrow; auto).
      contradiction.
    + split; [discriminate|]. intros H. exfalso.
      assert (Hin : In r (r :: rest)) by now left.
      apply Hrow in Hin. destruct Hin as [Hin Hpa].
      apply (H (_parse_received_offer r)); auto. now apply in_map.
Qed.

(** X26.  A sweep [delete_expired_received_offers] is invisible to
    readers: at the time of the sweep and at any later time,
    [get_received_offers] and
    [get_received_offer_for_squeak_and_peer] answer as they would have
    without the sweep. *)
Theorem received_sweep_is_invisible (t t' : Z) (squeak_hash : bytes)
    (db : Db) :
  t <= t' ->
  let db1 := fst (delete_expired_received_offers t db) in
  get_received_offers t' squeak_hash db1
  = get_received_offers t' squeak_hash db
  /\ (forall peer_address,
        get_received_offer_for_squeak_and_peer t' squeak_hash peer_address
          db1
        = get_received_offer_for_squeak_and_peer t' squeak_hash peer_address
            db).
Proof.
  intros Hle db1. subst db1. unfold delete_expired_received_offers.
  cbn [fst].
  assert (Hkeep : forall o,
            received_offer_is_not_expired t' o = true ->
            negb (received_offer_should_be_deleted t o) = true).
  { intros o Ho. apply received_not_expired_iff in Ho.
    apply negb_true_iff. apply not_true_is_false. intros Hd.
    apply Ho. apply (expired_at_later t t'); auto.
    unfold received_offer_should_be_deleted in Hd.
    now apply Qle_bool_iff in Hd. }
  split.
  - unfold get_received_offers, get_received_offers_rows.
    cbn [with_received_offers received_offers]. f_equal.
    apply filter_filter_implied. intros o _ Ho. apply Hkeep.
    apply andb_true_iff in Ho. tauto.
  - intros pa. unfold get_received_offer_for_squeak_and_peer,
      received_offer_for_squeak_and_peer_rows.
    cbn [with_received_offers received_offers].
    rewrite filter_filter_implied; auto.
    intros o _ Ho. apply Hkeep. apply andb_true_iff in Ho. tauto.
Qed.


(** * More properties: sent offers and the inserts of offers *)

Lemma sent_not_expired_iff now_ms o :
  sent_offer_is_not_expired now_ms o = true
  <-> ~ expired_at now_ms (sent_offer.invoice_timestamp o)
                  (sent_offer.invoice_expiry o).
Proof.
  unfold sent_offer_is_not_expired, Qlt_bool, expired_at.
  rewrite negb_true_iff. split.
  - intros H Hle. apply Qle_bool_iff in Hle. congruence.
  - intros H. apply not_true_is_false. intros Hle. apply H.
    now apply Qle_bool_iff.
Qed.

(** X27.  [get_sent_offer_by_squeak_hash_and_peer] does not look at the
    port of the peer address.  The offer it returns is a stored, unpaid
    sent offer for the squeak, the host and the [use_tor] flag asked
    for, not expired at that time; and no sweep
    [delete_expired_sent_offers] at that time with an interval of zero
    or more removes it. *)
Theorem sent_offer_lookup_ignores_port (now_ms : Z) (squeak_hash : bytes)
    (peer_address : PeerAddress) (db : Db) :
  (forall port,
      get_sent_offer_by_squeak_hash_and_peer now_ms squeak_hash
        (mkPeerAddress (pa_host peer_address) port (pa_use_tor peer_address))
        db
      = get_sent_offer_by_squeak_hash_and_peer now_ms squeak_hash
          peer_address db)
  /\ (forall o,
        get_sent_offer_by_squeak_hash_and_peer now_ms squeak_hash
          peer_address db = Some o ->
        exists r,
          In r (sent_offers db) /\ o = _parse_sent_offer r
          /\ sent_offer.squeak_hash r = squeak_hash
          /\ sent_offer.peer_host r = pa_host peer_address
          /\ sent_offer.peer_use_tor r = pa_use_tor peer_address
          /\ sent_offer.paid r = false
          /\ ~ expired_at now_ms (sent_offer.invoice_timestamp r)
                          (sent_offer.invoice_expiry r)
          /\ forall g, 0 <= g ->
               In r (sent_offers
                       (fst (delete_expired_sent_offers now_ms g db)))).
Proof.
  split; [reflexivity|].
  intros o Ho. unfold get_sent_offer_by_squeak_hash_and_peer in Ho.
  destruct (sent_offer_by_squeak_hash_and_peer_rows _ _ _ _)
    as [|r rest] eqn:E; [discriminate|].
  injection Ho as Ho.
  assert (Hin : In r (r :: rest)) by now left.
  rewrite <- E in Hin. unfold sent_offer_by_squeak_hash_and_peer_rows in Hin.
  apply filter_In in Hin. destruct Hin as [Hin Hf].
  rewrite !andb_true_iff in Hf.
  destruct Hf as [[[[H1 H2] H3] H4] H5].
  apply bytes_eqb_eq in H1. apply String.eqb_eq in H2.
  apply Bool.eqb_prop in H3. apply Bool.eqb_prop in H4.
  apply sent_not_expired_iff in H5. symmetry in Ho.
  exists r. do 7 (split; [assumption || reflexivity|]).
  intros g Hg. unfold delete_expired_sent_offers.
  cbn [fst with_sent_offers sent_offers]. apply filter_In. split; auto.
  apply negb_true_iff. apply not_true_is_false. intros Hd.
  apply sent_should_be_deleted_iff in Hd. apply H5.
  unfold expired_at. revert Hd.
  unfold now_seconds, Qle. cbn [Qnum Qden inject_Z]. lia.
Qed.

(** X28.  [insert_received_offer] of an offer whose payment hash is
    already stored returns [None] and writes nothing.  With a new
    payment hash it returns the next id of the counter, and at any time
    at which the offer is not expired [get_received_offers] for its
    squeak lists it beside the offers listed before; inserting the same
    offer again returns [None] and writes nothing. *)
Theorem insert_received_offer_once (now_ms : Z) (o : ReceivedOffer)
    (st : OfferStore) :
  ((exists r, In r (received_offers (store st))
              /\ received_offer.payment_hash r = ro_payment_hash o) ->
   insert_received_offer now_ms o st = (st, None))
  /\ ((forall r, In r (received_offers (store st)) ->
                 received_offer.payment_hash r <> ro_payment_hash o) ->
      let id := received_offer_seq st + 1 in
      let st1 := fst (insert_received_offer now_ms o st) in
      snd (insert_received_offer now_ms o st) = Some id
      /\ (forall t,
            ~ expired_at t (ro_invoice_timestamp o) (ro_invoice_expiry o) ->
            Permutation
              (get_received_offers t (ro_squeak_hash o) (store st1))
              (stored_received_offer id o
               :: get_received_offers t (ro_squeak_hash o) (store st)))
      /\ (forall t,
            expired_at t (ro_invoice_timestamp o) (ro_invoice_expiry o) ->
            get_received_offers t (ro_squeak_hash o) (store st1)
            = get_received_offers t (ro_squeak_hash o) (store st))
      /\ forall now_ms', insert_received_offer now_ms' o st1 = (st1, None)).
Proof.
  split.
  - intros [r [Hr Hph]]. unfold insert_received_offer.
    assert (E : existsb (fun x => bytes_eqb (received_offer.payment_hash x)
                                            (ro_payment_hash o))
                  (received_offers (store st)) = true).
    { apply existsb_exists. exists r. split; auto.
      now apply bytes_eqb_eq. }
    now rewrite E.
  - intros Hfresh id st1.
    assert (E : existsb (fun x => bytes_eqb (received_offer.payment_hash x)
                                            (ro_payment_hash o))
                  (received_offers (store st)) = false).
    { apply not_true_iff_false. intros H. apply existsb_exists in H.
      destruct H as [r [Hr Hph]]. apply bytes_eqb_eq in Hph.
      now apply (Hfresh r). }
    subst st1. unfold insert_received_offer. rewrite E. cbn [fst snd].
    split; [reflexivity|].
    set (ins := received_offer.mk _ _ _ _ _ _ _ _ _ _ _ _ _ _ _ _ _).
    assert (Hparse : _parse_received_offer ins = stored_received_offer id o).
    { subst ins. unfold _parse_received_offer, stored_received_offer.
      destruct o as [i sh ph no pp ts ex pr rq de [lh lp] [h po tor]].
      reflexivity. }
    assert (Hexp : forall t,
              received_offer_is_not_expired t ins = true
              <-> ~ expired_at t (ro_invoice_timestamp o)
                              (ro_invoice_expiry o)).
    { intros t. apply received_not_expired_iff. }
    split; [|split].
    + intros t Ht. unfold get_received_offers, get_received_offers_rows.
      cbn [store with_received_offers received_offers].
      rewrite filter_app, map_app.
      apply Permutation_sym. rewrite Permutation_cons_append.
      apply Permutation_app_head.
      cbn [filter]. apply Hexp in Ht. rewrite Ht.
      subst ins. cbn [received_offer.squeak_hash received_offer.paid
                      received_offer_is_not_paid].
      rewrite bytes_eqb_refl. simpl. now rewrite Hparse.
    + intros t Ht. unfold get_received_offers, get_received_offers_rows.
      cbn [store with_received_offers received_offers].
      rewrite filter_app, map_app. cbn [filter].
      destruct (received_offer_is_not_expired t ins) eqn:Ee.
      * apply Hexp in Ee. contradiction.
      * rewrite !andb_false_r. simpl. now rewrite app_nil_r.
    + intros now_ms'.
      cbn [store with_received_offers received_offers].
      rewrite existsb_app. cbn [existsb]. subst ins.
      cbn [received_offer.payment_hash]. rewrite bytes_eqb_refl.
      rewrite orb_true_l, orb_true_r. reflexivity.
Qed.

(** X29.  [insert_sent_offer] of an offer whose payment hash is already
    stored raises [IntegrityError] and writes nothing.  With a new
    payment hash it returns the next id of the counter and
    [get_sent_offer_by_payment_hash] then returns the offer under that
    id; [delete_sent_offer] of the payment hash makes the lookup answer
    [None] again. *)
Theorem insert_sent_offer_then_get (now_ms : Z) (o : SentOffer)
    (st : OfferStore) :
  ((exists r, In r (sent_offers (store st))
              /\ sent_offer.payment_hash r = so_payment_hash o) ->
   insert_sent_offer now_ms o st = (st, inl IntegrityError))
  /\ ((forall r, In r (sent_offers (store st)) ->
                 sent_offer.payment_hash r <> so_payment_hash o) ->
      let id := sent_offer_seq st + 1 in
      let st1 := fst (insert_sent_offer now_ms o st) in
      snd (insert_sent_offer now_ms o st) = inr id
      /\ get_sent_offer_by_payment_hash (so_payment_hash o) (store st1)
         = Some (stored_sent_offer id o)
      /\ get_sent_offer_by_payment_hash (so_payment_hash o)
           (delete_sent_offer (so_payment_hash o) (store st1))
         = None).
Proof.
  split.
  - intros [r [Hr Hph]]. unfold insert_sent_offer.
    assert (E : existsb (fun x => bytes_eqb (sent_offer.payment_hash x)
                                            (so_payment_hash o))
                  (sent_offers (store st)) = true).
    { apply existsb_exists. exists r. split; auto.
      now apply bytes_eqb_eq. }
    now rewrite E.
  - intros Hfresh id st1.
    assert (E : existsb (fun x => bytes_eqb (sent_offer.payment_hash x)
                                            (so_payment_hash o))
                  (sent_offers (store st)) = false).
    { apply not_true_iff_false. intros H. apply existsb_exists in H.
      destruct H as [r [Hr Hph]]. apply bytes_eqb_eq in Hph.
      now apply (Hfresh r). }
    subst st1. unfold insert_sent_offer. rewrite E. cbn [fst snd].
    split; [reflexivity|]. split.
    + unfold get_sent_offer_by_payment_hash.
      cbn [store with_sent_offers sent_offers].
      rewrite filter_app, filter_none.
      * simpl. rewrite bytes_eqb_refl.
        unfold _parse_sent_offer, stored_sent_offer. simpl.
        destruct o as [i sh ph sk no pr rq ts ex [h po tor]]. reflexivity.
      * intros r Hr. apply bytes_eqb_neq. now apply Hfresh.
    + unfold get_sent_offer_by_payment_hash, delete_sent_offer.
      cbn [store with_sent_offers sent_offers].
      rewrite filter_none; auto.
      intros r Hr. apply filter_In in Hr. destruct Hr as [_ Hr].
      now apply negb_true_iff in Hr.
Qed.


(** * More properties: received payments and the settle index *)

Lemma sql_max_spec (l : list Z) :
  match sql_max l with
  | None => l = []
  | Some m => In m l /\ forall x, In x l -> x <= m
  end.
Proof.
  induction l as [|x l IH]; simpl; auto.
  destruct (sql_max l) as [m|].
  - destruct IH as [Hm Hle]. split.
    + destruct (Z.max_spec x m) as [[_ E]|[_ E]]; rewrite E; auto.
    + intros y [Hy|Hy]; [subst; lia|]. specialize (Hle y Hy). lia.
  - subst l. split; [now left|]. intros y [Hy|[]]. lia.
Qed.

Lemma sql_max_snoc (l : list Z) (x : Z) :
  sql_max (l ++ [x])
  = Some (match sql_max l with Some m => Z.max m x | None => x end).
Proof.
  induction l as [|y l IH]; simpl; auto.
  rewrite IH. destruct (sql_max l) as [m|]; f_equal; lia.
Qed.

Lemma insert_asc_sorted (x : received_payment.row)
    (l : list received_payment.row) :
  StronglySorted (fun a b => received_payment.received_payment_id a
                             <= received_payment.received_payment_id b) l ->
  StronglySorted (fun a b => received_payment.received_payment_id a
                             <= received_payment.received_payment_id b)
    (insert_desc (fun a b => b <? a) received_payment.received_payment_id
       x l).
Proof.
  intros Hs. induction Hs as [|y l Hs IH Hy]; simpl.
  - repeat constructor.
  - destruct (received_payment.received_payment_id y
              <? received_payment.received_payment_id x) eqn:E.
    + apply Z.ltb_lt in E. constructor; auto.
      apply Forall_forall. intros z Hz.
      apply (Permutation_in _ (insert_desc_perm _ _ x l)) in Hz.
      destruct Hz as [Hz|Hz]; [subst; lia|].
      rewrite Forall_forall in Hy. now apply Hy.
    + apply Z.ltb_ge in E. constructor.
      * now constructor.
      * constructor; auto. rewrite Forall_forall in *.
        intros z Hz. specialize (Hy z Hz). lia.
Qed.

Lemma order_by_id_asc_sorted (l : list received_payment.row) :
  StronglySorted (fun a b => received_payment.received_payment_id a
                             <= received_payment.received_payment_id b)
    (order_by_id_asc l).
Proof.
  unfold order_by_id_asc. induction l as [|x l IH]; simpl.
  - constructor.
  - now apply insert_asc_sorted.
Qed.

(** X30.  [insert_received_payment] of a payment whose payment hash is
    stored returns [None] and writes nothing; of a new one it returns
    the next id, and [get_latest_settle_index] becomes the larger of the
    old answer and the payment's settle index.
    [get_latest_settle_index] is [None] exactly on an empty table, and
    otherwise the largest stored settle index; after
    [clear_received_payment_settle_indices] it is 0 on a table with
    payments.  [yield_received_payments_from_index] yields exactly the
    stored payments with an id above the start index, by ascending
    id. *)
Theorem settle_index_bookkeeping (t : PaymentTable) :
  (forall now_ms p,
      (exists r, In r (received_payments t)
                 /\ received_payment.payment_hash r = rp_payment_hash p) ->
      insert_received_payment now_ms p t = (t, None))
  /\ (forall now_ms p,
        (forall r, In r (received_payments t) ->
                   received_payment.payment_hash r <> rp_payment_hash p) ->
        snd (insert_received_payment now_ms p t)
        = Some (received_payment_seq t + 1)
        /\ get_latest_settle_index (fst (insert_received_payment now_ms p t))
           = Some (match get_latest_settle_index t with
                   | Some m => Z.max m (rp_settle_index p)
                   | None => rp_settle_index p
                   end))
  /\ (get_latest_settle_index t = None <-> received_payments t = [])
  /\ (forall m, get_latest_settle_index t = Some m ->
        (exists r, In r (received_payments t)
                   /\ received_payment.settle_index r = m)
        /\ forall r, In r (received_payments t) ->
                     received_payment.settle_index r <= m)
  /\ (received_payments t <> [] ->
      get_latest_settle_index (clear_received_payment_settle_indices t)
      = Some 0)
  /\ (forall start_index,
        (forall p, In p (yield_received_payments_from_index start_index t)
                   <-> exists r, In r (received_payments t)
                                 /\ p = _parse_received_payment r
                                 /\ start_index
                                    < received_payment.received_payment_id r)
        /\ StronglySorted (fun a b => payment_id a <= payment_id b)
             (yield_received_payments_from_index start_index t)).
Proof.
  split; [|split; [|split; [|split; [|split]]]].
  - intros now_ms p [r [Hr Hph]]. unfold insert_received_payment.
    assert (E : existsb (fun x => bytes_eqb (received_payment.payment_hash x)
                                            (rp_payment_hash p))
                  (received_payments t) = true).
    { apply existsb_exists. exists r. split; auto.
      now apply bytes_eqb_eq. }
    now rewrite E.
  - intros now_ms p Hfresh.
    assert (E : existsb (fun x => bytes_eqb (received_payment.payment_hash x)
                                            (rp_payment_hash p))
                  (received_payments t) = false).
    { apply not_true_iff_false. intros H. apply existsb_exists in H.
      destruct H as [r [Hr Hph]]. apply bytes_eqb_eq in Hph.
      now apply (Hfresh r). }
    unfold insert_received_payment. rewrite E. cbn [fst snd].
    split; [reflexivity|].
    unfold get_latest_settle_index. cbn [received_payments].
    rewrite map_app. cbn [map received_payment.settle_index].
    apply sql_max_snoc.
  - unfold get_latest_settle_index.
    pose proof (sql_max_spec (map received_payment.settle_index
                                  (received_payments t))) as H.
    destruct (sql_max _) as [m|].
    + split; [discriminate|]. intros E. rewrite E in H.
      destruct H as [[] _].
    + split; auto. intros _.
      destruct (received_payments t); [reflexivity|discriminate].
  - intros m Hm. unfold get_latest_settle_index in Hm.
    pose proof (sql_max_spec (map received_payment.settle_index
                                  (received_payments t))) as H.
    rewrite Hm in H. destruct H as [Hin Hle]. split.
    + apply in_map_iff in Hin. destruct Hin as [r [Er Hr]]. eauto.
    + intros r Hr. apply Hle. now apply in_map.
  - intros Hne. unfold get_latest_settle_index,
      clear_received_payment_settle_indices. cbn [received_payments].
    rewrite map_map. cbn [received_payment.settle_index].
    destruct (received_payments t) as [|r l]; [contradiction|].
    clear Hne. revert r. induction l as [|y l IH]; intros r.
    + reflexivity.
    + specialize (IH y). simpl in *. now rewrite IH.
  - intros start_index. unfold yield_received_payments_from_index. split.
    + intros p. rewrite in_map_iff. split.
      * intros [r [Er Hr]]. unfold order_by_id_asc in Hr.
        apply order_by_desc_In in Hr. apply filter_In in Hr.
        destruct Hr as [Hr Hlt]. apply Z.ltb_lt in Hlt. eauto.
      * intros [r [Hr [Er Hlt]]]. exists r. split; auto.
        unfold order_by_id_asc. apply order_by_desc_In.
        apply filter_In. split; auto. now apply Z.ltb_lt.
    + pose proof (order_by_id_asc_sorted
                    (filter (fun r => start_index
                                      <? received_payment.received_payment_id r)
                            (received_payments t))) as Hs.
      induction Hs as [|x l Hs IH Hx]; simpl; constructor; auto.
      rewrite Forall_forall in *. intros z Hz. apply in_map_iff in Hz.
      destruct Hz as [y [Ey Hy]]. subst z. simpl. now apply Hx.
Qed.


(** * The properties on the sample stores *)

Lemma run_ops_tables_ok get_hash (ops : list store_op) :
  tables_ok (run_ops get_hash ops empty_db).
Proof.
  assert (H : forall db, tables_ok db -> tables_ok (run_ops get_hash ops db)).
  { unfold run_ops. induction ops as [|op ops IH]; simpl; auto.
    intros db Hdb. apply IH. now apply store_op_tables_ok. }
  apply H. unfold tables_ok. simpl.
  repeat split; try constructor; contradiction.
Qed.

Lemma sample_db_tables_ok : tables_ok sample_db.
Proof. apply run_ops_tables_ok. Qed.

Lemma liked_db_wf : wf_db liked_db.
Proof. split; nodup_by_computation. Qed.

(** X1 on the empty store: Alice's squeak reads back locked. *)
Lemma insert_squeak_then_get_witness :
  (forall s, In s (squeaks empty_db) ->
             squeak.hash s <> sample_get_hash alice_squeak)
  /\ get_squeak_secret_key (sample_get_hash alice_squeak)
       (fst (insert_squeak sample_get_hash 10 alice_squeak
                           (mkCBlockHeader 90) empty_db))
     = None
  /\ get_squeak (fun _ => alice_squeak) (sample_get_hash alice_squeak)
       (fst (insert_squeak sample_get_hash 10 alice_squeak
                           (mkCBlockHeader 90) empty_db))
     = Some alice_squeak.
Proof.
  assert (H : forall s, In s (squeaks empty_db) ->
                        squeak.hash s <> sample_get_hash alice_squeak)
    by (simpl; intros s []).
  pose proof (insert_squeak_then_get sample_get_hash (fun _ => alice_squeak)
                10 alice_squeak (mkCBlockHeader 90) empty_db H)
    as [H1 [H2 _]].
  split; [exact H|]. split; [exact H1|exact H2].
Defined.

(** X4 on [sample_db]: Alice's unlocked squeak after her profile is
    deleted. *)
Lemma unlocked_stays_unlocked_witness :
  wf_db sample_db
  /\ In alice_row (squeaks sample_db)
  /\ squeak.secret_key alice_row <> None
  /\ forall s', In s' (squeaks (delete_profile 1 sample_db)) ->
                squeak.hash s' = squeak.hash alice_row ->
                squeak.secret_key s' <> None.
Proof.
  assert (H1 : In alice_row (squeaks sample_db)) by (vm_compute; auto).
  assert (H2 : squeak.secret_key alice_row <> None)
    by (vm_compute; discriminate).
  split; [exact sample_db_wf|]. split; [exact H1|]. split; [exact H2|].
  exact (unlocked_stays_unlocked sample_get_hash (DeleteProfile 1) sample_db
           alice_row sample_db_wf H1 H2).
Defined.

(** X6 on [sample_db]: the first page of Alice's squeaks. *)
Lemma address_listing_pages_witness :
  wf_db sample_db
  /\ StronglySorted (before entry_key)
       (get_squeak_entries_for_address "alice" 2 None sample_db)
  /\ (List.length (get_squeak_entries_for_address "alice" 2 None sample_db)
      <= 2)%nat.
Proof.
  pose proof (address_listing_pages "alice" 2 None sample_db sample_db_wf)
    as [_ [H2 [H3 _]]].
  split; [exact sample_db_wf|]. split; [exact H2|exact H3].
Defined.

(** X7 on [sample_db]: the replies to Alice's squeak. *)
Lemma reply_listing_pages_witness :
  wf_db sample_db
  /\ StronglySorted (before entry_key)
       (get_thread_reply_squeak_entries [x0a] 2 None sample_db)
  /\ (List.length (get_thread_reply_squeak_entries [x0a] 2 None sample_db)
      <= 2)%nat.
Proof.
  pose proof (reply_listing_pages [x0a] 2 None sample_db sample_db_wf)
    as [_ [H2 [H3 _]]].
  split; [exact sample_db_wf|]. split; [exact H2|exact H3].
Defined.

(** X8 on [sample_db]: Alice's squeak and a first page of one entry. *)
Lemma timeline_pages_leave_no_gap_witness :
  wf_db sample_db
  /\ In alice_row (squeaks sample_db)
  /\ In alice_profile_row (profiles sample_db)
  /\ profile.following alice_profile_row = true
  /\ (In (_parse_squeak_entry (alice_row, Some alice_profile_row))
         (get_timeline_squeak_entries 1 None sample_db)
      \/ (List.length (get_timeline_squeak_entries 1 None sample_db) = 1%nat
          /\ forall e, In e (get_timeline_squeak_entries 1 None sample_db) ->
                       key_lt (row_key alice_row) (entry_key e))).
Proof.
  assert (H1 : In alice_row (squeaks sample_db)) by (vm_compute; auto).
  assert (H2 : In alice_profile_row (profiles sample_db))
    by (vm_compute; auto).
  assert (H3 : profile.address alice_profile_row
               = squeak.author_address alice_row) by reflexivity.
  assert (H4 : profile.following alice_profile_row = true) by reflexivity.
  assert (H5 : key_lt (row_key alice_row) (last_key None))
    by (vm_compute; reflexivity).
  split; [exact sample_db_wf|]. split; [exact H1|]. split; [exact H2|].
  split; [exact H4|].
  exact (timeline_pages_leave_no_gap 1 None sample_db alice_row
           alice_profile_row sample_db_wf H1 H2 H3 H4 H5).
Defined.

(** X9 on [liked_db]: the liked squeaks at 100 ms. *)
Lemma liked_listing_pages_witness :
  wf_db liked_db
  /\ StronglySorted liked_before
       (get_liked_squeak_entries 100 2 None liked_db)
  /\ (List.length (get_liked_squeak_entries 100 2 None liked_db) <= 2)%nat.
Proof.
  pose proof (liked_listing_pages 100 2 None liked_db liked_db_wf)
    as [_ [H2 [H3 _]]].
  split; [exact liked_db_wf|]. split; [exact H2|exact H3].
Defined.

(** X10 on [sample_db]: the ancestors of Bob's reply, whose thread is
    one link long, and those of a hash that is not stored. *)
Lemma ancestors_are_the_reply_chain_witness :
  ~ reply_chain sample_db 2 [x0b]
  /\ (exists entries,
        get_thread_ancestor_squeak_entries 3 [x0b] sample_db = Some entries
        /\ forall h',
             (exists e, In e entries /\ squeak_hash e = h')
             <-> reply_ancestor sample_db [x0b] h'
                 /\ exists s, In s (squeaks sample_db)
                              /\ squeak.hash s = h')
  /\ option_map (map squeak_hash)
       (get_thread_ancestor_squeak_entries 3 [x0b] sample_db)
     = Some [[x0a]; [x0b]]
  /\ (forall s, In s (squeaks sample_db) -> squeak.hash s <> [x0d])
  /\ get_thread_ancestor_squeak_entries 0 [x0d] sample_db = Some [].
Proof.
  assert (H2 : ~ reply_chain sample_db 2 [x0b]).
  { intros H. apply reply_chain_inv in H.
    destruct H as [s [r [Hs [Hh [Hr H]]]]].
    vm_compute in Hs. destruct Hs as [Hs|[Hs|[Hs|[]]]]; subst s;
      try discriminate Hh; try discriminate Hr.
    injection Hr as Hr. subst r.
    apply reply_chain_inv in H. destruct H as [s [r [Hs [Hh' [Hr _]]]]].
    vm_compute in Hs. destruct Hs as [Hs|[Hs|[Hs|[]]]]; subst s;
      try discriminate Hh'; discriminate Hr. }
  assert (Hd : forall s, In s (squeaks sample_db) -> squeak.hash s <> [x0d]).
  { intros s Hs. vm_compute in Hs.
    destruct Hs as [Hs|[Hs|[Hs|[]]]]; subst s; vm_compute; discriminate. }
  pose proof (ancestors_are_the_reply_chain [x0b] sample_db)
    as [_ [Hret _]].
  pose proof (ancestors_are_the_reply_chain [x0d] sample_db)
    as [_ [_ Hnone]].
  split; [exact H2|]. split; [exact (Hret 2%nat H2)|].
  split; [vm_compute; reflexivity|]. split; [exact Hd|].
  exact (Hnone Hd 0%nat).
Defined.

(** X11 on [sample_db]: the lookup over every block. *)
Lemma lookup_squeaks_locked_filter_witness :
  wf_db sample_db
  /\ forall include_locked,
       NoDup (lookup_squeaks [] 0 0 None include_locked sample_db).
Proof.
  split; [exact sample_db_wf|].
  exact (proj1 (lookup_squeaks_locked_filter [] 0 0 None sample_db
                  sample_db_wf)).
Defined.

(** X14 on [sample_db]: a second profile named alice. *)
Lemma insert_profile_duplicate_witness :
  In alice_profile_row (profiles sample_db)
  /\ insert_profile 50
       (mkSqueakProfile None "alice" None "elsewhere" false false 0 None)
       sample_db
     = (sample_db, inl IntegrityError).
Proof.
  assert (H : In alice_profile_row (profiles sample_db))
    by (vm_compute; auto).
  split; [exact H|].
  exact (insert_profile_duplicate 50
           (mkSqueakProfile None "alice" None "elsewhere" false false 0 None)
           sample_db alice_profile_row H (or_introl eq_refl)).
Defined.

(** X15 on [sample_db]: Carol's profile gets the id 3. *)
Lemma insert_profile_then_get_witness :
  (forall p, In p (profiles sample_db) ->
     profile.profile_name p <> prof_profile_name carol_profile
     /\ profile.address p <> prof_address carol_profile)
  /\ snd (insert_profile 50 carol_profile sample_db) = inr 3
  /\ get_profile_by_name "carol"
       (fst (insert_profile 50 carol_profile sample_db))
     = Some (stored_profile 3 carol_profile).
Proof.
  assert (H : forall p, In p (profiles sample_db) ->
                profile.profile_name p <> prof_profile_name carol_profile
                /\ profile.address p <> prof_address carol_profile).
  { intros p Hp. vm_compute in Hp. destruct Hp as [Hp|[Hp|[]]]; subst p;
      split; discriminate. }
  pose proof (insert_profile_then_get 50 carol_profile sample_db H)
    as [H1 [_ [H3 _]]].
  split; [exact H|]. split; [exact H1|exact H3].
Defined.

(** X19 on [sample_db]: Alice cannot take Bob's name. *)
Lemma set_profile_name_unique_witness :
  tables_ok sample_db
  /\ In alice_profile_row (profiles sample_db)
  /\ set_profile_name 1 "bob" sample_db = (sample_db, inl IntegrityError).
Proof.
  assert (H : In alice_profile_row (profiles sample_db))
    by (vm_compute; auto).
  split; [exact sample_db_tables_ok|]. split; [exact H|].
  apply (proj1 (set_profile_name_unique "bob" sample_db alice_profile_row
                  sample_db_tables_ok H)).
  exists bob_profile_row. split; [vm_compute; auto|].
  split; [vm_compute; discriminate|reflexivity].
Defined.

(** X20 on [sample_db]: a second peer, found without its [use_tor]
    flag. *)
Lemma insert_peer_then_get_witness :
  peer_host_port_taken "other_host" 8555 sample_db = false
  /\ snd (insert_peer 50 other_peer sample_db) = inr 2
  /\ get_peer_by_address (mkPeerAddress "other_host" 8555 false)
       (fst (insert_peer 50 other_peer sample_db))
     = Some (mkSqueakPeer (Some 2) "other"
               (mkPeerAddress "other_host" 8555 true) true).
Proof.
  assert (H : peer_host_port_taken (pa_host (sp_address other_peer))
                (pa_port (sp_address other_peer)) sample_db = false)
    by reflexivity.
  pose proof (insert_peer_then_get 50 other_peer sample_db H) as [H1 [H2 _]].
  split; [exact H|]. split; [exact H1|exact (H2 false)].
Defined.

(** X26 on [two_offers_db]: the sweep at second 1100 removes the offer
    that expired at second 1060, and a reader at second 1200 is given
    the other offer, as without the sweep. *)
Lemma received_sweep_is_invisible_witness :
  1100000 <= 1200000
  /\ snd (delete_expired_received_offers 1100000 two_offers_db) = 1
  /\ get_received_offers 1200000 [x0a]
       (fst (delete_expired_received_offers 1100000 two_offers_db))
     = get_received_offers 1200000 [x0a] two_offers_db
  /\ get_received_offers 1200000 [x0a] two_offers_db
     = [_parse_received_offer lasting_received_offer]
  /\ get_received_offer_for_squeak_and_peer 1200000 [x0a]
       (mkPeerAddress "fake_host" 5678 false)
       (fst (delete_expired_received_offers 1100000 two_offers_db))
     = Some (_parse_received_offer lasting_received_offer).
Proof.
  assert (H : 1100000 <= 1200000) by lia.
  pose proof (received_sweep_is_invisible 1100000 1200000 [x0a]
                two_offers_db H) as [H1 H2].
  split; [exact H|]. split; [reflexivity|]. split; [exact H1|].
  split; [vm_compute; reflexivity|].
  rewrite (H2 (mkPeerAddress "fake_host" 5678 false)).
  vm_compute. reflexivity.
Defined.
